(** * TPL (Task Parallel Library): futures, task nodes and the pool scheduler

    A shallow embedding of [include/TPL/Future.h], [include/TPL/Task.h],
    [include/TPL/Task.inl] and [include/TPL/Scheduler.h].

    Conventions of the embedding.
    - The build with assertions enabled is modelled ([NDEBUG] undefined):
      [assert] aborts the run with [Fail (AssertionFailed _)], and the
      [isStarted_] member of [TaskImpl] exists.
    - Objects live in a store and are addressed by their index; a C++ pointer
      is an [option] of an index, a C++ reference is an index.
    - Threads interleave at the granularity of the critical sections (the
      blocks guarded by [std::unique_lock]), of the atomic operations and of
      the calls into user code.  A thread is the list of commands it still
      has to run; one step of the machine runs the first command of one
      thread.
    - There are two machines.  The first one, [exec], runs the code on the
      store and keeps every node: it does not follow the reference counts
      ([RefCounted], [RefCntAutoPtr]), and the test and the assignment of
      [isStarted_] in [Start()] are one step of it.  The second one,
      [pexec], in the section on the nodes with their reference counts,
      runs the same code with the count of every node, deletes a node
      whose count falls to zero, and runs the test and the assignment of
      [isStarted_], a plain [bool], as two steps.  What is proved of the
      first machine holds of the futures, of the pools and of single calls;
      what depends on the life of a node or on two calls of [Start()] on
      one node is proved of the second.
    - User code (producers, listeners, callables, the code of the threads
      the client starts) is not known: it is a command [CUser] whose step is
      chosen from outside, either one call into the public interface or the
      return of a value.
    - The member [log] of the machine state is a history of what happened,
      most recent event first.  The code does not read it. *)

From Stdlib Require Import ZArith List Bool Lia.
From stdpp Require Import base decidable option list.
Import ListNotations.

Set Default Proof Using "Type".

(** ** Outcomes *)

Inductive Assertion :=
| A_value_empty        (* assert(!value_.has_value())  Future::SetValue *)
| A_value_present      (* assert(value_.has_value())   Future::GetValueInternal *)
| A_cb_not_null        (* assert(cb != nullptr) *)
| A_not_started        (* assert(!isStarted_)          TaskImpl::MarkAsStarted *)
| A_scheduler_not_null (* assert(scheduler != nullptr) *)
| A_functor_not_null   (* assert(functor != nullptr)   WorkerThreadRoutine *)
| A_numThreads         (* assert(numThreads > 0) *)
| A_refCount_ge_0      (* assert(refCount >= 0)        RefCounted::AddRef *)
| A_refCount_gt_0.     (* assert(refCount > 0)         RefCounted::Release *)

Inductive Failure :=
| AssertionFailed (a : Assertion)
| NullPointer          (* a null or dangling pointer is dereferenced *)
| BadFunctionCall      (* an empty std::function is called *)
| IllTyped.            (* a value of a type the C++ type checker excludes *)

Inductive Outcome (A : Type) :=
| Next (a : A)
| Fail (e : Failure)
| Blocked.             (* the step cannot be taken now *)
Arguments Next {A} a.
Arguments Fail {A} e.
Arguments Blocked {A}.

Definition bind {A B} (m : Outcome A) (k : A -> Outcome B) : Outcome B :=
  match m with
  | Next a => k a
  | Fail e => Fail e
  | Blocked => Blocked
  end.

Notation "'let*' p ':=' m 'in' k" := (bind m (fun p => k))
  (at level 10, p pattern, m at level 100, k at level 200).

Definition assert (a : Assertion) (b : bool) : Outcome unit :=
  if b then Next tt else Fail (AssertionFailed a).

Definition deref {A} (o : option A) : Outcome A :=
  match o with
  | Some a => Next a
  | None => Fail NullPointer
  end.

(** ** Data *)

(** Indices into the store of nodes, of schedulers and of threads. *)
Abbreviation TaskId := nat (only parsing).
Abbreviation SchedId := nat (only parsing).
Abbreviation ThreadId := nat (only parsing).

(** The values tasks produce: [void], an integer, or a [Task<U>] handle
    (the [impl_] pointer of the handle). *)
Inductive Val :=
| VVoid
| VInt (z : Z)
| VTask (impl_ : option TaskId).

(** [std::function] objects handed to [InvokeOnValueAvailable]: the lambdas
    of [Task.inl], by the variables they capture, and the listeners of the
    client. *)
Inductive Callback :=
| CbUser (id : nat)
| CbParent (self : TaskId) (i : nat) (parent : TaskId)
    (* [spDeps, &tupleEle, parent, self]: tupleEle is slot i of spDeps *)
| CbKeepDeps (spDeps : TaskId)
    (* [spDeps](const auto&) {} *)
| CbUnwrapOuter (proxyTask : TaskId)
| CbUnwrapInner (proxyTask : TaskId).

Inductive WaitStatus := kTimeout | kReady.

#[global] Instance Val_eq_dec : EqDecision Val.
Proof. solve_decision. Defined.
#[global] Instance Callback_eq_dec : EqDecision Callback.
Proof. solve_decision. Defined.
#[global] Instance WaitStatus_eq_dec : EqDecision WaitStatus.
Proof. solve_decision. Defined.

(** *** Future<T> *)

Record Future := mkFuture {
  value_ : option Val;
  onValueAvailable_ : list Callback
}.

Definition Future_default : Future := mkFuture None [].

Definition IsReadyInternal (f : Future) : bool :=
  match value_ f with Some _ => true | None => false end.

Definition GetValueInternal (f : Future) : Outcome Val :=
  let* _ := assert A_value_present (IsReadyInternal f) in
  deref (value_ f).

(** The guarded block of [SetValue]. *)
Definition SetValue_locked (v : Val) (f : Future) : Outcome Future :=
  let* _ := assert A_value_empty (negb (IsReadyInternal f)) in
  Next (mkFuture (Some v) (onValueAvailable_ f)).

(** The guarded block of [InvokeOnValueAvailable]: the future afterwards and
    the local [callback]. *)
Definition InvokeOnValueAvailable_locked (cb : Callback) (f : Future)
  : Future * option Callback :=
  if IsReadyInternal f then (f, Some cb)
  else (mkFuture (value_ f) (onValueAvailable_ f ++ [cb]), None).

(** The guarded block of the loop of [CallAllValueListener]: [None] is the
    [break]. *)
Definition CallAllValueListener_locked (f : Future)
  : Future * option Callback :=
  match onValueAvailable_ f with
  | [] => (f, None)
  | cb :: q => (mkFuture (value_ f) q, Some cb)
  end.

(** [hasValueCv_.wait(lck, pred)] returns once [pred] holds. *)
Definition Wait_locked (f : Future) : Outcome unit :=
  if IsReadyInternal f then Next tt else Blocked.

(** [hasValueCv_.wait_for(lck, millis, pred)] returns [true] once [pred]
    holds and returns [pred()] when the time is over; [expired] tells
    whether the time is over at this moment. *)
Definition WaitFor_locked (expired : bool) (f : Future) : Outcome WaitStatus :=
  if IsReadyInternal f then Next kReady
  else if expired then Next kTimeout
  else Blocked.

(** *** TaskImpl<T>, the dependency context, the pool scheduler *)

(** The member [functor_] of a node. *)
Inductive Functor :=
| FNull                              (* std::function<ValueType()>(nullptr) *)
| FUser (id : nat)                   (* a producer of the client, no parent *)
| FDeps (deps : TaskId) (functor : option nat).
                                     (* [deps, functor]: the thunk made by
                                        the constructor with parents *)

Record TaskImpl := mkTaskImpl {
  future_ : Future;
  functor_ : Functor;
  scheduler_ : option SchedId;
  isStarted_ : bool
}.

(** [pendingDependencyCount] is a [std::atomic_int] set to the number of
    parents, a template arity: it stays far from the bounds of [int], and is
    taken as an integer. *)
Record DependencyContext := mkDeps {
  pendingDependencyCount : Z;
  dependencies : list (option TaskId)
}.

(** [std::function<void()>] objects handed to [Schedule]. *)
Inductive Closure :=
| ClStart (self : TaskId)            (* the lambda of TaskImpl::Start *)
| ClUser (id : nat).                 (* a callable of the client *)

(** [taskCount_] is a [size_t] that counts the elements of [taskQueue_]; the
    queue cannot hold [2^64] objects, so the counter never wraps and is taken
    as an integer. *)
Record ParallelTaskScheduler := mkSched {
  workerThreads_ : list ThreadId;
  taskQueue_ : list (option Closure);
  taskCount_ : Z;
  isRunning_ : bool
}.

#[global] Instance Closure_eq_dec : EqDecision Closure.
Proof. solve_decision. Defined.
#[global] Instance Functor_eq_dec : EqDecision Functor.
Proof. solve_decision. Defined.

(** ** Threads *)

(** Where user code returns to. *)
Inductive Kont :=
| KMain                      (* the top of a thread of the client *)
| KProducer (self : TaskId)  (* [functor_()] in the lambda of Start *)
| KListener                  (* a listener called by a future *)
| KCallable.                 (* a callable run by a worker *)

(** The calls user code can make. A [Task<T>] handle is given by the node it
    points to; a functor of the client is given by a number, [None] being an
    empty [std::function]. *)
Inductive ApiCall :=
| ApiParallelTaskScheduler (numThreads : nat)
| ApiParallelTaskScheduler0 (hardware_concurrency : nat)
| ApiDestroy (s : SchedId)
| ApiSchedule (s : SchedId) (functor : option nat)
| ApiSetDefaultTaskScheduler (s : option SchedId)
| ApiTask (functor : option nat) (scheduler : SchedId)
    (parentTasks : list TaskId)
| ApiTaskValue (v : Val) (scheduler : SchedId)
| ApiMakeTask (functor : option nat) (scheduler : option SchedId)
    (parentTasks : list TaskId)
| ApiMakeTaskAndStart (functor : option nat) (scheduler : option SchedId)
| ApiMakeTaskFromValue (v : Val) (scheduler : option SchedId)
| ApiStart (t : TaskId)
| ApiThen (t : TaskId) (functor : option nat) (scheduler : option SchedId)
| ApiUnwrap (t : TaskId) (scheduler : option SchedId)
| ApiUnwrap0 (t : TaskId)
| ApiInvokeOnValueAvailable (t : TaskId) (cb : option nat)
| ApiWait (t : TaskId)
| ApiWaitFor (t : TaskId)
| ApiGetValue (t : TaskId)
| ApiThread.

Inductive Cmd :=
| CUser (k : Kont)
    (* user code is running *)
| CSetValue (f : TaskId) (v : Val)
    (* Future::SetValue, before its guarded block *)
| CCallAllValueListener (f : TaskId) (cb : option Callback)
    (* the loop of CallAllValueListener: at its head, or holding the
       listener it has just popped *)
| CInvokeOnValueAvailable (f : TaskId) (cb : option Callback)
    (* Future::InvokeOnValueAvailable, at its entry *)
| CCallback (f : TaskId) (callback : Callback)
    (* callback(GetValueInternal()) in InvokeOnValueAvailable *)
| CParent (self : TaskId) (i : nat) (parent : TaskId) (stored : bool)
    (* the listener a composite puts on a parent: before
       [tupleEle = parent], or before [--pendingDependencyCount] *)
| CStart (t : TaskId)
    (* TaskImpl::Start *)
| CSchedule (s : SchedId) (functor : option Closure)
    (* ParallelTaskScheduler::Schedule *)
| CInvokeFunctor (self : TaskId)
    (* the lambda of Start: self->functor_() *)
| CWorkerThreadRoutine (s : SchedId)
    (* the loop of WorkerThreadRoutine, at its head *)
| CFunctor (s : SchedId) (functor : option Closure)
    (* assert(functor != nullptr); functor(); *)
| CFunctorReturned (s : SchedId) (functor : Closure)
| CDestroy (s : SchedId)
    (* ~ParallelTaskScheduler, before its guarded block *)
| CJoin (s : SchedId) (ths : list ThreadId)
    (* the loop joining the workers *)
| CWait (f : TaskId)
| CWaitFor (f : TaskId)
| CGetValue (f : TaskId).

Inductive Event :=
| EvTask (t : TaskId) (parentTasks : list TaskId)
    (* a node was constructed *)
| EvUnwrap (t proxyTask : TaskId)
| EvSetValue (f : TaskId) (v : Val)
| EvListen (f : TaskId) (cb : Callback) (ready : bool)
    (* InvokeOnValueAvailable(cb) ran its guarded block: it found the
       future Ready, or it pushed cb *)
| EvCall (th : ThreadId) (f : TaskId) (cb : Callback) (v : Val) (drain : bool)
    (* cb(v) is called, by CallAllValueListener or by
       InvokeOnValueAvailable *)
| EvZero (self : TaskId) (i : nat)
    (* listener i of self saw the count reach zero *)
| EvStart (t : TaskId)
| EvSchedule (s : SchedId) (functor : option Closure)
| EvPop (s : SchedId) (functor : option Closure)
| EvProducer (t : TaskId) (args : list (option TaskId))
    (* the producer of t is called; args are the handles it is given *)
| EvDone (s : SchedId) (functor : Closure)
| EvDestroy (s : SchedId)
| EvDestroyed (s : SchedId)
| EvWaitFor (th : ThreadId) (f : TaskId) (r : WaitStatus)
| EvGetValue (th : ThreadId) (f : TaskId) (v : Val).

#[global] Instance Event_eq_dec : EqDecision Event.
Proof. solve_decision. Defined.

(** ** The state of the machine *)

Record World := mkWorld {
  tasks : list TaskImpl;
  contexts : list (option DependencyContext);
    (* contexts !! t: the DependencyContext made by the constructor of t *)
  schedulers : list ParallelTaskScheduler;
  gDefaultTaskScheduler : option SchedId;
  threads : list (list Cmd);
  log : list Event
}.

Definition World_init : World :=
  mkWorld [] [] [] None [[CUser KMain]] [].

Definition set_tasks (ts : list TaskImpl) (w : World) : World :=
  mkWorld ts (contexts w) (schedulers w) (gDefaultTaskScheduler w)
    (threads w) (log w).
Definition set_contexts (cs : list (option DependencyContext)) (w : World) :=
  mkWorld (tasks w) cs (schedulers w) (gDefaultTaskScheduler w)
    (threads w) (log w).
Definition set_schedulers (ss : list ParallelTaskScheduler) (w : World) :=
  mkWorld (tasks w) (contexts w) ss (gDefaultTaskScheduler w)
    (threads w) (log w).
Definition set_default (s : option SchedId) (w : World) :=
  mkWorld (tasks w) (contexts w) (schedulers w) s (threads w) (log w).
Definition set_threads (ths : list (list Cmd)) (w : World) :=
  mkWorld (tasks w) (contexts w) (schedulers w) (gDefaultTaskScheduler w)
    ths (log w).
Definition add_log (e : Event) (w : World) :=
  mkWorld (tasks w) (contexts w) (schedulers w) (gDefaultTaskScheduler w)
    (threads w) (e :: log w).

Definition set_future (f : TaskId) (fut : Future) (w : World) : World :=
  match tasks w !! f with
  | Some T =>
      set_tasks (<[f := mkTaskImpl fut (functor_ T) (scheduler_ T)
                          (isStarted_ T)]> (tasks w)) w
  | None => w
  end.

Definition get_task (t : TaskId) (w : World) : Outcome TaskImpl :=
  deref (tasks w !! t).
Definition get_future (f : TaskId) (w : World) : Outcome Future :=
  let* T := get_task f w in Next (future_ T).
Definition get_scheduler (s : SchedId) (w : World)
  : Outcome ParallelTaskScheduler :=
  deref (schedulers w !! s).

Definition get_context (d : TaskId) (w : World) : Outcome DependencyContext :=
  match contexts w !! d with
  | Some (Some D) => Next D
  | _ => Fail NullPointer
  end.

Definition set_context (d : TaskId) (D : DependencyContext) (w : World) :=
  set_contexts (<[d := Some D]> (contexts w)) w.

Definition set_scheduler (s : SchedId) (S : ParallelTaskScheduler) (w : World) :=
  set_schedulers (<[s := S]> (schedulers w)) w.

(** ** Future<T>: the member functions, on the future of node [f] *)

(** What calling a listener with the value [v] leaves to run. *)
Definition Callback_body (cb : Callback) (v : Val) : Outcome (list Cmd) :=
  match cb with
  | CbUser _ => Next [CUser KListener]
  | CbParent self i parent => Next [CParent self i parent false]
  | CbKeepDeps _ => Next []
  | CbUnwrapOuter proxyTask =>
      match v with
      | VTask innerTask =>
          let* inner := deref innerTask in
          Next [CInvokeOnValueAvailable inner
                  (Some (CbUnwrapInner proxyTask))]
      | _ => Fail IllTyped
      end
  | CbUnwrapInner proxyTask => Next [CSetValue proxyTask v]
  end.

(** [cb(GetValueInternal())].  The closure is destroyed after the call:
    that is the step [IDestroy] of the machine with counts. *)
Definition call (th : ThreadId) (f : TaskId) (cb : Callback) (drain : bool)
    (w : World) : Outcome (World * list Cmd) :=
  let* fut := get_future f w in
  let* v := GetValueInternal fut in
  let* body := Callback_body cb v in
  Next (add_log (EvCall th f cb v drain) w, body).

Definition SetValue (f : TaskId) (v : Val) (w : World)
  : Outcome (World * list Cmd) :=
  let* fut := get_future f w in
  let* fut' := SetValue_locked v fut in
  Next (add_log (EvSetValue f v) (set_future f fut' w),
        [CCallAllValueListener f None]).

Definition CallAllValueListener (th : ThreadId) (f : TaskId)
    (cb : option Callback) (w : World) : Outcome (World * list Cmd) :=
  match cb with
  | None =>
      let* fut := get_future f w in
      match CallAllValueListener_locked fut with
      | (fut', Some cb) =>
          Next (set_future f fut' w, [CCallAllValueListener f (Some cb)])
      | (_, None) => Next (w, [])
      end
  | Some cb =>
      let* (w', body) := call th f cb true w in
      Next (w', body ++ [CCallAllValueListener f None])
  end.

Definition InvokeOnValueAvailable (f : TaskId) (cb : option Callback)
    (w : World) : Outcome (World * list Cmd) :=
  match cb with
  | None => Fail (AssertionFailed A_cb_not_null)
  | Some cb =>
      let* fut := get_future f w in
      match InvokeOnValueAvailable_locked cb fut with
      | (fut', Some callback) =>
          Next (add_log (EvListen f cb true) (set_future f fut' w),
                [CCallback f callback])
      | (fut', None) =>
          Next (add_log (EvListen f cb false) (set_future f fut' w), [])
      end
  end.

Definition Wait (f : TaskId) (w : World) : Outcome (World * list Cmd) :=
  let* fut := get_future f w in
  let* _ := Wait_locked fut in
  Next (w, []).

Definition WaitFor (th : ThreadId) (f : TaskId) (expired : bool) (w : World)
  : Outcome (World * list Cmd) :=
  let* fut := get_future f w in
  let* r := WaitFor_locked expired fut in
  Next (add_log (EvWaitFor th f r) w, []).

Definition GetValue (th : ThreadId) (f : TaskId) (w : World)
  : Outcome (World * list Cmd) :=
  let* fut := get_future f w in
  let* _ := Wait_locked fut in
  let* v := GetValueInternal fut in
  Next (add_log (EvGetValue th f v) w, []).

(** ** ParallelTaskScheduler *)

Definition ParallelTaskScheduler_ctor (numThreads : nat) (w : World)
  : World * SchedId :=
  let s := length (schedulers w) in
  let sch := mkSched (seq (length (threads w)) numThreads) [] 0 true in
  (set_threads (threads w ++ replicate numThreads [CWorkerThreadRoutine s])
     (set_schedulers (schedulers w ++ [sch]) w), s).

Definition Schedule (s : SchedId) (functor : option Closure) (w : World)
  : Outcome (World * list Cmd) :=
  let* sch := get_scheduler s w in
  let sch' := mkSched (workerThreads_ sch) (taskQueue_ sch ++ [functor])
              (taskCount_ sch + 1) (isRunning_ sch) in
  Next (add_log (EvSchedule s functor) (set_scheduler s sch' w), []).

Definition WorkerThreadRoutine (s : SchedId) (w : World)
  : Outcome (World * list Cmd) :=
  let* sch := get_scheduler s w in
  if negb ((0 <? taskCount_ sch)%Z || negb (isRunning_ sch)) then Blocked
  else if negb (isRunning_ sch) && (taskCount_ sch =? 0)%Z then Next (w, [])
  else
    match taskQueue_ sch with
    | [] => Fail NullPointer
    | functor :: q =>
        let sch' := mkSched (workerThreads_ sch) q (taskCount_ sch - 1)
                    (isRunning_ sch) in
        Next (add_log (EvPop s functor) (set_scheduler s sch' w),
              [CFunctor s functor; CWorkerThreadRoutine s])
    end.

Definition Closure_body (cl : Closure) : list Cmd :=
  match cl with
  | ClStart self => [CInvokeFunctor self]
  | ClUser _ => [CUser KCallable]
  end.

Definition Functor_call (s : SchedId) (functor : option Closure) (w : World)
  : Outcome (World * list Cmd) :=
  match functor with
  | None => Fail (AssertionFailed A_functor_not_null)
  | Some cl => Next (w, Closure_body cl ++ [CFunctorReturned s cl])
  end.

Definition Destroy (s : SchedId) (w : World) : Outcome (World * list Cmd) :=
  let* sch := get_scheduler s w in
  let sch' := mkSched (workerThreads_ sch) (taskQueue_ sch) (taskCount_ sch) false in
  Next (add_log (EvDestroy s) (set_scheduler s sch' w),
        [CJoin s (workerThreads_ sch)]).

(** [if (th.joinable()) th.join();] for the workers still to join. *)
Definition Join (s : SchedId) (ths : list ThreadId) (w : World)
  : Outcome (World * list Cmd) :=
  match ths with
  | [] => Next (add_log (EvDestroyed s) w, [])
  | th :: ths' =>
      match threads w !! th with
      | Some [] | None => Next (w, [CJoin s ths'])
      | Some (_ :: _) => Blocked
      end
  end.

(** ** TaskImpl<T> *)

(** [TaskImpl(Functor&&, ITaskScheduler&)]: the constructor without
    parents.  It keeps [&scheduler], the address of what the reference is
    bound to, and does not read the scheduler; [scheduler] is that
    address. *)
Definition TaskImpl_ctor (functor : option nat) (scheduler : option SchedId)
    (w : World) : World * TaskId :=
  let t := length (tasks w) in
  let functor_ := match functor with Some id => FUser id | None => FNull end in
  let T := mkTaskImpl Future_default functor_ scheduler false in
  (add_log (EvTask t [])
     (set_contexts (contexts w ++ [None]) (set_tasks (tasks w ++ [T]) w)), t).

(** The listeners the constructor with parents registers, in the order of
    the parents. *)
Fixpoint subscriptions (self : TaskId) (i : nat) (parentTasks : list TaskId)
  : list Cmd :=
  match parentTasks with
  | [] => []
  | parent :: ps =>
      CInvokeOnValueAvailable parent (Some (CbParent self i parent))
        :: subscriptions self (S i) ps
  end.

(** [TaskImpl(Functor&&, ITaskScheduler&, ParentTasks*...)].  Each listener
    captures [self = RefCntAutoPtr(this)], made when the listener is
    registered: that is [Callback_ctor] in the machine with counts. *)
Definition TaskImpl_ctor_parents (functor : option nat) (scheduler : SchedId)
    (parentTasks : list TaskId) (w : World) : World * TaskId * list Cmd :=
  let t := length (tasks w) in
  let kNumberOfParents := length parentTasks in
  let spDeps := mkDeps (Z.of_nat kNumberOfParents)
                  (replicate kNumberOfParents None) in
  let T := mkTaskImpl Future_default (FDeps t functor) (Some scheduler)
             false in
  (add_log (EvTask t parentTasks)
     (set_contexts (contexts w ++ [Some spDeps])
        (set_tasks (tasks w ++ [T]) w)), t,
   subscriptions t 0 parentTasks).

(** Overload resolution takes the constructor without parents for an empty
    pack. *)
Definition MakeTaskImpl (functor : option nat) (scheduler : SchedId)
    (parentTasks : list TaskId) (w : World) : World * TaskId * list Cmd :=
  match parentTasks with
  | [] => (TaskImpl_ctor functor (Some scheduler) w, [])
  | _ :: _ => TaskImpl_ctor_parents functor scheduler parentTasks w
  end.

(** [assert(!isStarted_); isStarted_ = true;], by a thread that is alone
    on the node, as the constructor of a handle is.  For [Start()], which
    threads can call at the same time, the machine with counts has the two
    halves [Start_assert] and [Start_schedule]. *)
Definition MarkAsStarted (t : TaskId) (w : World) : Outcome World :=
  let* T := get_task t w in
  let* _ := assert A_not_started (negb (isStarted_ T)) in
  Next (set_tasks (<[t := mkTaskImpl (future_ T) (functor_ T) (scheduler_ T)
                            true]> (tasks w)) w).

Definition Start (t : TaskId) (w : World) : Outcome (World * list Cmd) :=
  let* w1 := MarkAsStarted t w in
  let* T := get_task t w1 in
  let* s := deref (scheduler_ T) in
  Next (add_log (EvStart t) w1, [CSchedule s (Some (ClStart t))]).

(** [self->functor_()] in the lambda of [Start]; the thunk of a composite
    reads [deps->dependencies] and hands the handles to the producer. *)
Definition InvokeFunctor (self : TaskId) (w : World)
  : Outcome (World * list Cmd) :=
  let* T := get_task self w in
  match functor_ T with
  | FNull => Fail BadFunctionCall
  | FUser _ => Next (add_log (EvProducer self []) w, [CUser (KProducer self)])
  | FDeps deps functor =>
      let* D := get_context deps w in
      let* _ := match functor with
                | Some _ => Next tt
                | None => Fail BadFunctionCall
                end in
      Next (add_log (EvProducer self (dependencies D)) w,
            [CUser (KProducer self)])
  end.

(** The body of the listener on a parent. *)
Definition Parent (self : TaskId) (i : nat) (parent : TaskId) (stored : bool)
    (w : World) : Outcome (World * list Cmd) :=
  let* D := get_context self w in
  if stored then
    let n := (pendingDependencyCount D - 1)%Z in
    let w' := set_context self (mkDeps n (dependencies D)) w in
    if (n =? 0)%Z then
      Next (add_log (EvZero self i) w',
            [CInvokeOnValueAvailable self (Some (CbKeepDeps self));
             CStart self])
    else Next (w', [])
  else
    Next (set_context self
            (mkDeps (pendingDependencyCount D)
               (<[i := Some parent]> (dependencies D))) w,
          [CParent self i parent true]).

(** ** Task<T> and the free functions *)

(** [scheduler = gDefaultTaskScheduler; assert(scheduler != nullptr)] when
    the argument is null. *)
Definition or_default (scheduler : option SchedId) (w : World)
  : Outcome SchedId :=
  match scheduler with
  | Some s => Next s
  | None =>
      let* _ := assert A_scheduler_not_null
                  (bool_decide (is_Some (gDefaultTaskScheduler w))) in
      deref (gDefaultTaskScheduler w)
  end.

(** A reference to a scheduler refers to a scheduler. *)
Definition scheduler_ref (s : SchedId) (w : World) : Outcome unit :=
  let* _ := get_scheduler s w in Next tt.

(** [Task(Functor&&, ITaskScheduler&, const ParentTasks&...)], the functor
    being a callable. *)
Definition Task_ctor (functor : option nat) (scheduler : SchedId)
    (parentTasks : list TaskId) (w : World)
  : Outcome (World * TaskId * list Cmd) :=
  let* _ := scheduler_ref scheduler w in
  Next (MakeTaskImpl functor scheduler parentTasks w).

(** The same constructor, the functor being a value of the value type.
    [scheduler] is the address of what the reference is bound to: null when
    the caller wrote [*scheduler] with a null pointer, which the constructor
    does not notice, since it only takes the address again. *)
Definition Task_ctor_value (v : Val) (scheduler : option SchedId) (w : World)
  : Outcome (World * TaskId * list Cmd) :=
  let* _ := match scheduler with
            | Some s => scheduler_ref s w
            | None => Next tt
            end in
  let (w1, t) := TaskImpl_ctor None scheduler w in
  let* w2 := MarkAsStarted t w1 in
  let* (w3, cmds) := SetValue t v w2 in
  Next (w3, t, cmds).

Definition MakeTask (functor : option nat) (scheduler : option SchedId)
    (parentTasks : list TaskId) (w : World)
  : Outcome (World * TaskId * list Cmd) :=
  let* s := or_default scheduler w in
  Task_ctor functor s parentTasks w.

Definition MakeTaskAndStart (functor : option nat)
    (scheduler : option SchedId) (w : World)
  : Outcome (World * TaskId * list Cmd) :=
  let* s := or_default scheduler w in
  let* (w1, t, cmds) := MakeTask functor (Some s) [] w in
  Next (w1, t, cmds ++ [CStart t]).

(** [Task<...> task(std::forward<ValueType>(value), *scheduler)]: the
    pointer is not tested and there is no fall back to the default
    scheduler. *)
Definition MakeTaskFromValue (v : Val) (scheduler : option SchedId) (w : World)
  : Outcome (World * TaskId * list Cmd) :=
  Task_ctor_value v scheduler w.

Definition GetScheduler (t : TaskId) (w : World) : Outcome (option SchedId) :=
  let* T := get_task t w in Next (scheduler_ T).

Definition Then (t : TaskId) (functor : option nat)
    (scheduler : option SchedId) (w : World)
  : Outcome (World * TaskId * list Cmd) :=
  let* scheduler :=
    match scheduler with
    | None => GetScheduler t w
    | Some s => Next (Some s)
    end in
  MakeTask functor scheduler [t] w.

Definition Unwrap (t : TaskId) (scheduler : option SchedId) (w : World)
  : Outcome (World * TaskId * list Cmd) :=
  let* s := or_default scheduler w in
  let* (w1, proxyTask, _) := Task_ctor None s [] w in
  let* w2 := MarkAsStarted proxyTask w1 in
  let* _ := get_task t w2 in
  Next (add_log (EvUnwrap t proxyTask) w2, proxyTask,
        [CInvokeOnValueAvailable t (Some (CbUnwrapOuter proxyTask))]).

(** [Unwrap()] *)
Definition Unwrap0 (t : TaskId) (w : World)
  : Outcome (World * TaskId * list Cmd) :=
  let* scheduler := GetScheduler t w in
  Unwrap t scheduler w.

(** ** The machine *)

Definition drop_handle (r : Outcome (World * TaskId * list Cmd))
  : Outcome (World * list Cmd) :=
  let* (w, _, cmds) := r in Next (w, cmds).

Definition call_api (th : ThreadId) (c : ApiCall) (w : World)
  : Outcome (World * list Cmd) :=
  match c with
  | ApiParallelTaskScheduler numThreads =>
      let* _ := assert A_numThreads (0 <? numThreads) in
      Next ((ParallelTaskScheduler_ctor numThreads w).1, [])
  | ApiParallelTaskScheduler0 hardware_concurrency =>
      Next ((ParallelTaskScheduler_ctor hardware_concurrency w).1, [])
  | ApiDestroy s =>
      let* _ := get_scheduler s w in Next (w, [CDestroy s])
  | ApiSchedule s functor =>
      let* _ := get_scheduler s w in
      Next (w, [CSchedule s (ClUser <$> functor)])
  | ApiSetDefaultTaskScheduler s => Next (set_default s w, [])
  | ApiTask functor scheduler parentTasks =>
      drop_handle (Task_ctor functor scheduler parentTasks w)
  | ApiTaskValue v scheduler =>
      drop_handle (Task_ctor_value v (Some scheduler) w)
  | ApiMakeTask functor scheduler parentTasks =>
      drop_handle (MakeTask functor scheduler parentTasks w)
  | ApiMakeTaskAndStart functor scheduler =>
      drop_handle (MakeTaskAndStart functor scheduler w)
  | ApiMakeTaskFromValue v scheduler =>
      drop_handle (MakeTaskFromValue v scheduler w)
  | ApiStart t => let* _ := get_task t w in Next (w, [CStart t])
  | ApiThen t functor scheduler => drop_handle (Then t functor scheduler w)
  | ApiUnwrap t scheduler => drop_handle (Unwrap t scheduler w)
  | ApiUnwrap0 t => drop_handle (Unwrap0 t w)
  | ApiInvokeOnValueAvailable t cb =>
      let* _ := get_task t w in
      Next (w, [CInvokeOnValueAvailable t (CbUser <$> cb)])
  | ApiWait t => let* _ := get_task t w in Next (w, [CWait t])
  | ApiWaitFor t => let* _ := get_task t w in Next (w, [CWaitFor t])
  | ApiGetValue t => let* _ := get_task t w in Next (w, [CGetValue t])
  | ApiThread => Next (set_threads (threads w ++ [[CUser KMain]]) w, [])
  end.

(** What runs after user code returns [v]. *)
Definition User_return (k : Kont) (v : Val) : list Cmd :=
  match k with
  | KProducer self => [CSetValue self v]
  | KMain | KListener | KCallable => []
  end.

(** What is chosen from outside at a step: a move of user code, or whether
    the time of a [WaitFor] is over. *)
Inductive Choice :=
| Tick
| TimerExpired
| UCall (c : ApiCall)
| UReturn (v : Val).

Definition step_cmd (th : ThreadId) (c : Cmd) (ch : Choice) (w : World)
  : Outcome (World * list Cmd) :=
  match c with
  | CUser k =>
      match ch with
      | UCall a =>
          let* (w', cmds) := call_api th a w in Next (w', cmds ++ [CUser k])
      | UReturn v => Next (w, User_return k v)
      | _ => Blocked
      end
  | CSetValue f v => SetValue f v w
  | CCallAllValueListener f cb => CallAllValueListener th f cb w
  | CInvokeOnValueAvailable f cb => InvokeOnValueAvailable f cb w
  | CCallback f callback => call th f callback false w
  | CParent self i parent stored => Parent self i parent stored w
  | CStart t => Start t w
  | CSchedule s functor => Schedule s functor w
  | CInvokeFunctor self => InvokeFunctor self w
  | CWorkerThreadRoutine s => WorkerThreadRoutine s w
  | CFunctor s functor => Functor_call s functor w
  | CFunctorReturned s functor => Next (add_log (EvDone s functor) w, [])
  | CDestroy s => Destroy s w
  | CJoin s ths => Join s ths w
  | CWait f => Wait f w
  | CWaitFor f =>
      WaitFor th f (match ch with TimerExpired => true | _ => false end) w
  | CGetValue f => GetValue th f w
  end.

(** One step: thread [a.1] runs its first command. *)
Definition exec (a : ThreadId * Choice) (w : World) : Outcome World :=
  match threads w !! a.1 with
  | Some (c :: k) =>
      let* (w', cmds) := step_cmd a.1 c a.2 w in
      Next (set_threads (<[a.1 := cmds ++ k]> (threads w')) w')
  | _ => Blocked
  end.

Fixpoint run (sched : list (ThreadId * Choice)) (w : World) : Outcome World :=
  match sched with
  | [] => Next w
  | a :: sched' => let* w' := exec a w in run sched' w'
  end.

(** ** Runs *)

(** The states the machine reaches from [World_init] by steps that [ok]
    allows. *)
Inductive reachable (ok : World -> ThreadId * Choice -> bool) : World -> Prop :=
| reachable_init : reachable ok World_init
| reachable_step w a w' :
    reachable ok w -> ok w a = true -> exec a w = Next w' ->
    reachable ok w'.

Definition any_step (w : World) (a : ThreadId * Choice) : bool := true.

Definition has_parents (t : TaskId) (w : World) : bool :=
  match contexts w !! t with
  | Some (Some _) => true
  | _ => false
  end.

(** The contract of the library on [Start]: the client starts no node that
    has parents. *)
Definition no_manual_start (w : World) (a : ThreadId * Choice) : bool :=
  match a.2 with
  | UCall (ApiStart t) => negb (has_parents t w)
  | _ => true
  end.

Definition value_of (f : TaskId) (w : World) : option Val :=
  T ← tasks w !! f; value_ (future_ T).

Definition queue_of (f : TaskId) (w : World) : list Callback :=
  match tasks w !! f with
  | Some T => onValueAvailable_ (future_ T)
  | None => []
  end.

Definition started (t : TaskId) (w : World) : bool :=
  match tasks w !! t with
  | Some T => isStarted_ T
  | None => false
  end.

Definition IsReady (f : TaskId) (w : World) : bool :=
  bool_decide (is_Some (value_of f w)).

(** The run [sched] in which every step is allowed by [ok]. *)
Fixpoint run_ok (ok : World -> ThreadId * Choice -> bool)
    (sched : list (ThreadId * Choice)) (w : World) : Outcome World :=
  match sched with
  | [] => Next w
  | a :: sched' =>
      if ok w a then let* w' := exec a w in run_ok ok sched' w' else Blocked
  end.

(** The shape of the store.  The scheduler of a node is null only for a
    node that [MakeTaskFromValue] made with a null pointer; such a node has
    no producer and is marked as started. *)
Record wf (w : World) : Prop := {
  wf_contexts : length (contexts w) = length (tasks w);
  wf_scheduler : forall t T, tasks w !! t = Some T ->
    match scheduler_ T with
    | Some s => s < length (schedulers w)
    | None =>
        functor_ T = FNull /\ isStarted_ T = true /\
        value_ (future_ T) <> None
    end
}.


(** A small run used to try the statements on: a pool of two workers
    (threads 1 and 2), the leaves 0 and 1, and node 2 with the parents 0
    and 1; nothing is started. *)
Definition demo_sched : list (ThreadId * Choice) :=
  [ (0, UCall (ApiParallelTaskScheduler 2));
    (0, UCall (ApiTask (Some 1) 0 []));
    (0, UCall (ApiTask (Some 2) 0 []));
    (0, UCall (ApiTask (Some 3) 0 [0; 1]));
    (0, Tick); (0, Tick) ].

Definition world_of (r : Outcome World) : World :=
  match r with
  | Next w => w
  | _ => World_init
  end.

Definition demo_world : World := world_of (run demo_sched World_init).

(** A run in which the default scheduler is the pool 0 and node 1 is made
    by [MakeTaskFromValue] with a null pointer, from a handle of the
    leaf 0. *)
Definition null_sched : list (ThreadId * Choice) :=
  [ (0, UCall (ApiParallelTaskScheduler 1));
    (0, UCall (ApiTask (Some 1) 0 []));
    (0, UCall (ApiSetDefaultTaskScheduler (Some 0)));
    (0, UCall (ApiMakeTaskFromValue (VTask (Some 0)) None));
    (0, Tick) ].

Definition null_world : World := world_of (run null_sched World_init).

(** ** Counting *)

(** The sum of the weights [g] of the elements of [l]. *)
Fixpoint total {A} (g : A -> nat) (l : list A) : nat :=
  match l with
  | [] => 0
  | x :: l' => g x + total g l'
  end.

Definition is_SetValue (f : TaskId) (e : Event) : nat :=
  match e with
  | EvSetValue f' _ => if decide (f' = f) then 1 else 0
  | _ => 0
  end.

(** A run in which a leaf is started and produces 7 on the only worker
    (thread 1) of a pool. *)
Definition leaf_sched : list (ThreadId * Choice) :=
  [ (0, UCall (ApiParallelTaskScheduler 1));
    (0, UCall (ApiTask (Some 1) 0 []));
    (0, UCall (ApiStart 0)); (0, Tick); (0, Tick);
    (1, Tick); (1, Tick); (1, Tick); (1, UReturn (VInt 7));
    (1, Tick); (1, Tick); (1, Tick) ].

Definition leaf_world : World := world_of (run leaf_sched World_init).

(** The same run with the listener 9 on the leaf, up to the state in which
    the worker has stored the value and is about to call the listeners. *)
Definition listen_sched : list (ThreadId * Choice) :=
  [ (0, UCall (ApiParallelTaskScheduler 1));
    (0, UCall (ApiTask (Some 1) 0 []));
    (0, UCall (ApiInvokeOnValueAvailable 0 (Some 9))); (0, Tick);
    (0, UCall (ApiStart 0)); (0, Tick); (0, Tick);
    (1, Tick); (1, Tick); (1, Tick); (1, UReturn (VInt 1)); (1, Tick) ].

Definition listen_world : World := world_of (run listen_sched World_init).

(** The steps of a thread that is at the head of the loop of
    [CallAllValueListener] with [n] listeners of the client in the queue:
    it takes a listener, calls it, the listener returns; at the end it
    finds the queue empty. *)
Fixpoint call_all_sched (th : ThreadId) (n : nat) : list (ThreadId * Choice) :=
  match n with
  | 0 => [(th, Tick)]
  | S n' =>
      (th, Tick) :: (th, Tick) :: (th, UReturn VVoid) :: call_all_sched th n'
  end.

(** Sums over the commands the threads still have to run, over the
    listeners in the queues of the futures, and over the callables in the
    queues of the pools. *)
Definition in_threads (g : Cmd -> nat) (w : World) : nat :=
  total (total g) (threads w).

Definition in_queues (g : Callback -> nat) (w : World) : nat :=
  total (fun T => total g (onValueAvailable_ (future_ T))) (tasks w).

Definition in_pools (g : option Closure -> nat) (w : World) : nat :=
  total (fun sch => total g (taskQueue_ sch)) (schedulers w).

(** The threads a step can start. *)
Definition fresh_thread (st : list Cmd) : Prop :=
  st = [CUser KMain] \/ exists s, st = [CWorkerThreadRoutine s].

(** The loop of [CallAllValueListener] on future [f]; the call of a
    listener of [f] from [InvokeOnValueAvailable]. *)
Definition drain_cmd (f : TaskId) (c : Cmd) : nat :=
  match c with
  | CCallAllValueListener f' _ => if decide (f' = f) then 1 else 0
  | _ => 0
  end.

Definition callback_cmd (f : TaskId) (c : Cmd) : nat :=
  match c with
  | CCallback f' _ => if decide (f' = f) then 1 else 0
  | _ => 0
  end.

(** An empty future is read by nobody; a future is drained by one thread
    at most, and by one as long as it is Ready with listeners in its
    queue. *)
Record drain_inv (w : World) : Prop := {
  drain_empty : forall f, value_of f w = None ->
    in_threads (drain_cmd f) w = 0 /\ in_threads (callback_cmd f) w = 0;
  drain_le : forall f, in_threads (drain_cmd f) w <= 1;
  drain_queue : forall f, value_of f w <> None -> queue_of f w <> [] ->
    in_threads (drain_cmd f) w = 1
}.

(** ** The listeners of a future, in the history *)

(** The listeners [InvokeOnValueAvailable] pushed on the queue of [f], and
    the listeners [CallAllValueListener] called, oldest first. *)
Fixpoint enqueued (f : TaskId) (l : list Event) : list Callback :=
  match l with
  | [] => []
  | e :: l' =>
      enqueued f l' ++
      match e with
      | EvListen f' cb false => if decide (f' = f) then [cb] else []
      | _ => []
      end
  end.

Fixpoint drained (f : TaskId) (l : list Event) : list Callback :=
  match l with
  | [] => []
  | e :: l' =>
      drained f l' ++
      match e with
      | EvCall _ f' cb _ true => if decide (f' = f) then [cb] else []
      | _ => []
      end
  end.

(** The listener the loop of [CallAllValueListener] on [f] has popped and
    not called yet. *)
Definition inflight_cmd (f : TaskId) (c : Cmd) : list Callback :=
  match c with
  | CCallAllValueListener f' (Some cb) => if decide (f' = f) then [cb] else []
  | _ => []
  end.

Definition flat_threads {A} (g : Cmd -> list A) (w : World) : list A :=
  flat_map (flat_map g) (threads w).

Definition inflight (f : TaskId) (w : World) : list Callback :=
  flat_threads (inflight_cmd f) w.

(** Registrations of [cb] on [f] that found [f] Ready, calls of [cb] that
    [InvokeOnValueAvailable] made, and such calls still to make. *)
Definition is_ready_listen (f : TaskId) (cb : Callback) (e : Event) : nat :=
  match e with
  | EvListen f' cb' true => if decide (f' = f /\ cb' = cb) then 1 else 0
  | _ => 0
  end.

Definition is_direct_call (f : TaskId) (cb : Callback) (e : Event) : nat :=
  match e with
  | EvCall _ f' cb' _ false => if decide (f' = f /\ cb' = cb) then 1 else 0
  | _ => 0
  end.

Definition direct_cmd (f : TaskId) (cb : Callback) (c : Cmd) : nat :=
  match c with
  | CCallback f' cb' => if decide (f' = f /\ cb' = cb) then 1 else 0
  | _ => 0
  end.

(** What holds of the listeners of every future [f]. *)
Record listen_inv (w : World) : Prop := {
  listen_fifo : forall f,
    enqueued f (log w) = drained f (log w) ++ inflight f w ++ queue_of f w;
  listen_direct : forall f cb,
    total (is_ready_listen f cb) (log w)
    = total (is_direct_call f cb) (log w) + in_threads (direct_cmd f cb) w;
  listen_value : forall th f cb v d,
    In (EvCall th f cb v d) (log w) -> value_of f w = Some v
}.

(** The loop of [CallAllValueListener] on [f], at its head. *)
Definition head_cmd (f : TaskId) (c : Cmd) : nat :=
  match c with
  | CCallAllValueListener f' None => if decide (f' = f) then 1 else 0
  | _ => 0
  end.

(** A run of a node with two parents on a pool of two workers (threads 1
    and 2): the leaves 0 and 1 produce 1 and 5, node 2 produces 7; the
    listener 9 is put on node 2 before it is Ready, the listener 10
    after. *)
Definition ticks (th n : nat) : list (ThreadId * Choice) :=
  replicate n (th, Tick).

Definition fanin_start : list (ThreadId * Choice) :=
  [ (0, UCall (ApiParallelTaskScheduler 2));
    (0, UCall (ApiTask (Some 1) 0 []));
    (0, UCall (ApiTask (Some 2) 0 []));
    (0, UCall (ApiTask (Some 3) 0 [0; 1])) ] ++ ticks 0 2 ++
  [ (0, UCall (ApiInvokeOnValueAvailable 2 (Some 9))); (0, Tick);
    (0, UCall (ApiStart 0)) ] ++ ticks 0 2 ++
  [ (0, UCall (ApiStart 1)) ] ++ ticks 0 2 ++
  ticks 1 3 ++ [ (1, UReturn (VInt 1)) ] ++ ticks 1 7 ++
  ticks 2 3 ++ [ (2, UReturn (VInt 5)) ] ++ ticks 2 10 ++
  ticks 1 2.

Definition fanin_finish : list (ThreadId * Choice) :=
  [ (1, Tick); (1, UReturn (VInt 7)) ] ++ ticks 1 3 ++
  [ (1, UReturn VVoid) ] ++ ticks 1 4 ++
  [ (0, UCall (ApiInvokeOnValueAvailable 2 (Some 10))) ] ++ ticks 0 2 ++
  [ (0, UReturn VVoid) ].

(** The state in which thread 1 is about to call the producer of node 2,
    and the state at the end. *)
Definition fanin_mid : World := world_of (run fanin_start World_init).
Definition fanin_world : World := world_of (run fanin_finish fanin_mid).

(** ** Starting a node *)

Definition is_Start (t : TaskId) (e : Event) : nat :=
  match e with
  | EvStart t' => if decide (t' = t) then 1 else 0
  | _ => 0
  end.

Definition is_Schedule (t : TaskId) (e : Event) : nat :=
  match e with
  | EvSchedule _ (Some (ClStart t')) => if decide (t' = t) then 1 else 0
  | _ => 0
  end.

Definition is_Producer (t : TaskId) (e : Event) : nat :=
  match e with
  | EvProducer t' _ => if decide (t' = t) then 1 else 0
  | _ => 0
  end.

Definition is_Zero (t : TaskId) (e : Event) : nat :=
  match e with
  | EvZero t' _ => if decide (t' = t) then 1 else 0
  | _ => 0
  end.

(** [Start()] on [t] is called and has not run yet; the lambda of
    [Start()] on [t] is about to be handed to the scheduler; it was taken
    from the queue and has not called the producer yet. *)
Definition start_cmd (t : TaskId) (c : Cmd) : nat :=
  match c with
  | CStart t' => if decide (t' = t) then 1 else 0
  | _ => 0
  end.

Definition sched_cmd (t : TaskId) (c : Cmd) : nat :=
  match c with
  | CSchedule _ (Some (ClStart t')) => if decide (t' = t) then 1 else 0
  | _ => 0
  end.

Definition run_cmd (t : TaskId) (c : Cmd) : nat :=
  match c with
  | CFunctor _ (Some (ClStart t')) | CInvokeFunctor t' =>
      if decide (t' = t) then 1 else 0
  | _ => 0
  end.

Definition run_cl (t : TaskId) (cl : option Closure) : nat :=
  match cl with
  | Some (ClStart t') => if decide (t' = t) then 1 else 0
  | _ => 0
  end.

Definition flag (b : bool) : nat := if b then 1 else 0.

(** Whatever the client does: [Start()] got past its assertion on a node at
    most once, each such [Start()] hands the node to the scheduler once,
    and what was handed over is in a queue, held by a worker, or has called
    the producer. *)
Record start_inv (w : World) : Prop := {
  start_flag : forall t, total (is_Start t) (log w) <= flag (started t w);
  start_sched : forall t,
    total (is_Schedule t) (log w) + in_threads (sched_cmd t) w
    = total (is_Start t) (log w);
  start_run : forall t,
    in_pools (run_cl t) w + in_threads (run_cmd t) w
    + total (is_Producer t) (log w)
    = total (is_Schedule t) (log w);
  start_alloc : forall t, length (tasks w) <= t ->
    in_threads (start_cmd t) w = 0
}.

(** ** The listeners of a node on its parents *)

Definition parent_cb (t : TaskId) (cb : Callback) : nat :=
  match cb with
  | CbParent self _ _ => if decide (self = t) then 1 else 0
  | _ => 0
  end.

(** A listener of [t] on a parent that is about to be registered, or called,
    or that runs and has not decremented the count yet. *)
Definition parent_cmd (t : TaskId) (c : Cmd) : nat :=
  match c with
  | CInvokeOnValueAvailable _ (Some cb)
  | CCallAllValueListener _ (Some cb)
  | CCallback _ cb => parent_cb t cb
  | CParent self _ _ _ => if decide (self = t) then 1 else 0
  | _ => 0
  end.

(** The listeners of [t] on its parents that have not decremented the
    count yet. *)
Definition pend (t : TaskId) (w : World) : nat :=
  in_queues (parent_cb t) w + in_threads (parent_cmd t) w.

Definition count_of (t : TaskId) (w : World) : Z :=
  match contexts w !! t with
  | Some (Some D) => pendingDependencyCount D
  | _ => 0%Z
  end.

(** [pendingDependencyCount] counts the listeners that have not decremented
    it, and one listener saw it reach zero when none is left. *)
Record deps_inv (w : World) : Prop := {
  deps_count : forall t, Z.of_nat (pend t w) = count_of t w;
  deps_zero : forall t,
    match contexts w !! t with
    | Some (Some _) =>
        (pend t w = 0 /\ total (is_Zero t) (log w) = 1) \/
        (pend t w <> 0 /\ total (is_Zero t) (log w) = 0)
    | _ => total (is_Zero t) (log w) = 0
    end
}.




(** ** The parents of a composite node *)

(** The command [c] is among those a thread has still to run. *)
Definition in_thread (c : Cmd) (w : World) : Prop :=
  exists th st, threads w !! th = Some st /\ In c st.




(** [deps->dependencies[i]] of node [t]. *)
Definition slot_of (t : TaskId) (i : nat) (w : World)
  : option (option TaskId) :=
  match contexts w !! t with
  | Some (Some D) => dependencies D !! i
  | _ => None
  end.

(** Where the listener of [t] on its [i]-th parent [p] is: in the queue of
    [p]; about to be registered; taken from the queue, or about to be called
    at once; running, before it stores the handle; or it has stored the
    handle, which it does when [p] is Ready. *)
Definition stage (t : TaskId) (i : nat) (p : TaskId) (w : World) : Prop :=
  In (CbParent t i p) (queue_of p w) \/
  in_thread (CInvokeOnValueAvailable p (Some (CbParent t i p))) w \/
  in_thread (CCallAllValueListener p (Some (CbParent t i p))) w \/
  in_thread (CCallback p (CbParent t i p)) w \/
  in_thread (CParent t i p false) w \/
  (IsReady p w = true /\ slot_of t i w = Some (Some p)).



(** ** The pool and its destructor *)

(** The callables handed to pool [s], and the callables its workers took
    from the queue, oldest first. *)
Fixpoint submitted (s : SchedId) (l : list Event) : list (option Closure) :=
  match l with
  | [] => []
  | e :: l' =>
      submitted s l' ++
      match e with
      | EvSchedule s' functor => if decide (s' = s) then [functor] else []
      | _ => []
      end
  end.

Fixpoint popped (s : SchedId) (l : list Event) : list (option Closure) :=
  match l with
  | [] => []
  | e :: l' =>
      popped s l' ++
      match e with
      | EvPop s' functor => if decide (s' = s) then [functor] else []
      | _ => []
      end
  end.

(** The destructor of pool [s] has cleared [isRunning_]. *)
Fixpoint begun (s : SchedId) (l : list Event) : bool :=
  match l with
  | [] => false
  | e :: l' =>
      match e with
      | EvDestroy s' => bool_decide (s' = s) || begun s l'
      | _ => begun s l'
      end
  end.

(** The callables handed to pool [s] before its destructor began. *)
Fixpoint early (s : SchedId) (l : list Event) : list (option Closure) :=
  match l with
  | [] => []
  | e :: l' =>
      early s l' ++
      match e with
      | EvSchedule s' functor =>
          if decide (s' = s) then if begun s l' then [] else [functor]
          else []
      | _ => []
      end
  end.

Definition is_pop (s : SchedId) (f : option Closure) (e : Event) : nat :=
  match e with
  | EvPop s' f' => if decide (s' = s /\ f' = f) then 1 else 0
  | _ => 0
  end.

Definition is_done (s : SchedId) (f : option Closure) (e : Event) : nat :=
  match e with
  | EvDone s' cl => if decide (s' = s /\ Some cl = f) then 1 else 0
  | _ => 0
  end.

(** A worker of pool [s] holds the callable [f]: it is about to call it, or
    the call has not returned yet. *)
Definition running_cmd (s : SchedId) (f : option Closure) (c : Cmd) : nat :=
  match c with
  | CFunctor s' f' => if decide (s' = s /\ f' = f) then 1 else 0
  | CFunctorReturned s' cl => if decide (s' = s /\ Some cl = f) then 1 else 0
  | _ => 0
  end.

(** The pool whose worker runs the command. *)
Definition owner (c : Cmd) : option SchedId :=
  match c with
  | CWorkerThreadRoutine s | CFunctor s _ | CFunctorReturned s _ => Some s
  | _ => None
  end.

Definition workers_of (s : SchedId) (w : World) : list ThreadId :=
  match schedulers w !! s with
  | Some sch => workerThreads_ sch
  | None => []
  end.

(** The thread has returned from its routine. *)
Definition exited (th : ThreadId) (w : World) : Prop :=
  threads w !! th = Some [].

(** The destructor of pool [s] is about to return, or has returned. *)
Definition destroyed (s : SchedId) (w : World) : Prop :=
  in_thread (CJoin s []) w \/ In (EvDestroyed s) (log w).

(** The count of a pool is the length of its queue, the pool is running
    until its destructor begins, the queue holds the callables handed over
    and not taken yet, and the workers are threads. *)
Definition queue_ok (w : World) (s : SchedId) (sch : ParallelTaskScheduler)
  : Prop :=
  taskCount_ sch = Z.of_nat (length (taskQueue_ sch)) /\
  isRunning_ sch = negb (begun s (log w)) /\
  submitted s (log w) = popped s (log w) ++ taskQueue_ sch /\
  Forall (fun th => th < length (threads w)) (workerThreads_ sch).

Definition none_ok (w : World) (s : SchedId) : Prop :=
  submitted s (log w) = [] /\ popped s (log w) = [] /\
  begun s (log w) = false.

Record pool_inv (w : World) : Prop := {
  pool_queue : forall s sch, schedulers w !! s = Some sch -> queue_ok w s sch;
  pool_none : forall s, length (schedulers w) <= s -> none_ok w s;
  pool_running : forall s f,
    total (is_pop s f) (log w)
    = total (is_done s f) (log w) + in_threads (running_cmd s f) w;
  pool_owner : forall th st c s,
    threads w !! th = Some st -> In c st -> owner c = Some s ->
    In th (workers_of s w);
  pool_last : forall s th st,
    In th (workers_of s w) -> threads w !! th = Some st ->
    st = [] \/ last st = Some (CWorkerThreadRoutine s);
  pool_exited : forall s th,
    In th (workers_of s w) -> exited th w ->
    begun s (log w) = true /\
    length (early s (log w)) <= length (popped s (log w));
  pool_join : forall s ths,
    in_thread (CJoin s ths) w ->
    s < length (schedulers w) /\
    forall th, In th (workers_of s w) -> In th ths \/ exited th w;
  pool_destroyed : forall s,
    In (EvDestroyed s) (log w) ->
    s < length (schedulers w) /\
    forall th, In th (workers_of s w) -> exited th w
}.

(** A pool without workers: the default constructor where
    [std::thread::hardware_concurrency()] is 0; a callable is handed to it
    and the pool is destroyed. *)
Definition idle_sched : list (ThreadId * Choice) :=
  [ (0, UCall (ApiParallelTaskScheduler0 0));
    (0, UCall (ApiSchedule 0 (Some 1))); (0, Tick);
    (0, UCall (ApiDestroy 0)); (0, Tick); (0, Tick) ].

Definition idle_world : World := world_of (run idle_sched World_init).

(** The same with the constructor that takes the number of threads, here
    1: the worker is thread 1. *)
Definition drain_sched : list (ThreadId * Choice) :=
  [ (0, UCall (ApiParallelTaskScheduler 1));
    (0, UCall (ApiSchedule 0 (Some 1))); (0, Tick);
    (0, UCall (ApiDestroy 0)); (0, Tick);
    (1, Tick); (1, Tick); (1, UReturn VVoid); (1, Tick); (1, Tick);
    (0, Tick); (0, Tick) ].

Definition drain_world : World := world_of (run drain_sched World_init).

(** ** The proxy of Unwrap *)

(** The listener [cb] on the future of [f] is registered, or about to be
    registered or called. *)
Definition pending_listener (f : TaskId) (cb : Callback) (w : World) : Prop :=
  in_thread (CInvokeOnValueAvailable f (Some cb)) w \/
  In cb (queue_of f w) \/
  in_thread (CCallAllValueListener f (Some cb)) w \/
  in_thread (CCallback f cb) w.

(** Where the value of the proxy [P] of [X.Unwrap()] is on its way: the
    outer listener waits for [X]; [X] holds the inner task [Y] and the inner
    listener waits for [Y]; [Y] holds [v] and [SetValue(v)] on the proxy is
    about to run, or has run. *)
Definition unwrap_stage (X P : TaskId) (w : World) : Prop :=
  pending_listener X (CbUnwrapOuter P) w \/
  exists Y, value_of X w = Some (VTask (Some Y)) /\
    (pending_listener Y (CbUnwrapInner P) w \/
     exists v, value_of Y w = Some v /\
       (in_thread (CSetValue P v) w \/ value_of P w = Some v)).

(** The outer listener of a proxy is a listener on the task that was
    unwrapped, the inner listener one on the task that task holds. *)
Definition ucb_ok (w : World) (f : TaskId) (cb : Callback) : Prop :=
  match cb with
  | CbUnwrapOuter P => In (EvUnwrap f P) (log w)
  | CbUnwrapInner P =>
      P < length (tasks w) /\
      forall X, In (EvUnwrap X P) (log w) ->
        value_of X w = Some (VTask (Some f))
  | _ => True
  end.

Definition ucmd_ok (w : World) (c : Cmd) : Prop :=
  match c with
  | CInvokeOnValueAvailable f (Some cb)
  | CCallAllValueListener f (Some cb)
  | CCallback f cb => ucb_ok w f cb
  | CSetValue P v =>
      P < length (tasks w) /\
      forall X, In (EvUnwrap X P) (log w) ->
        exists Y, value_of X w = Some (VTask (Some Y)) /\
                  value_of Y w = Some v
  | CUser (KProducer t) =>
      t < length (tasks w) /\ forall X, ~ In (EvUnwrap X t) (log w)
  | _ => True
  end.

Record unwrap_inv (w : World) : Prop := {
  unwrap_queue : forall f cb, In cb (queue_of f w) -> ucb_ok w f cb;
  unwrap_cmd : forall c, in_thread c w -> ucmd_ok w c;
  unwrap_proxy : forall X P, In (EvUnwrap X P) (log w) ->
    (forall X', In (EvUnwrap X' P) (log w) -> X' = X) /\
    total (is_Start P) (log w) = 0 /\
    exists T, tasks w !! P = Some T /\
      functor_ T = FNull /\ isStarted_ T = true;
  unwrap_value : forall X P v, In (EvUnwrap X P) (log w) ->
    value_of P w = Some v ->
    exists Y, value_of X w = Some (VTask (Some Y)) /\ value_of Y w = Some v;
  unwrap_stages : forall X P, In (EvUnwrap X P) (log w) -> unwrap_stage X P w
}.

(** A run of [Unwrap]: node 1 is the proxy of [0.Unwrap()]; the producer of
    node 0 makes and starts the inner node 2 and returns its handle; the
    inner node returns 42. *)
Definition unwrap_sched : list (ThreadId * Choice) :=
  [ (0, UCall (ApiParallelTaskScheduler 1));
    (0, UCall (ApiSetDefaultTaskScheduler (Some 0)));
    (0, UCall (ApiMakeTaskAndStart (Some 1) None)) ] ++ ticks 0 2 ++
  [ (0, UCall (ApiUnwrap0 0)); (0, Tick) ] ++
  ticks 1 3 ++
  [ (1, UCall (ApiMakeTaskAndStart (Some 2) None)) ] ++ ticks 1 2 ++
  [ (1, UReturn (VTask (Some 2))) ] ++ ticks 1 6 ++
  ticks 1 3 ++ [ (1, UReturn (VInt 42)) ] ++ ticks 1 7.

Definition unwrap_world : World := world_of (run unwrap_sched World_init).

(** ** What a future has handed out, in the history *)

(** Every value [GetValue] returned, every [kReady] of [WaitFor] and every
    call of a listener comes after the [SetValue] of that future, with its
    value. *)
Fixpoint after_set (l : list Event) : Prop :=
  match l with
  | [] => True
  | e :: l' =>
      match e with
      | EvGetValue _ f v | EvCall _ f _ v _ => In (EvSetValue f v) l'
      | EvWaitFor _ f kReady => exists v, In (EvSetValue f v) l'
      | _ => True
      end /\ after_set l'
  end.

(** ** Producers and values *)






(** ** The scheduler of a node *)

(** Node [t] is bound to the scheduler [s]. *)
Definition bound (t : TaskId) (s : SchedId) (w : World) : Prop :=
  exists T, tasks w !! t = Some T /\ scheduler_ T = Some s.

Record bound_inv (w : World) : Prop := {
  bound_cmd : forall s t,
    in_thread (CSchedule s (Some (ClStart t))) w -> bound t s w;
  bound_log : forall s t,
    In (EvSchedule s (Some (ClStart t))) (log w) -> bound t s w
}.

(** [pendingDependencyCount] is at most the number of parents. *)
Definition count_le (w : World) : Prop :=
  forall t D, contexts w !! t = Some (Some D) ->
    (pendingDependencyCount D <= Z.of_nat (length (dependencies D)))%Z.

(** * Reference counting: [RefCounted] and [RefCntAutoPtr]

    [include/TPL/RefCounted.h] and [include/TPL/RefCntAutoPtr.h], and the
    older [RefCountGuard].  The objects of the heap are addressed by their
    index; an object is its [refCount], a [std::atomic_int] that wraps
    around, or [None] once [delete] has run on it.  What the destructor of
    the object itself does is not known here.  A [RefCntAutoPtr] is its
    member [ref_]; the handles of a program are addressed by their index,
    [None] once their destructor has run.  Using an object after [delete],
    or a handle after its destructor, is undefined in C++: here it is
    [Err Dangling]. *)

Module RefCnt.

Inductive Fault :=
| AssertAddRef     (* assert(refCount >= 0) *)
| AssertRelease    (* assert(refCount > 0) *)
| Dangling.

Inductive Res (A : Type) :=
| Ok (a : A)
| Err (e : Fault).
Arguments Ok {A} a.
Arguments Err {A} e.

Definition rbind {A B} (m : Res A) (k : A -> Res B) : Res B :=
  match m with
  | Ok a => k a
  | Err e => Err e
  end.

Notation "'let!' x ':=' m 'in' k" := (rbind m (fun x => k))
  (at level 10, x name, m at level 100, k at level 200, only parsing).

(** [int] arithmetic of [std::atomic_int]: two's complement on 32 bits. *)
Definition INT_MAX : Z := 2 ^ 31 - 1.
Definition int_wrap (z : Z) : Z := ((z + 2 ^ 31) mod 2 ^ 32 - 2 ^ 31)%Z.

Abbreviation Heap := (list (option Z)) (only parsing).
Abbreviation Ptr := (option nat) (only parsing).

(** [new T]: the count starts at 0. *)
Definition RefCounted_new (h : Heap) : Heap * nat :=
  (h ++ [Some 0%Z], length h).

Definition RefCounted_AddRef (o : nat) (h : Heap) : Res Heap :=
  match h !! o with
  | Some (Some refCount) =>
      if (0 <=? refCount)%Z
      then Ok (<[o := Some (int_wrap (refCount + 1))]> h)
      else Err AssertAddRef
  | _ => Err Dangling
  end.

Definition RefCounted_Release (o : nat) (h : Heap) : Res Heap :=
  match h !! o with
  | Some (Some refCount) =>
      if (0 <? refCount)%Z then
        let refCount' := int_wrap (refCount - 1) in
        if (refCount' =? 0)%Z then Ok (<[o := None]> h)
        else Ok (<[o := Some refCount']> h)
      else Err AssertRelease
  | _ => Err Dangling
  end.

(** The private members [AddRef()] and [Release()] of the handle. *)
Definition AddRef (ref_ : Ptr) (h : Heap) : Res Heap :=
  match ref_ with
  | Some o => RefCounted_AddRef o h
  | None => Ok h
  end.

Definition Release (ref_ : Ptr) (h : Heap) : Res Heap :=
  match ref_ with
  | Some o => RefCounted_Release o h
  | None => Ok h
  end.

Record Store := mkStore {
  objs : Heap;
  ptrs : list (option Ptr)
}.

Definition Store_init : Store := mkStore [] [].

(** The member [ref_] of the handle [i]. *)
Definition get_ref (i : nat) (s : Store) : Res Ptr :=
  match ptrs s !! i with
  | Some (Some ref_) => Ok ref_
  | _ => Err Dangling
  end.

(** What a program does with objects and handles. *)
Inductive Op :=
| New                              (* new T(...) *)
| CtorDefault                      (* RefCntAutoPtr(), RefCntAutoPtr(nullptr) *)
| CtorRaw (ref : Ptr)              (* RefCntAutoPtr(Type* ref) *)
| CtorCopy (ref : nat)             (* RefCntAutoPtr(const RefCntAutoPtr&) *)
| CtorMove (ref : nat)             (* RefCntAutoPtr(RefCntAutoPtr&&) *)
| Dtor (this : nat)                (* ~RefCntAutoPtr() *)
| AssignRaw (this : nat) (ref : Ptr)    (* operator=(Type* ref) *)
| AssignNull (this : nat)               (* operator=(nullptr) *)
| AssignCopy (this ref : nat)           (* operator=(const RefCntAutoPtr&) *)
| AssignMove (this ref : nat)           (* operator=(RefCntAutoPtr&&) *)
| AssignSwap (this ref : nat).     (* RefCountGuard::operator=(RefCountGuard&&) *)

Definition run_op (op : Op) (s : Store) : Res Store :=
  match op with
  | New => Ok (mkStore (RefCounted_new (objs s)).1 (ptrs s))
  | CtorDefault => Ok (mkStore (objs s) (ptrs s ++ [Some None]))
  | CtorRaw ref =>
      let! h := AddRef ref (objs s) in
      Ok (mkStore h (ptrs s ++ [Some ref]))
  | CtorCopy ref =>
      let! ref_ := get_ref ref s in
      let! h := AddRef ref_ (objs s) in
      Ok (mkStore h (ptrs s ++ [Some ref_]))
  | CtorMove ref =>
      let! ref_ := get_ref ref s in
      Ok (mkStore (objs s) (<[ref := Some None]> (ptrs s) ++ [Some ref_]))
  | Dtor this =>
      let! ref_ := get_ref this s in
      let! h := Release ref_ (objs s) in
      Ok (mkStore h (<[this := None]> (ptrs s)))
  | AssignRaw this ref =>
      let! ref_ := get_ref this s in
      if decide (ref_ <> ref) then
        let! h := Release ref_ (objs s) in
        let! h' := AddRef ref h in
        Ok (mkStore h' (<[this := Some ref]> (ptrs s)))
      else Ok s
  | AssignNull this =>
      let! ref_ := get_ref this s in
      match ref_ with
      | Some o =>
          let! h := RefCounted_Release o (objs s) in
          Ok (mkStore h (<[this := Some None]> (ptrs s)))
      | None => Ok s
      end
  | AssignCopy this ref =>
      let! ref_ := get_ref this s in
      let! ref_ref_ := get_ref ref s in
      if decide (ref_ <> ref_ref_) then
        let! h := Release ref_ (objs s) in
        let! h' := AddRef ref_ref_ h in
        Ok (mkStore h' (<[this := Some ref_ref_]> (ptrs s)))
      else Ok s
  | AssignMove this ref =>
      let! ref_ := get_ref this s in
      let! ref_ref_ := get_ref ref s in
      if decide (ref_ref_ <> ref_) then
        let! h := Release ref_ (objs s) in
        Ok (mkStore h
              (<[ref := Some None]> (<[this := Some ref_ref_]> (ptrs s))))
      else Ok s
  | AssignSwap this ref =>
      let! ref_ := get_ref this s in
      let! ref_ref_ := get_ref ref s in
      Ok (mkStore (objs s)
            (<[this := Some ref_ref_]> (<[ref := Some ref_]> (ptrs s))))
  end.

Fixpoint run_ops (ops : list Op) (s : Store) : Res Store :=
  match ops with
  | [] => Ok s
  | op :: ops' => let! s' := run_op op s in run_ops ops' s'
  end.

(** [Get()], [operator bool], [operator!] *)
Definition Get (this : nat) (s : Store) : Res Ptr := get_ref this s.
Definition to_bool (this : nat) (s : Store) : Res bool :=
  let! ref_ := get_ref this s in Ok (bool_decide (ref_ <> None)).
Definition not_ (this : nat) (s : Store) : Res bool :=
  let! ref_ := get_ref this s in Ok (bool_decide (ref_ = None)).

(** The handles that hold the object [o]. *)
Definition holds (o : nat) (p : option Ptr) : nat :=
  if decide (p = Some (Some o)) then 1 else 0.

Definition holders (o : nat) (s : Store) : nat := total (holds o) (ptrs s).

(** The count of an object is the number of handles that hold it, and no
    handle holds a deleted object. *)
Definition counted (s : Store) : Prop :=
  forall o,
    match objs s !! o with
    | Some (Some refCount) => refCount = Z.of_nat (holders o s)
    | _ => holders o s = 0
    end.

(** No object is held by [INT_MAX] handles. *)
Definition small (s : Store) : Prop :=
  forall o, (Z.of_nat (holders o s) < INT_MAX)%Z.

(** A mark for the proofs: the facts about the object [o] are at hand. *)
Definition counted_at (o : nat) : Prop := True.

Definition live (ref : Ptr) (s : Store) : Prop :=
  match ref with
  | Some o => exists refCount, objs s !! o = Some (Some refCount)
  | None => True
  end.

Definition alive (i : nat) (s : Store) : Prop :=
  exists ref_, ptrs s !! i = Some (Some ref_).

(** The arguments of an operation are handles whose destructor has not run
    and pointers to objects that are not deleted. *)
Definition args_ok (op : Op) (s : Store) : Prop :=
  match op with
  | New | CtorDefault => True
  | CtorRaw ref => live ref s
  | CtorCopy ref | CtorMove ref => alive ref s
  | Dtor this | AssignNull this => alive this s
  | AssignRaw this ref => alive this s /\ live ref s
  | AssignCopy this ref | AssignMove this ref | AssignSwap this ref =>
      alive this s /\ alive ref s
  end.

End RefCnt.

(** * The loop scheduler of the example

    [CustomScheduler] of [example/example1.cpp]: an [ITaskScheduler] whose
    queue is emptied by the thread that calls [Loop()].  A functor is given
    by a number, [None] being an empty [std::function].  [Schedule] and
    [Stop] work under [queueMutex_] and are one step each, whatever thread
    calls them, the thread of [Loop()] from inside a functor included;
    [Loop()] writes [isRunning_] without the lock when it is entered, which
    is taken as one step too.  The member [history] is a history of what
    happened, most recent event first; the code does not read it. *)

Module Custom.

Record CustomScheduler := mkCustom {
  taskQueue_ : list (option nat);
  isRunning_ : bool
}.

Definition CustomScheduler_init : CustomScheduler := mkCustom [] false.

Definition empty {A} (q : list A) : bool :=
  match q with [] => true | _ => false end.

(** Where the thread that runs [Loop()] is. *)
Inductive Pc :=
| PEntry                         (* Loop() is not entered yet *)
| PWait                          (* at the guarded block of the loop *)
| PCall (functor : option nat)   (* assert(functor != nullptr); functor() *)
| PRun (functor : nat)           (* inside functor() *)
| PExit.                         (* Loop() has returned *)

Inductive Ev :=
| EvSchedule (functor : option nat)
| EvStop
| EvLoop                         (* Loop() is entered *)
| EvPop (functor : option nat)
| EvCall (functor : nat)
| EvReturn (functor : nat)
| EvBreak.                       (* Loop() returns *)

Record State := mkState {
  sched : CustomScheduler;
  pc : Pc;
  history : list Ev
}.

Definition State_init : State := mkState CustomScheduler_init PEntry [].

Definition Schedule (functor : option nat) (st : State) : State :=
  let S := sched st in
  mkState (mkCustom (taskQueue_ S ++ [functor]) (isRunning_ S)) (pc st)
    (EvSchedule functor :: history st).

Definition Stop (st : State) : State :=
  let S := sched st in
  mkState (mkCustom (taskQueue_ S) false) (pc st) (EvStop :: history st).

(** The next step of the thread that runs [Loop()]. *)
Definition Loop (st : State) : Outcome State :=
  let S := sched st in
  match pc st with
  | PEntry =>
      Next (mkState (mkCustom (taskQueue_ S) true) PWait
              (EvLoop :: history st))
  | PWait =>
      if negb (empty (taskQueue_ S)) || negb (isRunning_ S) then
        if negb (isRunning_ S) && empty (taskQueue_ S) then
          Next (mkState S PExit (EvBreak :: history st))
        else
          match taskQueue_ S with
          | functor :: q =>
              Next (mkState (mkCustom q (isRunning_ S)) (PCall functor)
                      (EvPop functor :: history st))
          | [] => Fail NullPointer     (* front() of an empty queue *)
          end
      else Blocked
  | PCall functor =>
      match functor with
      | Some f => Next (mkState S (PRun f) (EvCall f :: history st))
      | None => Fail (AssertionFailed A_functor_not_null)
      end
  | PRun f => Next (mkState S PWait (EvReturn f :: history st))
  | PExit => Blocked
  end.

(** What happens next: a call of [Schedule] or of [Stop] by some thread, or
    a step of the thread of [Loop()]. *)
Inductive Label :=
| LSchedule (functor : option nat)
| LStop
| LLoop.

Definition step (l : Label) (st : State) : Outcome State :=
  match l with
  | LSchedule functor => Next (Schedule functor st)
  | LStop => Next (Stop st)
  | LLoop => Loop st
  end.

Fixpoint steps (ls : list Label) (st : State) : Outcome State :=
  match ls with
  | [] => Next st
  | l :: ls' => let* st' := step l st in steps ls' st'
  end.

(** The functors scheduled, taken and returned from, oldest first. *)
Fixpoint scheduled (l : list Ev) : list (option nat) :=
  match l with
  | [] => []
  | e :: l' =>
      scheduled l' ++ match e with EvSchedule f => [f] | _ => [] end
  end.

Fixpoint taken (l : list Ev) : list (option nat) :=
  match l with
  | [] => []
  | e :: l' => taken l' ++ match e with EvPop f => [f] | _ => [] end
  end.

Fixpoint returned (l : list Ev) : list (option nat) :=
  match l with
  | [] => []
  | e :: l' =>
      returned l' ++ match e with EvReturn f => [Some f] | _ => [] end
  end.

(** The functor the thread of [Loop()] holds or is inside of. *)
Definition current (p : Pc) : list (option nat) :=
  match p with
  | PCall functor => [functor]
  | PRun f => [Some f]
  | _ => []
  end.

(** [Stop()] was called after [Loop()] was entered. *)
Definition stopped_in_loop (l : list Ev) : Prop :=
  exists l2 l1, l = l2 ++ EvStop :: l1 /\ In EvLoop l1.

Record loop_inv (st : State) : Prop := {
  loop_queue :
    scheduled (history st)
    = taken (history st) ++ taskQueue_ (sched st);
  loop_current :
    taken (history st) = returned (history st) ++ current (pc st);
  loop_entered : pc st <> PEntry -> In EvLoop (history st);
  loop_entry : pc st = PEntry -> isRunning_ (sched st) = false;
  loop_stopped :
    pc st <> PEntry -> isRunning_ (sched st) = false ->
    stopped_in_loop (history st);
  loop_exit :
    pc st = PExit ->
    exists l2 l1, history st = l2 ++ EvBreak :: l1 /\
      scheduled l1 = returned l1 /\ stopped_in_loop l1
}.

End Custom.

(** * Future<void>

    The specialisation [Future<void>] of [include/TPL/Future.h]: the member
    [hasValue_] stands for [value_], the listeners take no argument, and
    [GetValue()] only waits.  The machine above runs the nodes of type
    [void] on [Future], with the value [VVoid]; [as_Future] is the future
    that stands there for a [Future<void>]. *)

Module FutureVoid.

Record Future_void := mkFutureVoid {
  hasValue_ : bool;
  onValueAvailable_ : list Callback
}.

(** [Future() = default] and [explicit Future(bool hasValue)] *)
Definition Future_default : Future_void := mkFutureVoid false [].
Definition Future_bool (hasValue : bool) : Future_void :=
  mkFutureVoid hasValue [].

Definition IsReadyInternal (f : Future_void) : bool := hasValue_ f.

Definition SetValue_locked (f : Future_void) : Outcome Future_void :=
  let* _ := assert A_value_empty (negb (hasValue_ f)) in
  Next (mkFutureVoid true (onValueAvailable_ f)).

Definition InvokeOnValueAvailable_locked (cb : Callback) (f : Future_void)
  : Future_void * option Callback :=
  if IsReadyInternal f then (f, Some cb)
  else (mkFutureVoid (hasValue_ f) (onValueAvailable_ f ++ [cb]), None).

Definition CallAllValueListener_locked (f : Future_void)
  : Future_void * option Callback :=
  match onValueAvailable_ f with
  | [] => (f, None)
  | cb :: q => (mkFutureVoid (hasValue_ f) q, Some cb)
  end.

Definition Wait_locked (f : Future_void) : Outcome unit :=
  if hasValue_ f then Next tt else Blocked.

Definition WaitFor_locked (expired : bool) (f : Future_void)
  : Outcome WaitStatus :=
  if hasValue_ f then Next kReady
  else if expired then Next kTimeout
  else Blocked.

Definition as_Future (f : Future_void) : Future :=
  mkFuture (if hasValue_ f then Some VVoid else None) (onValueAvailable_ f).

Definition as_result (r : Future_void * option Callback)
  : Future * option Callback :=
  (as_Future r.1, r.2).

End FutureVoid.

(** * The nodes with their reference counts

    The machine above keeps every node for ever and runs [Start()] in one
    step.  The machine of this section runs the same code on the same
    store, and follows in addition
    - the member [refCount] of every node ([RefCounted]), with the
      [AddRef()] and [Release()] of the handles the library itself makes:
      the handle [self] a listener on a parent captures, the handle [self]
      the lambda of [Start()] captures, and the handle [MakeTaskImpl]
      returns.  A node whose count falls to zero is deleted, and a thread
      that uses a deleted node fails ([Fail NullPointer]);
    - the two halves of [Start()]: the test [assert(!isStarted_)] and the
      assignment [isStarted_ = true] are two steps, so that two calls of
      [Start()] on one node can both pass the test.

    What is not followed: the handles of the client.  The client keeps the
    handle [MakeTaskImpl] returns for ever, and that handle is counted; the
    copies of handles the client makes, and the ones in values, in the
    arrays of dependencies and in the listeners of [Unwrap], are handles of
    nodes the client has a handle of, and are not counted.  The count of a
    node is therefore the member [refCount] as long as [MakeTaskImpl] has
    not returned, which is when a node can be deleted under the hands of
    its constructor, and a lower bound of it afterwards.  A scheduler is
    destroyed once. *)

(** What a thread has still to run: the commands of the machine above, and
    in between them the steps that only this machine sees. *)
Inductive Instr :=
| IRun (c : Cmd)
| IStarted (t : TaskId)
    (* Start(): after assert(!isStarted_), before isStarted_ = true *)
| IDestroy (cb : Callback)
    (* the destructor of the std::function that held the listener cb *)
| IWrap (t : TaskId).
    (* MakeTaskImpl: RefCntAutoPtr<ResultTaskType>(...) of the node the
       constructor with parents has returned *)

Record Process := mkProcess {
  store : World;
  code : list (list Instr);
  refCount : list (option Z);
    (* refCount !! t: the count of node t, None once the node is deleted *)
  hasHandle : list bool
    (* hasHandle !! t: MakeTaskImpl has returned the handle of node t *)
}.

Definition Process_init : Process :=
  mkProcess World_init [[IRun (CUser KMain)]] [] [].

Definition set_store (w : World) (m : Process) : Process :=
  mkProcess w (code m) (refCount m) (hasHandle m).
Definition set_refCount (h : list (option Z)) (m : Process) : Process :=
  mkProcess (store m) (code m) h (hasHandle m).
Definition set_hasHandle (hs : list bool) (m : Process) : Process :=
  mkProcess (store m) (code m) (refCount m) hs.

(** The commands of the machine above that a thread has still to run. *)
Definition erase (i : Instr) : list Cmd :=
  match i with
  | IRun c => [c]
  | IStarted t => [CStart t]
  | IDestroy _ | IWrap _ => []
  end.

Definition lift (cmds : list Cmd) : list Instr := IRun <$> cmds.

Definition of_Res {A} (r : RefCnt.Res A) : Outcome A :=
  match r with
  | RefCnt.Ok a => Next a
  | RefCnt.Err RefCnt.AssertAddRef => Fail (AssertionFailed A_refCount_ge_0)
  | RefCnt.Err RefCnt.AssertRelease => Fail (AssertionFailed A_refCount_gt_0)
  | RefCnt.Err RefCnt.Dangling => Fail NullPointer
  end.

(** [RefCntAutoPtr(this)] and the destructor of such a handle, on node
    [t]. *)
Definition TaskImpl_AddRef (t : TaskId) (m : Process) : Outcome Process :=
  let* h := of_Res (RefCnt.RefCounted_AddRef t (refCount m)) in
  Next (set_refCount h m).

Definition TaskImpl_Release (t : TaskId) (m : Process) : Outcome Process :=
  let* h := of_Res (RefCnt.RefCounted_Release t (refCount m)) in
  Next (set_refCount h m).

(** Making and destroying the closure of a listener: the listener on a
    parent captures [self = RefCntAutoPtr(this)]. *)
Definition Callback_ctor (cb : Callback) (m : Process) : Outcome Process :=
  match cb with
  | CbParent self _ _ => TaskImpl_AddRef self m
  | _ => Next m
  end.

Definition Callback_dtor (cb : Callback) (m : Process) : Outcome Process :=
  match cb with
  | CbParent self _ _ => TaskImpl_Release self m
  | _ => Next m
  end.

(** Destroying a callable of a pool: the lambda of [Start()] holds
    [self]. *)
Definition Closure_dtor (cl : Closure) (m : Process) : Outcome Process :=
  match cl with
  | ClStart self => TaskImpl_Release self m
  | ClUser _ => Next m
  end.

(** [~ParallelTaskScheduler] destroys [taskQueue_] with what is left in
    it. *)
Fixpoint Queue_dtor (q : list (option Closure)) (m : Process)
  : Outcome Process :=
  match q with
  | [] => Next m
  | functor :: q' =>
      let* m1 := match functor with
                 | Some cl => Closure_dtor cl m
                 | None => Next m
                 end in
      Queue_dtor q' m1
  end.

(** The node is not deleted. *)
Definition live (m : Process) (t : TaskId) : bool :=
  match refCount m !! t with
  | Some (Some _) => true
  | _ => false
  end.

(** The nodes a command reads or writes. *)
Definition derefs (c : Cmd) : list TaskId :=
  match c with
  | CSetValue f _ | CCallAllValueListener f _ | CInvokeOnValueAvailable f _
  | CCallback f _ | CWait f | CWaitFor f | CGetValue f => [f]
  | CParent _ _ parent false => [parent]
  | CStart t | CInvokeFunctor t => [t]
  | _ => []
  end.

Definition check_live (ts : list TaskId) (m : Process) : Outcome unit :=
  if forallb (live m) ts then Next tt else Fail NullPointer.

(** The handles a call of the client, or a value it returns, is made
    with. *)
Definition Val_handles (v : Val) : list TaskId :=
  match v with
  | VTask (Some t) => [t]
  | _ => []
  end.

Definition handles (a : ApiCall) : list TaskId :=
  match a with
  | ApiTask _ _ parentTasks | ApiMakeTask _ _ parentTasks => parentTasks
  | ApiTaskValue v _ | ApiMakeTaskFromValue v _ => Val_handles v
  | ApiStart t | ApiThen t _ _ | ApiUnwrap t _ | ApiUnwrap0 t
  | ApiInvokeOnValueAvailable t _ | ApiWait t | ApiWaitFor t
  | ApiGetValue t => [t]
  | _ => []
  end.

(** The constructor of node [t] is still running: nobody outside it has a
    handle of [t]. *)
Definition in_ctor (m : Process) (t : TaskId) : bool :=
  bool_decide (hasHandle m !! t = Some false).

(** [new ResultTaskType(...)] and [RefCntAutoPtr<ResultTaskType>(...)] in
    [MakeTaskImpl], for the node a call has made when the store went from
    [w] to [w']: the count of a new object is 0; the constructor without
    parents does nothing more and the handle is made at once; the
    constructor with parents has its listeners to register first, and the
    handle is made by [IWrap] after them. *)
Definition MakeTaskImpl_handle (w w' : World) (m : Process)
  : Process * list Instr :=
  if length (tasks w) <? length (tasks w') then
    let t := length (tasks w) in
    if has_parents t w' then
      (mkProcess (store m) (code m) (refCount m ++ [Some 0%Z])
         (hasHandle m ++ [false]), [IWrap t])
    else
      (mkProcess (store m) (code m) (refCount m ++ [Some 1%Z])
         (hasHandle m ++ [true]), [])
  else (m, []).

(** A step of the machine above, on the store. *)
Definition on_store (r : Outcome (World * list Cmd)) (m : Process)
  : Outcome (Process * list Instr) :=
  let* (w', cmds) := r in Next (set_store w' m, IRun <$> cmds).

(** The first half of [Start()]: [assert(!isStarted_)]. *)
Definition Start_assert (t : TaskId) (m : Process)
  : Outcome (Process * list Instr) :=
  let* T := get_task t (store m) in
  let* _ := assert A_not_started (negb (isStarted_ T)) in
  Next (m, [IStarted t]).

(** The second half, on the store: [isStarted_ = true], then
    [scheduler_->Schedule(...)]. *)
Definition Start_write (t : TaskId) (w : World) : Outcome (World * list Cmd) :=
  let* T := get_task t w in
  let w1 := set_tasks (<[t := mkTaskImpl (future_ T) (functor_ T)
                                 (scheduler_ T) true]> (tasks w)) w in
  let* s := deref (scheduler_ T) in
  Next (add_log (EvStart t) w1, [CSchedule s (Some (ClStart t))]).

(** The second half, with the lambda [[self = RefCntAutoPtr(this)]] made
    for [Schedule]. *)
Definition Start_schedule (t : TaskId) (m : Process)
  : Outcome (Process * list Instr) :=
  let* m1 := TaskImpl_AddRef t m in
  on_store (Start_write t (store m)) m1.

(** One step of a thread.
    - A client calls the library with handles it has, and returns values
      with such handles.
    - [InvokeOnValueAvailable(cb)] is entered with the closure [cb] just
      made.
    - The closure [callback] of [InvokeOnValueAvailable] is destroyed when
      the function returns, after the call.  The closure [cb] of
      [CallAllValueListener] is destroyed when the next listener is moved
      into it or when the function returns: in both cases after the call
      and before anything else the thread does to a node.
    - [Schedule] copies the closure into the queue and its caller destroys
      the one it made; the worker copies the first closure of the queue and
      pops it: the count is the same before and after.  The closure of the
      worker is destroyed at the end of the turn of its loop. *)
Definition pstep (th : ThreadId) (i : Instr) (ch : Choice) (m : Process)
  : Outcome (Process * list Instr) :=
  match i with
  | IRun c =>
      let* _ := check_live (derefs c) m in
      match c with
      | CUser k =>
          match ch with
          | UCall a =>
              if existsb (in_ctor m) (handles a) then Blocked
              else
                let* (w', cmds) := call_api th a (store m) in
                let (m1, wrap) := MakeTaskImpl_handle (store m) w' m in
                Next (set_store w' m1,
                      (IRun <$> cmds) ++ wrap ++ [IRun (CUser k)])
          | UReturn v =>
              if existsb (in_ctor m) (Val_handles v) then Blocked
              else Next (m, IRun <$> User_return k v)
          | _ => Blocked
          end
      | CInvokeOnValueAvailable f (Some cb) =>
          let* m1 := Callback_ctor cb m in
          on_store (InvokeOnValueAvailable f (Some cb) (store m)) m1
      | CCallback f callback =>
          let* (w', body) := call th f callback false (store m) in
          Next (set_store w' m, (IRun <$> body) ++ [IDestroy callback])
      | CCallAllValueListener f (Some cb) =>
          let* (w', body) := call th f cb true (store m) in
          Next (set_store w' m,
                (IRun <$> body)
                ++ [IDestroy cb; IRun (CCallAllValueListener f None)])
      | CStart t => Start_assert t m
      | CFunctorReturned s functor =>
          let* m1 := Closure_dtor functor m in
          on_store (step_cmd th c ch (store m)) m1
      | CJoin s [] =>
          let* sch := get_scheduler s (store m) in
          let* m1 := Queue_dtor (taskQueue_ sch) m in
          on_store (step_cmd th c ch (store m)) m1
      | _ => on_store (step_cmd th c ch (store m)) m
      end
  | IStarted t =>
      let* _ := check_live [t] m in
      Start_schedule t m
  | IDestroy cb =>
      let* m1 := Callback_dtor cb m in Next (m1, [])
  | IWrap t =>
      let* m1 := TaskImpl_AddRef t m in
      Next (set_hasHandle (<[t := true]> (hasHandle m1)) m1, [])
  end.

(** One step: thread [a.1] runs its first instruction.  The threads the
    step has started run the commands the machine above gives them. *)
Definition pexec (a : ThreadId * Choice) (m : Process) : Outcome Process :=
  match code m !! a.1 with
  | Some (i :: k) =>
      let* (m', ins) := pstep a.1 i a.2 m in
      let spawned := drop (length (code m)) (threads (store m')) in
      let code' :=
        <[a.1 := ins ++ k]> (code m ++ (lift <$> spawned)) in
      Next (mkProcess (set_threads (flat_map erase <$> code') (store m'))
              code' (refCount m') (hasHandle m'))
  | _ => Blocked
  end.

Fixpoint prun (sched : list (ThreadId * Choice)) (m : Process)
  : Outcome Process :=
  match sched with
  | [] => Next m
  | a :: sched' => let* m' := pexec a m in prun sched' m'
  end.

(** The states this machine reaches by steps that [ok] allows; [ok] looks
    at the store. *)
Inductive preachable (ok : World -> ThreadId * Choice -> bool)
  : Process -> Prop :=
| preachable_init : preachable ok Process_init
| preachable_step m a m' :
    preachable ok m -> ok (store m) a = true -> pexec a m = Next m' ->
    preachable ok m'.

Fixpoint prun_ok (ok : World -> ThreadId * Choice -> bool)
    (sched : list (ThreadId * Choice)) (m : Process) : Outcome Process :=
  match sched with
  | [] => Next m
  | a :: sched' =>
      if ok (store m) a then let* m' := pexec a m in prun_ok ok sched' m'
      else Blocked
  end.

Definition process_of (r : Outcome Process) : Process :=
  match r with
  | Next m => m
  | _ => Process_init
  end.

(** The threads of the store are the code the threads have to run. *)
Definition synced (m : Process) : Prop :=
  threads (store m) = flat_map erase <$> code m.







(** ** Runs of this machine *)

(** The run of the node with two parents: a pool of two workers (threads 1
    and 2), the leaves 0 and 1, which produce 1 and 5, and node 2 with the
    parents 0 and 1, which produces 7; the listener 9 is put on node 2
    before it is Ready, the listener 10 after.  [fanin_proc_mid] is the
    state in which thread 1 is about to call the producer of node 2. *)
Definition fanin_proc_start : list (ThreadId * Choice) :=
  [ (0, UCall (ApiParallelTaskScheduler 2));
    (0, UCall (ApiTask (Some 1) 0 []));
    (0, UCall (ApiTask (Some 2) 0 []));
    (0, UCall (ApiTask (Some 3) 0 [0; 1])) ] ++ ticks 0 3 ++
  [ (0, UCall (ApiInvokeOnValueAvailable 2 (Some 9))); (0, Tick);
    (0, UCall (ApiStart 0)) ] ++ ticks 0 3 ++
  [ (0, UCall (ApiStart 1)) ] ++ ticks 0 3 ++
  ticks 1 3 ++ [ (1, UReturn (VInt 1)) ] ++ ticks 1 8 ++
  ticks 2 3 ++ [ (2, UReturn (VInt 5)) ] ++ ticks 2 12 ++
  ticks 1 2.

Definition fanin_proc_finish : list (ThreadId * Choice) :=
  [ (1, Tick); (1, UReturn (VInt 7)) ] ++ ticks 1 3 ++
  [ (1, UReturn VVoid) ] ++ ticks 1 6 ++
  [ (0, UCall (ApiInvokeOnValueAvailable 2 (Some 10))) ] ++ ticks 0 2 ++
  [ (0, UReturn VVoid); (0, Tick) ].

Definition fanin_proc_mid : Process :=
  process_of (prun fanin_proc_start Process_init).
Definition fanin_proc : Process :=
  process_of (prun fanin_proc_finish fanin_proc_mid).

(** Two threads of the client (0 and 2) call [Start()] on the leaf 0 at
    the same time: both run the test before either sets the flag.  The
    only worker (thread 1) has called the producer, stored what it
    returned, and called the producer again. *)
Definition race_sched : list (ThreadId * Choice) :=
  [ (0, UCall (ApiParallelTaskScheduler 1));
    (0, UCall (ApiTask (Some 1) 0 []));
    (0, UCall ApiThread);
    (0, UCall (ApiStart 0)); (2, UCall (ApiStart 0));
    (0, Tick); (2, Tick); (0, Tick); (2, Tick); (0, Tick); (2, Tick) ] ++
  ticks 1 3 ++ [ (1, UReturn (VInt 1)) ] ++ ticks 1 6.

Definition race_proc : Process := process_of (prun race_sched Process_init).

(** The default scheduler is the pool 0, and node 0 is made by
    [MakeTaskFromValue] with a null pointer. *)
Definition null_proc_sched : list (ThreadId * Choice) :=
  [ (0, UCall (ApiParallelTaskScheduler 1));
    (0, UCall (ApiSetDefaultTaskScheduler (Some 0)));
    (0, UCall (ApiMakeTaskFromValue (VInt 3) None)); (0, Tick) ].

Definition null_proc : Process :=
  process_of (prun null_proc_sched Process_init).

(** [Then] on that node, which is Ready: the constructor of node 1 calls
    its listener at once, and the listener starts node 1.  In
    [then_fast_sched] the worker (thread 1) runs node 1 to its end before
    the constructor has returned. *)
Definition then_sched : list (ThreadId * Choice) :=
  (0, UCall (ApiThen 0 (Some 5) None)) :: ticks 0 10.

Definition then_fast_sched : list (ThreadId * Choice) :=
  (0, UCall (ApiThen 0 (Some 5) None)) :: ticks 0 8 ++
  ticks 1 3 ++ [ (1, UReturn (VInt 4)) ] ++ ticks 1 6 ++ [ (0, Tick) ].

(** The nodes 0 and 1 are made from values, so Ready, and node 2 is made
    with the parents 0 and 1: its constructor has called the listener on
    node 0 and destroyed it. *)
Definition ready_parents_sched : list (ThreadId * Choice) :=
  [ (0, UCall (ApiParallelTaskScheduler 1));
    (0, UCall (ApiTaskValue (VInt 3) 0)); (0, Tick);
    (0, UCall (ApiTaskValue (VInt 4) 0)); (0, Tick);
    (0, UCall (ApiTask (Some 5) 0 [0; 1])) ] ++ ticks 0 5.

Definition ready_parents_proc : Process :=
  process_of (prun ready_parents_sched Process_init).

(** ** Reasoning about one step *)

Lemma bind_Next {A B} (m : Outcome A) (k : A -> Outcome B) b :
  bind m k = Next b -> exists a, m = Next a /\ k a = Next b.
Proof. destruct m; simpl; intros; try discriminate; eauto. Qed.

Lemma exec_inv a w w' :
  exec a w = Next w' ->
  exists c k w1 cmds,
    threads w !! a.1 = Some (c :: k) /\
    step_cmd a.1 c a.2 w = Next (w1, cmds) /\
    w' = set_threads (<[a.1 := cmds ++ k]> (threads w1)) w1.
Proof.
  unfold exec. destruct (threads w !! a.1) as [[|c k]|] eqn:E; try discriminate.
  intros H. apply bind_Next in H as ([w1 cmds] & H1 & H2).
  injection H2 as <-. eauto 10.
Qed.

Lemma lookup_snoc_length {A} (l : list A) (x : A) :
  (l ++ [x]) !! length l = Some x.
Proof. by apply list_lookup_middle. Qed.

Lemma insert_snoc_length {A} (l : list A) (x y : A) :
  <[length l := y]> (l ++ [x]) = l ++ [y].
Proof.
  rewrite insert_app_r_alt by lia. by rewrite Nat.sub_diag.
Qed.

Lemma lookup_snoc_Some {A} (l : list A) (x y : A) i :
  (l ++ [x]) !! i = Some y ->
  l !! i = Some y \/ (i = length l /\ y = x).
Proof.
  intros H. apply lookup_app_Some in H as [H|[H1 H2]]; [by left|right].
  destruct (i - length l) as [|n] eqn:E; simpl in H2; [|by destruct n].
  injection H2 as <-. split; [lia|done].
Qed.

Create Rewrite HintDb store.
#[global] Hint Rewrite @lookup_snoc_length @insert_snoc_length : store.

(** Case analysis on a computation that is known to succeed: the scrutinee
    at the head of the term is split, and the failing branches go away. *)
Ltac head_scrutinee t :=
  lazymatch t with
  | bind ?m _ => head_scrutinee m
  | match ?x with _ => _ end => head_scrutinee x
  | _ => t
  end.

Ltac step_simpl H :=
  simpl in H; unfold set_future in H; simpl in H;
  autorewrite with store in H; simpl in H.

Ltac step_split H :=
  repeat (
    step_simpl H; try discriminate H;
    lazymatch type of H with
    | Next _ = Next _ => fail
    | ?t = Next _ =>
        let x := head_scrutinee t in
        first
          [ is_var x; destruct x
          | let E := fresh "E" in destruct x eqn:E ];
        step_simpl H; try discriminate H
    end).

Ltac unfold_ops H :=
  unfold step_cmd, call_api, drop_handle, Unwrap0, Unwrap, Then, GetScheduler,
    MakeTaskFromValue, MakeTaskAndStart, MakeTask, Task_ctor_value, Task_ctor,
    scheduler_ref, or_default, Parent, InvokeFunctor, Start, MarkAsStarted,
    MakeTaskImpl, TaskImpl_ctor_parents, TaskImpl_ctor, Join, Destroy,
    Functor_call, WorkerThreadRoutine, Schedule, ParallelTaskScheduler_ctor,
    GetValue, WaitFor, Wait, InvokeOnValueAvailable, CallAllValueListener,
    SetValue, call, WaitFor_locked, Wait_locked,
    CallAllValueListener_locked, InvokeOnValueAvailable_locked,
    SetValue_locked, GetValueInternal, get_context, get_scheduler, get_future,
    get_task, deref, assert in H.

Ltac step_done H := try (injection H as <- <-).

(** Lookups in a store that has just been extended or updated. *)
Ltac lookup_cases :=
  repeat match goal with
  | H : (_ ++ [_]) !! _ = Some _ |- _ =>
      apply lookup_snoc_Some in H as [H|[-> ->]]
  | H : <[_ := _]> _ !! _ = Some _ |- _ =>
      apply list_lookup_insert_Some in H as [(-> & <- & ?)|[? H]]
  end.

(** ** Runs, again *)

Lemma run_app s1 s2 w :
  run (s1 ++ s2) w = let* w' := run s1 w in run s2 w'.
Proof.
  revert w. induction s1 as [|a s1 IH]; intros w; simpl; [done|].
  destruct (exec a w); simpl; auto.
Qed.

Lemma run_reachable_from sched w w' :
  reachable any_step w -> run sched w = Next w' -> reachable any_step w'.
Proof.
  revert w. induction sched as [|a sched IH]; simpl; intros w Hw H.
  - by injection H as <-.
  - apply bind_Next in H as (w1 & H1 & H2).
    eapply IH; [|done]. by eapply reachable_step.
Qed.

Lemma run_reachable sched w :
  run sched World_init = Next w -> reachable any_step w.
Proof. apply run_reachable_from. constructor. Qed.

Lemma run_ok_reachable ok sched w w' :
  reachable ok w -> run_ok ok sched w = Next w' -> reachable ok w'.
Proof.
  revert w. induction sched as [|a sched IH]; simpl; intros w Hw H.
  - by injection H as <-.
  - destruct (ok w a) eqn:Hok; [|discriminate].
    apply bind_Next in H as (w1 & H1 & H2).
    eapply IH; [|done]. eapply reachable_step; eauto.
Qed.

Lemma reachable_any ok w : reachable ok w -> reachable any_step w.
Proof.
  induction 1; [constructor|]. eapply reachable_step; eauto.
Qed.

(** ** Shape of the store *)

Lemma step_cmd_wf th c ch w w1 cmds :
  step_cmd th c ch w = Next (w1, cmds) -> wf w -> wf w1.
Proof.
  intros H [Hc Hs]. destruct c; unfold_ops H; step_split H; step_done H.
  all: split; simpl; rewrite ?length_app, ?length_insert; simpl;
    try lia; try assumption.
  all: intros t' T' HT'; lookup_cases; simpl; eauto.
  all: repeat match goal with
       | H : schedulers _ !! _ = Some _ |- _ => apply lookup_lt_Some in H
       end; try lia.
  all: try (specialize (Hs _ _ HT'); destruct (scheduler_ T');
            rewrite ?length_app, ?length_insert; simpl; [lia|done]).
  all: repeat match goal with
       | E : tasks _ !! _ = Some ?T |- context [scheduler_ ?T] =>
           pose proof (Hs _ _ E); clear E
       end;
       destruct (scheduler_ _); intuition (try done; try lia).
Qed.

Lemma exec_wf a w w' : exec a w = Next w' -> wf w -> wf w'.
Proof.
  intros H Hw. apply exec_inv in H as (c & k & w1 & cmds & _ & H & ->).
  apply step_cmd_wf in H; [|done]. destruct H; by split.
Qed.

Lemma reachable_wf ok w : reachable ok w -> wf w.
Proof.
  induction 1; [|by eapply exec_wf].
  split; [done|]. intros t T H. by destruct t.
Qed.

Lemma demo_world_run : run demo_sched World_init = Next demo_world.
Proof. vm_compute. reflexivity. Qed.

Lemma demo_world_reachable : reachable any_step demo_world.
Proof. exact (run_reachable _ _ demo_world_run). Qed.

(** ** Then *)

Lemma MakeTask_Some functor s ps w sch :
  schedulers w !! s = Some sch ->
  MakeTask functor (Some s) ps w = Next (MakeTaskImpl functor s ps w).
Proof.
  intros H. unfold MakeTask, Task_ctor, scheduler_ref, get_scheduler. simpl.
  by rewrite H.
Qed.

Lemma GetScheduler_snoc T w :
  GetScheduler (length (tasks w)) (set_tasks (tasks w ++ [T]) w)
  = Next (scheduler_ T).
Proof.
  unfold GetScheduler, get_task. simpl. by rewrite lookup_snoc_length.
Qed.



(** ** What a step keeps *)

Ltac same_lookup :=
  repeat match goal with
  | H1 : ?o = Some ?x, H2 : ?o = Some ?y |- _ =>
      rewrite H1 in H2; injection H2 as <-
  | H1 : ?o = Some ?x, H2 : ?o = None |- _ =>
      rewrite H1 in H2; discriminate H2
  end.

(** Rewrites a lookup of [t] in a store that was extended or updated, given
    the lookup of [t] before. *)
Ltac lookup_goal HT :=
  repeat first
    [ rewrite (lookup_app_l_Some _ _ _ _ HT)
    | match goal with
      | |- context [<[?f := _]> _ !! ?t] =>
          destruct (decide (t = f)) as [->|];
          [ rewrite list_lookup_insert_eq by (eapply lookup_lt_Some; eassumption)
          | rewrite list_lookup_insert_ne by done ]
      end ].

Lemma step_cmd_task th c ch w w1 cmds t T :
  step_cmd th c ch w = Next (w1, cmds) ->
  tasks w !! t = Some T ->
  exists T1, tasks w1 !! t = Some T1 /\
    functor_ T1 = functor_ T /\
    scheduler_ T1 = scheduler_ T /\
    (isStarted_ T = true -> isStarted_ T1 = true) /\
    (forall v, value_ (future_ T) = Some v -> value_ (future_ T1) = Some v).
Proof.
  intros H HT. destruct c; unfold_ops H; step_split H; step_done H.
  all: simpl; lookup_goal HT; same_lookup.
  all: try (exists T; by auto).
  all: eexists; split; [reflexivity|]; simpl; repeat split; auto.
  all: unfold IsReadyInternal in *; try congruence.
  all: intros v' Hv'; rewrite Hv' in *; discriminate.
Qed.

Lemma exec_task a w w' t T :
  exec a w = Next w' ->
  tasks w !! t = Some T ->
  exists T1, tasks w' !! t = Some T1 /\
    functor_ T1 = functor_ T /\
    scheduler_ T1 = scheduler_ T /\
    (isStarted_ T = true -> isStarted_ T1 = true) /\
    (forall v, value_ (future_ T) = Some v -> value_ (future_ T1) = Some v).
Proof.
  intros H HT. apply exec_inv in H as (c & k & w1 & cmds & _ & H & ->).
  simpl. by eapply step_cmd_task.
Qed.

Lemma run_task sched w w' t T :
  run sched w = Next w' ->
  tasks w !! t = Some T ->
  exists T1, tasks w' !! t = Some T1 /\
    functor_ T1 = functor_ T /\
    scheduler_ T1 = scheduler_ T /\
    (isStarted_ T = true -> isStarted_ T1 = true) /\
    (forall v, value_ (future_ T) = Some v -> value_ (future_ T1) = Some v).
Proof.
  revert w T. induction sched as [|a sched IH]; simpl; intros w T H HT.
  - injection H as <-. eauto 10.
  - apply bind_Next in H as (w1 & H1 & H2).
    destruct (exec_task _ _ _ _ _ H1 HT) as (T1 & HT1 & Hf & Hs & Hst & Hv).
    destruct (IH _ _ H2 HT1) as (T2 & HT2 & Hf2 & Hs2 & Hst2 & Hv2).
    exists T2. repeat split; try congruence; auto.
Qed.

(** ** Unwrap *)

Lemma Unwrap_Some t s w sch T :
  schedulers w !! s = Some sch ->
  tasks w !! t = Some T ->
  exists w',
    Unwrap t (Some s) w =
      Next (w', length (tasks w),
            [CInvokeOnValueAvailable t
               (Some (CbUnwrapOuter (length (tasks w))))]) /\
    tasks w' = tasks w ++ [mkTaskImpl Future_default FNull (Some s) true].
Proof.
  intros Hs HT.
  unfold Unwrap, Task_ctor, scheduler_ref, get_scheduler, MarkAsStarted,
    get_task. simpl. rewrite Hs. simpl.
  rewrite lookup_snoc_length. simpl. rewrite insert_snoc_length.
  rewrite (lookup_app_l_Some _ _ _ _ HT). simpl. eauto.
Qed.



(** The receiver [1] of this state was made by [MakeTaskFromValue] with a
    null pointer and holds a handle of node [0]; the default scheduler is
    the pool [0].  [Unwrap()] on it makes a proxy on the pool [0], which is
    not the scheduler of the receiver. *)
Lemma Unwrap_null_scheduler :
  reachable any_step null_world /\
  GetScheduler 1 null_world = Next None /\
  exists w' proxyTask cmds,
    Unwrap0 1 null_world = Next (w', proxyTask, cmds) /\
    GetScheduler proxyTask w' = Next (Some 0) /\
    GetScheduler proxyTask w' <> GetScheduler 1 null_world.
Proof.
  split; [apply (run_reachable null_sched); vm_compute; reflexivity|].
  split; [vm_compute; reflexivity|].
  do 3 eexists. split; [vm_compute; reflexivity|].
  split; [vm_compute; reflexivity|]. vm_compute. discriminate.
Qed.

(** ** MakeTaskFromValue *)

Lemma Start_started t T w :
  tasks w !! t = Some T -> isStarted_ T = true ->
  Start t w = Fail (AssertionFailed A_not_started).
Proof.
  intros HT Hs. unfold Start, MarkAsStarted, get_task. rewrite HT. simpl.
  by rewrite Hs.
Qed.

Lemma GetValue_ready th t T v w :
  tasks w !! t = Some T -> value_ (future_ T) = Some v ->
  GetValue th t w = Next (add_log (EvGetValue th t v) w, []).
Proof.
  intros HT Hv.
  unfold GetValue, get_future, get_task, Wait_locked, GetValueInternal,
    IsReadyInternal.
  rewrite HT. simpl. by rewrite Hv.
Qed.

(** C10. The node made by [MakeTaskFromValue(v, s)] is marked as started
    and its future holds [v]; from then on [Start()] on it fails the
    assertion on the started flag, and [GetValue()] returns [v] without
    waiting. *)
Theorem MakeTaskFromValue_started (w : World) (v : Val) (s : SchedId) :
  s < length (schedulers w) ->
  exists w' t T,
    MakeTaskFromValue v (Some s) w =
      Next (w', t, [CCallAllValueListener t None]) /\
    tasks w' !! t = Some T /\
    functor_ T = FNull /\ isStarted_ T = true /\
    value_ (future_ T) = Some v /\
    forall ths sched w2 th,
      run sched (set_threads ths w') = Next w2 ->
      Start t w2 = Fail (AssertionFailed A_not_started) /\
      value_of t w2 = Some v /\
      GetValue th t w2 = Next (add_log (EvGetValue th t v) w2, []).
Proof.
  intros Hslt. destruct (lookup_lt_is_Some_2 _ _ Hslt) as [sch Hsch].
  unfold MakeTaskFromValue, Task_ctor_value, scheduler_ref, get_scheduler,
    MarkAsStarted, SetValue, get_future, get_task, SetValue_locked.
  simpl. rewrite Hsch. simpl.
  rewrite lookup_snoc_length. simpl. rewrite insert_snoc_length.
  unfold set_future. simpl. rewrite lookup_snoc_length. simpl.
  rewrite insert_snoc_length.
  do 3 eexists. split; [reflexivity|]. simpl.
  rewrite lookup_snoc_length. repeat split.
  all: match goal with
       | Hrun : run _ (set_threads _ ?w0) = Next _ |- _ =>
           destruct (run_task _ _ _ (length (tasks w)) _ Hrun
                       (lookup_snoc_length _ _))
             as (T2 & HT2 & _ & _ & Hst & Hv)
       end; simpl in *.
  - eapply Start_started; eauto.
  - unfold value_of. rewrite HT2. simpl. auto.
  - eapply GetValue_ready; eauto.
Qed.

Lemma MakeTaskFromValue_started_witness :
  exists w' t T,
    MakeTaskFromValue (VInt 5) (Some 0) demo_world =
      Next (w', t, [CCallAllValueListener t None]) /\
    tasks w' !! t = Some T /\
    functor_ T = FNull /\ isStarted_ T = true /\
    value_ (future_ T) = Some (VInt 5) /\
    forall ths sched w2 th,
      run sched (set_threads ths w') = Next w2 ->
      Start t w2 = Fail (AssertionFailed A_not_started) /\
      value_of t w2 = Some (VInt 5) /\
      GetValue th t w2 = Next (add_log (EvGetValue th t (VInt 5)) w2, []).
Proof.
  apply (MakeTaskFromValue_started demo_world (VInt 5) 0).
  vm_compute. lia.
Defined.

(** ** Counting *)

Lemma total_app {A} (g : A -> nat) l1 l2 :
  total g (l1 ++ l2) = total g l1 + total g l2.
Proof. induction l1; simpl; lia. Qed.

Lemma total_insert {A} (g : A -> nat) l i x y :
  l !! i = Some x ->
  total g (<[i := y]> l) + g x = total g l + g y.
Proof.
  revert i. induction l as [|z l IH]; intros [|i] H; simplify_eq/=; [lia|].
  specialize (IH _ H). lia.
Qed.

Lemma total_replicate {A} (g : A -> nat) n x :
  total g (replicate n x) = n * g x.
Proof. induction n; simpl; lia. Qed.

Lemma total_zero {A} (g : A -> nat) l :
  (forall x, In x l -> g x = 0) -> total g l = 0.
Proof.
  induction l as [|x l IH]; simpl; intros H; [done|].
  rewrite (H x), IH; auto.
Qed.

Lemma total_pos {A} (g : A -> nat) l x :
  In x l -> 0 < g x -> 0 < total g l.
Proof.
  induction l as [|y l IH]; simpl; [done|]. intros [->|H] Hg; [lia|].
  specialize (IH H Hg). lia.
Qed.

Lemma total_lookup {A} (g : A -> nat) l i x :
  l !! i = Some x -> g x <= total g l.
Proof.
  revert i. induction l as [|y l IH]; intros [|i] H; simplify_eq/=; [lia|].
  specialize (IH _ H). lia.
Qed.

(** ** Values of futures *)

Lemma lookup_snoc_bind {A B} (l : list A) (x : A) (h : A -> option B) i :
  (l ++ [x]) !! i ≫= h
  = if decide (i = length l) then h x else l !! i ≫= h.
Proof.
  case_decide as Hi.
  - subst. by rewrite lookup_snoc_length.
  - destruct (decide (i < length l)).
    + by rewrite lookup_app_l.
    + rewrite !lookup_ge_None_2; [done|lia|].
      rewrite length_app. simpl. lia.
Qed.

Lemma lookup_insert_bind {A B} (l : list A) (x y : A) (h : A -> option B) f i :
  l !! f = Some x ->
  <[f := y]> l !! i ≫= h = if decide (i = f) then h y else l !! i ≫= h.
Proof.
  intros Hf. case_decide as Hi.
  - subst. rewrite list_lookup_insert_eq; [done|]. by eapply lookup_lt_Some.
  - by rewrite list_lookup_insert_ne.
Qed.

Lemma value_of_fresh w : value_of (length (tasks w)) w = None.
Proof. unfold value_of. by rewrite lookup_ge_None_2. Qed.

(** A step either leaves the values of all futures as they are and logs no
    [EvSetValue], or fills one empty future and logs it. *)
Lemma step_cmd_values th c ch w w1 cmds :
  step_cmd th c ch w = Next (w1, cmds) ->
  ((forall g, value_of g w1 = value_of g w) /\
   (forall g, total (is_SetValue g) (log w1) = total (is_SetValue g) (log w)) /\
   (forall g v, In (EvSetValue g v) (log w1) -> In (EvSetValue g v) (log w)))
  \/
  (exists f v,
     value_of f w = None /\
     (forall g, value_of g w1 = if decide (g = f) then Some v
                                else value_of g w) /\
     (forall g, total (is_SetValue g) (log w1)
                = (if decide (f = g) then 1 else 0)
                  + total (is_SetValue g) (log w)) /\
     (forall g v', In (EvSetValue g v') (log w1) ->
        (g = f /\ v' = v) \/ In (EvSetValue g v') (log w))).
Proof.
  intros H. destruct c; unfold_ops H; step_split H; step_done H.
  all: try (left; split; [|split]; [done|done|done]).
  all: try (left; split; [|split]; simpl;
            [ intros g; unfold value_of; simpl;
              first [ rewrite lookup_snoc_bind; case_decide;
                      [subst; symmetry; apply value_of_fresh|done]
                    | erewrite lookup_insert_bind by eassumption;
                      case_decide; [subst|done];
                      match goal with
                      | E : tasks _ !! _ = Some _ |- _ => by rewrite E
                      end
                    | done ]
            | done
            | intros g v'; intuition discriminate ]; fail).
  all: right; do 2 eexists; split; [|split; [|split]]; simpl;
       [ first [ unfold value_of;
                 match goal with
                 | E : tasks _ !! _ = Some _ |- _ => rewrite E; simpl
                 end;
                 unfold IsReadyInternal in *;
                 match goal with
                 | |- ?x = None => destruct x; [simpl in *; discriminate|done]
                 end
               | apply value_of_fresh ]
       | intros g; unfold value_of; simpl;
         first [ rewrite lookup_snoc_bind; by case_decide
               | erewrite lookup_insert_bind by eassumption;
                 by case_decide ]
       | intros g; simpl; by case_decide
       | intros g v'; intuition (simplify_eq/=; auto) ].
Qed.


Lemma exec_values a w w' :
  exec a w = Next w' ->
  ((forall g, value_of g w' = value_of g w) /\
   (forall g, total (is_SetValue g) (log w') = total (is_SetValue g) (log w)) /\
   (forall g v, In (EvSetValue g v) (log w') -> In (EvSetValue g v) (log w)))
  \/
  (exists f v,
     value_of f w = None /\
     (forall g, value_of g w' = if decide (g = f) then Some v
                                else value_of g w) /\
     (forall g, total (is_SetValue g) (log w')
                = (if decide (f = g) then 1 else 0)
                  + total (is_SetValue g) (log w)) /\
     (forall g v', In (EvSetValue g v') (log w') ->
        (g = f /\ v' = v) \/ In (EvSetValue g v') (log w))).
Proof.
  intros H. apply exec_inv in H as (c & k & w1 & cmds & _ & H & ->).
  exact (step_cmd_values _ _ _ _ _ _ H).
Qed.

Lemma exec_value a w w' f v :
  exec a w = Next w' -> value_of f w = Some v -> value_of f w' = Some v.
Proof.
  intros H Hv.
  destruct (exec_values _ _ _ H) as [(H1 & _)|(f0 & v0 & Hn & H1 & _)];
    rewrite H1; [done|].
  case_decide; [|done]. subst. congruence.
Qed.

Lemma run_value sched w w' f v :
  run sched w = Next w' -> value_of f w = Some v -> value_of f w' = Some v.
Proof.
  revert w. induction sched as [|a sched IH]; simpl; intros w H Hv.
  - by injection H as <-.
  - apply bind_Next in H as (w1 & H1 & H2). eauto using exec_value.
Qed.

(** Every transition of a future to Ready is in the log, once. *)
Lemma reachable_SetValue ok w f :
  reachable ok w ->
  total (is_SetValue f) (log w)
  = match value_of f w with Some _ => 1 | None => 0 end /\
  forall v, In (EvSetValue f v) (log w) -> value_of f w = Some v.
Proof.
  induction 1 as [|w a w' Hw [IH1 IH2] _ Hex]; [by split|].
  destruct (exec_values _ _ _ Hex)
    as [(H1 & H2 & H3)|(f0 & v0 & Hn & H1 & H2 & H3)].
  - rewrite H1, H2. split; [done|]. intros v Hv. auto.
  - rewrite H1, H2. case_decide as Hf.
    + subst f0. rewrite decide_True by done. rewrite IH1, Hn. split; [done|].
      intros v Hv. destruct (H3 _ _ Hv) as [[_ ->]|Hin]; [done|].
      specialize (IH2 _ Hin). congruence.
    + rewrite decide_False by congruence. split; [done|].
      intros v Hv. destruct (H3 _ _ Hv) as [[-> _]|Hin]; [done|]. auto.
Qed.

(** ** SetValue *)

Lemma SetValue_ready f v1 v2 w :
  value_of f w = Some v1 ->
  SetValue f v2 w = Fail (AssertionFailed A_value_empty).
Proof.
  unfold value_of, SetValue, get_future, get_task, SetValue_locked,
    IsReadyInternal.
  destruct (tasks w !! f) as [T|]; simpl; [|done]. by intros ->.
Qed.

(** C3. Once [SetValue(v1)] has succeeded on a future, the future holds
    [v1], this was its only transition to Ready, a further [SetValue(v2)]
    fails the assertion, and whatever runs afterwards the future still holds
    [v1]. *)
Theorem SetValue_once (w : World) (f : TaskId) (v1 : Val) :
  reachable any_step w ->
  In (EvSetValue f v1) (log w) ->
  value_of f w = Some v1 /\
  total (is_SetValue f) (log w) = 1 /\
  (forall v2, SetValue f v2 w = Fail (AssertionFailed A_value_empty)) /\
  (forall sched w', run sched w = Next w' ->
     value_of f w' = Some v1 /\
     total (is_SetValue f) (log w') = 1 /\
     forall v2, SetValue f v2 w' = Fail (AssertionFailed A_value_empty)).
Proof.
  intros Hw Hin.
  destruct (reachable_SetValue _ _ f Hw) as [Hc Hv].
  specialize (Hv _ Hin). rewrite Hv in Hc.
  repeat split; eauto using SetValue_ready.
  all: pose proof (run_value _ _ _ _ _ H Hv) as Hv'.
  - done.
  - pose proof (run_reachable_from _ _ _ Hw H) as Hw'.
    destruct (reachable_SetValue _ _ f Hw') as [Hc' _].
    by rewrite Hv' in Hc'.
  - eauto using SetValue_ready.
Qed.

Lemma leaf_world_run : run leaf_sched World_init = Next leaf_world.
Proof. vm_compute. reflexivity. Qed.

Lemma leaf_world_reachable : reachable any_step leaf_world.
Proof. exact (run_reachable _ _ leaf_world_run). Qed.

Lemma SetValue_once_witness :
  value_of 0 leaf_world = Some (VInt 7) /\
  total (is_SetValue 0) (log leaf_world) = 1 /\
  (forall v2, SetValue 0 v2 leaf_world = Fail (AssertionFailed A_value_empty)) /\
  (forall sched w', run sched leaf_world = Next w' ->
     value_of 0 w' = Some (VInt 7) /\
     total (is_SetValue 0) (log w') = 1 /\
     forall v2, SetValue 0 v2 w' = Fail (AssertionFailed A_value_empty)).
Proof.
  apply (SetValue_once leaf_world 0 (VInt 7)).
  - exact leaf_world_reachable.
  - vm_compute. tauto.
Defined.

(** ** WaitFor *)




(** ** Threads along a step *)

Ltac step_cases H :=
  match type of H with
  | step_cmd _ ?c _ _ = _ => destruct c
  end; unfold_ops H; step_split H; step_done H.

Lemma Forall_fresh_replicate n s :
  Forall fresh_thread (replicate n [CWorkerThreadRoutine s]).
Proof. apply Forall_replicate. right. eauto. Qed.

Lemma step_cmd_threads th c ch w w1 cmds :
  step_cmd th c ch w = Next (w1, cmds) ->
  exists sp, threads w1 = threads w ++ sp /\ Forall fresh_thread sp.
Proof.
  intros H. step_cases H; simpl.
  all: try (exists []; split; [by rewrite app_nil_r|constructor]).
  all: eexists; split; [reflexivity|].
  all: first [apply Forall_fresh_replicate
             | constructor; [by left|constructor]].
Qed.

Lemma total_fresh (g : Cmd -> nat) sp :
  g (CUser KMain) = 0 -> (forall s, g (CWorkerThreadRoutine s) = 0) ->
  Forall fresh_thread sp -> total (total g) sp = 0.
Proof.
  intros H1 H2. induction 1 as [|st sp [->|[s ->]] _ IH]; simpl; [done|..].
  - rewrite H1. lia.
  - rewrite H2. lia.
Qed.

(** One step, with what it does to the sum of a weight over the threads. *)
Lemma exec_inv_total a w w' :
  exec a w = Next w' ->
  exists c k w1 cmds sp,
    threads w !! a.1 = Some (c :: k) /\
    step_cmd a.1 c a.2 w = Next (w1, cmds) /\
    threads w1 = threads w ++ sp /\ Forall fresh_thread sp /\
    w' = set_threads (<[a.1 := cmds ++ k]> (threads w1)) w1 /\
    forall g, in_threads g w' + g c
              = in_threads g w + total (total g) sp + total g cmds /\
              g c <= in_threads g w.
Proof.
  intros H. apply exec_inv in H as (c & k & w1 & cmds & Hth & H & ->).
  destruct (step_cmd_threads _ _ _ _ _ _ H) as (sp & Hsp & Hfresh).
  exists c, k, w1, cmds, sp. repeat split; try done.
  - unfold in_threads. simpl.
    assert (Hth1 : threads w1 !! a.1 = Some (c :: k)).
    { rewrite Hsp. by apply lookup_app_l_Some. }
    pose proof (total_insert (total g) _ _ _ (cmds ++ k) Hth1) as Hi.
    rewrite Hsp in Hi at 2. rewrite total_app in Hi. simpl in Hi.
    rewrite total_app in Hi. lia.
  - pose proof (total_lookup (total g) _ _ _ Hth) as Hl. simpl in Hl.
    unfold in_threads. lia.
Qed.

(** ** Lookups after an update, by cases *)

Lemma lookup_snoc_decide {A} (l : list A) (x : A) i :
  (l ++ [x]) !! i = if decide (i = length l) then Some x else l !! i.
Proof.
  case_decide as Hi.
  - subst. by rewrite lookup_snoc_length.
  - destruct (decide (i < length l)).
    + by rewrite lookup_app_l.
    + rewrite !lookup_ge_None_2; [done|lia|].
      rewrite length_app. simpl. lia.
Qed.

Lemma lookup_insert_decide {A} (l : list A) (x y : A) f i :
  l !! f = Some x ->
  <[f := y]> l !! i = if decide (i = f) then Some y else l !! i.
Proof.
  intros Hf. case_decide as Hi.
  - subst. rewrite list_lookup_insert_eq; [done|]. by eapply lookup_lt_Some.
  - by rewrite list_lookup_insert_ne.
Qed.

Lemma lookup_length_None {A} (l : list A) : l !! length l = None.
Proof. by apply lookup_ge_None_2. Qed.

Ltac norm_store :=
  unfold value_of, queue_of, started, has_parents in *; simpl in *;
  repeat first
    [ rewrite lookup_snoc_decide
    | erewrite lookup_insert_decide by eassumption
    | rewrite lookup_length_None ];
  repeat case_decide; subst; simpl in *;
  rewrite ?lookup_length_None in *; simpl in *; same_lookup.

(** Uses the lookups that are known, and splits on whether the futures
    at hand are Ready. *)
Ltac norm_values :=
  repeat match goal with
  | E : ?l !! ?i = Some _, H : context [?l !! ?i] |- _ =>
      progress (rewrite E in H; simpl in H)
  | E : ?l !! ?i = Some _ |- context [?l !! ?i] =>
      progress (rewrite E; simpl)
  end;
  unfold IsReadyInternal in *;
  repeat match goal with
  | t : TaskImpl |- _ =>
      lazymatch goal with
      | _ : value_ (future_ t) = _ |- _ => fail
      | _ => destruct (value_ (future_ t)) eqn:?; simpl in *
      end
  end;
  simplify_eq/=.

(** ** Who reads a future *)

Lemma Callback_body_drain cb v body f :
  Callback_body cb v = Next body ->
  total (drain_cmd f) body = 0 /\ total (callback_cmd f) body = 0.
Proof.
  destruct cb; simpl; intros H; step_split H; by simplify_eq/=.
Qed.

Lemma subscriptions_drain t i ps f :
  total (drain_cmd f) (subscriptions t i ps) = 0.
Proof. revert i. induction ps; simpl; auto. Qed.

Lemma subscriptions_callback t i ps f :
  total (callback_cmd f) (subscriptions t i ps) = 0.
Proof. revert i. induction ps; simpl; auto. Qed.

Lemma step_drain th c ch w w1 cmds f D' C' :
  step_cmd th c ch w = Next (w1, cmds) ->
  drain_inv w ->
  D' + drain_cmd f c = in_threads (drain_cmd f) w + total (drain_cmd f) cmds ->
  drain_cmd f c <= in_threads (drain_cmd f) w ->
  C' + callback_cmd f c
    = in_threads (callback_cmd f) w + total (callback_cmd f) cmds ->
  callback_cmd f c <= in_threads (callback_cmd f) w ->
  (value_of f w1 = None -> D' = 0 /\ C' = 0) /\
  D' <= 1 /\
  (value_of f w1 <> None -> queue_of f w1 <> [] -> D' = 1).
Proof.
  intros H [He Hle Hq] Hd Hd' Hc Hc'.
  specialize (He f). specialize (Hle f). specialize (Hq f).
  step_cases H.
  all: repeat match goal with
       | E : Callback_body _ _ = Next _ |- _ =>
           destruct (Callback_body_drain _ _ _ f E) as [? ?]; clear E
       end.
  all: simpl in Hd, Hc, Hd', Hc'; rewrite ?total_app in Hd, Hc;
       simpl in Hd, Hc.
  all: norm_store.
  all: rewrite ?subscriptions_drain in Hd; rewrite ?subscriptions_callback in Hc.
  all: try (intuition (try congruence; lia); fail).
  all: try match goal with
       | H : context [User_return ?k _] |- _ => destruct k; simpl in *
       | H : context [Closure_body ?c] |- _ => destruct c; simpl in *
       end.
  all: norm_values.
  all: intuition (try congruence; lia).
Qed.

Lemma exec_drain_inv a w w' : exec a w = Next w' -> drain_inv w -> drain_inv w'.
Proof.
  intros H Hinv.
  apply exec_inv_total in H
    as (c & k & w1 & cmds & sp & Hth & H & Hsp & Hfresh & -> & Htot).
  assert (Hall : forall f,
    (value_of f w1 = None ->
       in_threads (drain_cmd f)
         (set_threads (<[a.1:=cmds ++ k]> (threads w1)) w1) = 0 /\
       in_threads (callback_cmd f)
         (set_threads (<[a.1:=cmds ++ k]> (threads w1)) w1) = 0) /\
    in_threads (drain_cmd f)
      (set_threads (<[a.1:=cmds ++ k]> (threads w1)) w1) <= 1 /\
    (value_of f w1 <> None -> queue_of f w1 <> [] ->
     in_threads (drain_cmd f)
       (set_threads (<[a.1:=cmds ++ k]> (threads w1)) w1) = 1)).
  { intros f.
    destruct (Htot (drain_cmd f)) as [Hd Hd'].
    destruct (Htot (callback_cmd f)) as [Hc Hc'].
    rewrite (total_fresh _ sp) in Hd by auto.
    rewrite (total_fresh _ sp) in Hc by auto.
    eapply step_drain; eauto; lia. }
  split; intros f; destruct (Hall f) as (H1 & H2 & H3); auto.
Qed.

Lemma reachable_drain_inv ok w : reachable ok w -> drain_inv w.
Proof.
  induction 1; [|by eapply exec_drain_inv].
  split; intros f; try done. unfold in_threads. simpl. lia.
Qed.


(** ** The listeners of a future *)

Lemma flat_map_fresh {A} (g : Cmd -> list A) sp :
  g (CUser KMain) = [] -> (forall s, g (CWorkerThreadRoutine s) = []) ->
  Forall fresh_thread sp -> flat_map (flat_map g) sp = [].
Proof.
  intros H1 H2. induction 1 as [|st sp [->|[s ->]] _ IH]; simpl; [done|..].
  - by rewrite H1, IH.
  - by rewrite H2, IH.
Qed.

Lemma flat_map_length_total {A} (g : Cmd -> list A) (h : Cmd -> nat) ths :
  (forall c, length (g c) <= h c) ->
  length (flat_map (flat_map g) ths) <= total (total h) ths.
Proof.
  intros Hgh.
  assert (Hst : forall st, length (flat_map g st) <= total h st).
  { induction st as [|c st IH]; simpl; [done|].
    rewrite length_app. specialize (Hgh c). lia. }
  induction ths as [|st ths IH]; simpl; [done|].
  rewrite length_app. specialize (Hst st). lia.
Qed.

(** One step, with what it does to a list collected over the threads. *)
Lemma exec_inv_flat a w w' :
  exec a w = Next w' ->
  exists c k w1 cmds,
    threads w !! a.1 = Some (c :: k) /\
    step_cmd a.1 c a.2 w = Next (w1, cmds) /\
    w' = set_threads (<[a.1 := cmds ++ k]> (threads w1)) w1 /\
    (forall g, in_threads g w' + g c
               = in_threads g w + total g cmds
                 + (total (total g) (threads w1) - total (total g) (threads w))
               /\ g c <= in_threads g w) /\
    (forall g : Cmd -> list Callback,
       g (CUser KMain) = [] -> (forall s, g (CWorkerThreadRoutine s) = []) ->
       exists L R,
         flat_threads g w = L ++ g c ++ R /\
         flat_threads g w' = L ++ flat_map g cmds ++ R).
Proof.
  intros H.
  apply exec_inv_total in H
    as (c & k & w1 & cmds & sp & Hth & H & Hsp & Hfresh & -> & Htot).
  exists c, k, w1, cmds. repeat split; try done.
  - destruct (Htot g) as [-> _]. rewrite Hsp, total_app. lia.
  - by destruct (Htot g).
  - intros g Hg1 Hg2.
    exists (flat_map (flat_map g) (take a.1 (threads w))),
           (flat_map g k ++ flat_map (flat_map g) (drop (S a.1) (threads w))).
    unfold flat_threads. simpl. rewrite Hsp.
    pose proof (take_drop_middle _ _ _ Hth) as Hmid.
    assert (Hlen : length (take a.1 (threads w)) = a.1).
    { apply length_take_le. apply lookup_lt_Some in Hth. lia. }
    split.
    + rewrite <- Hmid at 1. rewrite flat_map_app. simpl. by rewrite <- !app_assoc.
    + rewrite <- Hmid at 1. rewrite <- app_assoc. simpl.
      rewrite insert_app_r_alt by lia. rewrite Hlen, Nat.sub_diag. simpl.
      rewrite !flat_map_app. simpl. rewrite !flat_map_app.
      rewrite (flat_map_fresh g sp) by done.
      by rewrite app_nil_r, <- !app_assoc.
Qed.

Lemma total_plus {A} (g h : A -> nat) l :
  total (fun x => g x + h x) l = total g l + total h l.
Proof. induction l; simpl; lia. Qed.

Lemma total_ext {A} (g h : A -> nat) l :
  (forall x, g x = h x) -> total g l = total h l.
Proof. intros H. induction l; simpl; [done|]. by rewrite H, IHl. Qed.

Lemma inflight_length f w :
  length (inflight f w) + in_threads (head_cmd f) w
  <= in_threads (drain_cmd f) w.
Proof.
  unfold inflight, flat_threads, in_threads.
  pose proof (flat_map_length_total (inflight_cmd f)
                (fun c => length (inflight_cmd f c)) (threads w)
                (fun c => le_n _)) as Hl.
  assert (Heq : total (total (drain_cmd f)) (threads w)
                = total (total (fun c => length (inflight_cmd f c)))
                    (threads w)
                  + total (total (head_cmd f)) (threads w)).
  { rewrite <- total_plus. apply total_ext. intros st.
    rewrite <- total_plus. apply total_ext. intros c.
    destruct c as [| |f' [cb|]| | | | | | | | | | | | | |]; simpl; try done;
      by case_decide. }
  lia.
Qed.

Lemma Callback_body_inflight cb v body f :
  Callback_body cb v = Next body ->
  flat_map (inflight_cmd f) body = [].
Proof.
  destruct cb; simpl; intros H; step_split H; by simplify_eq/=.
Qed.

Lemma subscriptions_inflight t i ps f :
  flat_map (inflight_cmd f) (subscriptions t i ps) = [].
Proof. revert i. induction ps; simpl; auto. Qed.

Lemma step_listen_fifo th c ch w w1 cmds f L R :
  step_cmd th c ch w = Next (w1, cmds) ->
  length (L ++ inflight_cmd f c ++ R) + head_cmd f c <= 1 ->
  enqueued f (log w)
    = drained f (log w) ++ (L ++ inflight_cmd f c ++ R) ++ queue_of f w ->
  enqueued f (log w1)
    = drained f (log w1) ++ (L ++ flat_map (inflight_cmd f) cmds ++ R)
      ++ queue_of f w1.
Proof.
  intros H Hlen IH. step_cases H.
  all: repeat match goal with
       | E : Callback_body _ _ = Next _ |- _ =>
           pose proof (Callback_body_inflight _ _ _ f E); clear E
       end.
  all: simpl in Hlen, IH; simpl; rewrite ?flat_map_app; simpl.
  all: norm_store.
  all: rewrite ?subscriptions_inflight.
  all: try match goal with
       | |- context [User_return ?k _] => destruct k; simpl in *
       | |- context [Closure_body ?c] => destruct c; simpl in *
       end.
  all: rewrite ?app_nil_r in *; try done.
  all: repeat match goal with
       | H : flat_map (inflight_cmd _) _ = [] |- _ => rewrite H; clear H
       end.
  all: repeat match goal with
       | E : ?l !! ?i = Some _, H : context [?l !! ?i] |- _ =>
           progress (rewrite E in H; simpl in H)
       | E : ?l !! ?i = Some _ |- context [?l !! ?i] =>
           progress (rewrite E; simpl)
       end.
  all: simpl; try done.
  all: try (rewrite IH, <- ?app_assoc; done).
  all: destruct L; [|rewrite length_app in Hlen; simpl in Hlen; lia];
       destruct R; [|simpl in Hlen; lia]; simpl in *;
       rewrite ?app_nil_r in *; simplify_eq/=.
  all: by rewrite IH, ?E0, <- ?app_assoc.
Qed.

Lemma Callback_body_direct cb0 v body f cb :
  Callback_body cb0 v = Next body -> total (direct_cmd f cb) body = 0.
Proof.
  destruct cb0; simpl; intros H; step_split H; by simplify_eq/=.
Qed.

Lemma subscriptions_direct t i ps f cb :
  total (direct_cmd f cb) (subscriptions t i ps) = 0.
Proof. revert i. induction ps; simpl; auto. Qed.

Lemma step_listen_direct th c ch w w1 cmds f cb C' :
  step_cmd th c ch w = Next (w1, cmds) ->
  C' + direct_cmd f cb c
    = in_threads (direct_cmd f cb) w + total (direct_cmd f cb) cmds ->
  total (is_ready_listen f cb) (log w)
    = total (is_direct_call f cb) (log w) + in_threads (direct_cmd f cb) w ->
  total (is_ready_listen f cb) (log w1)
    = total (is_direct_call f cb) (log w1) + C'.
Proof.
  intros H HC IH. step_cases H.
  all: repeat match goal with
       | E : Callback_body _ _ = Next _ |- _ =>
           pose proof (Callback_body_direct _ _ _ f cb E); clear E
       end.
  all: simpl in HC; simpl; rewrite ?total_app in HC; simpl in HC;
       rewrite ?subscriptions_direct in HC.
  all: try match goal with
       | H : context [User_return ?k _] |- _ => destruct k; simpl in *
       | H : context [Closure_body ?c] |- _ => destruct c; simpl in *
       end.
  all: lia.
Qed.

Lemma step_listen_value th c ch w w1 cmds :
  step_cmd th c ch w = Next (w1, cmds) ->
  (forall th f cb v d, In (EvCall th f cb v d) (log w) ->
     value_of f w = Some v) ->
  forall th f cb v d, In (EvCall th f cb v d) (log w1) ->
     value_of f w1 = Some v.
Proof.
  intros H IH th' f cb v d Hin.
  assert (Hold : In (EvCall th' f cb v d) (log w) -> value_of f w1 = Some v).
  { intros Hin'. specialize (IH _ _ _ _ _ Hin').
    destruct (step_cmd_values _ _ _ _ _ _ H)
      as [(H1 & _)|(f0 & v0 & Hn & H1 & _)]; rewrite H1; [done|].
    case_decide; [|done]. subst. congruence. }
  clear IH. step_cases H.
  all: simpl in Hin; intuition (try discriminate; auto).
  all: simplify_eq/=.
  all: unfold value_of; simpl; rewrite E; simpl; done.
Qed.

Lemma exec_listen_inv a w w' :
  exec a w = Next w' -> drain_inv w -> listen_inv w -> listen_inv w'.
Proof.
  intros H Hd [Hf Hdi Hv].
  apply exec_inv_flat in H
    as (c & k & w1 & cmds & Hth & H & -> & Htot & Hflat).
  split.
  - intros f.
    destruct (Hflat (inflight_cmd f)) as (L & R & HL & HR); [done|done|].
    unfold inflight. rewrite HR.
    change (enqueued f (log w1)
            = drained f (log w1)
              ++ (L ++ flat_map (inflight_cmd f) cmds ++ R)
              ++ queue_of f w1).
    eapply step_listen_fifo; [done| |].
    + pose proof (inflight_length f w) as Hl. unfold inflight in Hl.
      rewrite HL in Hl. pose proof (drain_le _ Hd f).
      destruct (Htot (head_cmd f)) as [_ Hh]. lia.
    + rewrite <- HL. apply Hf.
  - intros f cb.
    destruct (Htot (direct_cmd f cb)) as [Hc _].
    destruct (step_cmd_threads _ _ _ _ _ _ H) as (sp & Hsp & Hfresh).
    assert (Hz : total (total (direct_cmd f cb)) (threads w1)
                 = total (total (direct_cmd f cb)) (threads w)).
    { rewrite Hsp, total_app, (total_fresh _ sp) by auto. lia. }
    change (total (is_ready_listen f cb) (log w1)
            = total (is_direct_call f cb) (log w1)
              + in_threads (direct_cmd f cb)
                  (set_threads (<[a.1:=cmds ++ k]> (threads w1)) w1)).
    eapply step_listen_direct; [done| |apply Hdi]. lia.
  - intros th f cb v d Hin. simpl in Hin.
    exact (step_listen_value _ _ _ _ _ _ H Hv _ _ _ _ _ Hin).
Qed.

Lemma reachable_listen_inv ok w : reachable ok w -> listen_inv w.
Proof.
  induction 1 as [|w a w' Hw IH _ Hex].
  - by split.
  - eapply exec_listen_inv; eauto using reachable_drain_inv.
Qed.

Lemma fanin_mid_run : run fanin_start World_init = Next fanin_mid.
Proof. vm_compute. reflexivity. Qed.

Lemma fanin_world_run : run fanin_finish fanin_mid = Next fanin_world.
Proof. vm_compute. reflexivity. Qed.

Lemma fanin_mid_reachable : reachable any_step fanin_mid.
Proof. exact (run_reachable _ _ fanin_mid_run). Qed.

Lemma fanin_world_reachable : reachable any_step fanin_world.
Proof.
  exact (run_reachable_from _ _ _ fanin_mid_reachable fanin_world_run).
Qed.

Lemma drained_In f l cb :
  In cb (drained f l) -> exists th v, In (EvCall th f cb v true) l.
Proof.
  induction l as [|e l IH]; simpl; [done|]. intros H.
  apply in_app_or in H as [H|H].
  - destruct (IH H) as (th & v & Hin). eauto.
  - destruct e as [| | | |th f' cb' v [|]| | | | | | | | | |]; simpl in H;
      try done.
    case_decide; [|done]. destruct H as [->|[]]. subst. eauto.
Qed.

(** The loop of [CallAllValueListener], run to its end on a queue of
    listeners of the client. *)
Lemma drain_users th f ids : forall w k T v,
  threads w !! th = Some (CCallAllValueListener f None :: k) ->
  tasks w !! f = Some T -> value_ (future_ T) = Some v ->
  onValueAvailable_ (future_ T) = CbUser <$> ids ->
  exists w', run (call_all_sched th (length ids)) w = Next w' /\
    threads w' !! th = Some k /\ queue_of f w' = [] /\
    value_of f w' = Some v /\
    log w'
    = rev ((fun id => EvCall th f (CbUser id) v true) <$> ids) ++ log w.
Proof.
  induction ids as [|id ids IH]; intros w k T v Hth HT Hv Hq.
  - assert (Hlt : th < length (threads w)) by (by eapply lookup_lt_Some).
    simpl. unfold exec. simpl. rewrite Hth. simpl.
    unfold CallAllValueListener, get_future, get_task,
      CallAllValueListener_locked. rewrite HT. simpl. rewrite Hq. simpl.
    eexists. split; [reflexivity|]. simpl.
    rewrite list_lookup_insert_eq by done.
    unfold queue_of, value_of. simpl. rewrite HT. simpl. by rewrite Hq.
  - assert (Hlt : th < length (threads w)) by (by eapply lookup_lt_Some).
    assert (Hflt : f < length (tasks w)) by (by eapply lookup_lt_Some).
    cbn [length call_all_sched run].
    unfold exec at 1. simpl. rewrite Hth. simpl.
    unfold CallAllValueListener, get_future, get_task,
      CallAllValueListener_locked. rewrite HT. simpl. rewrite Hq. simpl.
    unfold set_future. rewrite HT. simpl.
    unfold exec at 1. simpl. rewrite list_lookup_insert_eq by done. simpl.
    unfold call, get_future, get_task, GetValueInternal, IsReadyInternal.
    simpl. rewrite list_lookup_insert_eq by done. simpl. rewrite Hv. simpl.
    unfold exec at 1. simpl.
    rewrite list_lookup_insert_eq by (by rewrite length_insert). simpl.
    rewrite list_insert_insert_eq.
    match goal with
    | |- exists w', run _ ?w3 = _ /\ _ =>
        destruct (IH w3 k
                    (mkTaskImpl (mkFuture (Some v) (CbUser <$> ids))
                       (functor_ T) (scheduler_ T) (isStarted_ T)) v)
          as (w' & Hrun & Hth' & Hq' & Hv' & Hlog)
    end; simpl.
    + rewrite list_insert_insert_eq. by rewrite list_lookup_insert_eq.
    + by rewrite list_lookup_insert_eq.
    + done.
    + done.
    + exists w'. split; [done|]. split; [done|]. split; [done|].
      split; [done|]. rewrite Hlog. simpl. by rewrite <- app_assoc.
Qed.

(** C4. In every reachable state and for every future [f]: the listeners
    the loop of [CallAllValueListener] has called, then the one it holds,
    then the queue are the listeners pushed on [f], in the order they were
    pushed; the loop holds at most one listener; nothing is called while [f]
    is empty, and every call passes the value of [f]; once no thread is in
    the loop on a Ready [f], every listener pushed has been called; a
    registration on a Ready [f] is followed by the call of the listener, as
    the next step of the same thread, and the registrations on a Ready [f]
    are the calls made that way plus the ones about to be made.  The steps
    of [SetValue] and of the loop are as the code has them: [SetValue] on
    an empty [f] stores the value and enters the loop; at its head the loop
    takes the first listener of the queue, and ends when the queue is
    empty; the loop calls the listener it holds with the value of [f], as
    the next step of its thread, and is at its head again once the listener
    has returned.  So a thread at the head of the loop, with listeners of
    the client in the queue that return when they are called, calls every
    one of them, in the order of the queue, and leaves the loop with the
    queue empty. *)
Theorem listeners_once (w : World) (f : TaskId) :
  reachable any_step w ->
  enqueued f (log w) = drained f (log w) ++ inflight f w ++ queue_of f w /\
  length (inflight f w) <= 1 /\
  (value_of f w = None -> drained f (log w) = [] /\ inflight f w = []) /\
  (forall th cb v d, In (EvCall th f cb v d) (log w) ->
     value_of f w = Some v) /\
  (in_threads (drain_cmd f) w = 0 -> value_of f w <> None ->
     queue_of f w = [] /\ enqueued f (log w) = drained f (log w)) /\
  (forall cb,
     total (is_ready_listen f cb) (log w)
     = total (is_direct_call f cb) (log w) + in_threads (direct_cmd f cb) w) /\
  (forall th cb k ch v body,
     threads w !! th = Some (CInvokeOnValueAvailable f (Some cb) :: k) ->
     value_of f w = Some v ->
     Callback_body cb v = Next body ->
     exists w1 w2,
       exec (th, ch) w = Next w1 /\
       threads w1 !! th = Some (CCallback f cb :: k) /\
       queue_of f w1 = queue_of f w /\
       log w1 = EvListen f cb true :: log w /\
       forall ch', exec (th, ch') w1 = Next w2 /\
       threads w2 !! th = Some (body ++ k) /\
       log w2 = EvCall th f cb v false :: log w1) /\
  (forall th cb k ch T,
     threads w !! th = Some (CInvokeOnValueAvailable f (Some cb) :: k) ->
     tasks w !! f = Some T -> value_ (future_ T) = None ->
     exists w1,
       exec (th, ch) w = Next w1 /\
       threads w1 !! th = Some k /\
       queue_of f w1 = queue_of f w ++ [cb] /\
       log w1 = EvListen f cb false :: log w) /\
  (forall th v k ch T,
     threads w !! th = Some (CSetValue f v :: k) ->
     tasks w !! f = Some T -> value_ (future_ T) = None ->
     exists w1,
       exec (th, ch) w = Next w1 /\
       threads w1 !! th = Some (CCallAllValueListener f None :: k) /\
       value_of f w1 = Some v /\
       queue_of f w1 = queue_of f w /\
       log w1 = EvSetValue f v :: log w) /\
  (forall th k ch,
     threads w !! th = Some (CCallAllValueListener f None :: k) ->
     match queue_of f w with
     | cb :: q =>
         exists w1,
           exec (th, ch) w = Next w1 /\
           threads w1 !! th = Some (CCallAllValueListener f (Some cb) :: k) /\
           queue_of f w1 = q /\
           value_of f w1 = value_of f w /\
           log w1 = log w
     | [] =>
         exec (th, ch) w = Next (set_threads (<[th := k]> (threads w)) w)
     end) /\
  (forall th cb k ch,
     threads w !! th = Some (CCallAllValueListener f (Some cb) :: k) ->
     exists v, value_of f w = Some v /\
       forall body, Callback_body cb v = Next body ->
         exists w1,
           exec (th, ch) w = Next w1 /\
           threads w1 !! th
           = Some (body ++ CCallAllValueListener f None :: k) /\
           queue_of f w1 = queue_of f w /\
           log w1 = EvCall th f cb v true :: log w) /\
  (forall th k ids v,
     threads w !! th = Some (CCallAllValueListener f None :: k) ->
     value_of f w = Some v -> queue_of f w = CbUser <$> ids ->
     exists w',
       run (call_all_sched th (length ids)) w = Next w' /\
       threads w' !! th = Some k /\
       queue_of f w' = [] /\
       value_of f w' = Some v /\
       log w'
       = rev ((fun id => EvCall th f (CbUser id) v true) <$> ids)
         ++ log w).
Proof.
  intros Hw.
  pose proof (reachable_listen_inv _ _ Hw) as [Hf Hdi Hv].
  pose proof (reachable_drain_inv _ _ Hw) as [He Hle Hq].
  pose proof (inflight_length f w) as Hlen. specialize (Hle f).
  split; [apply Hf|]. split; [lia|]. split; [|split; [exact (fun th => Hv th f)|]].
  { intros Hn. destruct (He _ Hn) as [Hd0 _]. split.
    - destruct (drained f (log w)) as [|cb l] eqn:E; [done|].
      assert (Hin : In cb (drained f (log w))) by (rewrite E; by left).
      apply drained_In in Hin as (th & v & Hin).
      specialize (Hv _ _ _ _ _ Hin). congruence.
    - destruct (inflight f w); [done|]. simpl in Hlen. lia. }
  split; [|split; [apply Hdi|]].
  { intros Hd0 Hn.
    assert (Hqe : queue_of f w = []).
    { destruct (queue_of f w) eqn:E; [done|].
      specialize (Hq f Hn). rewrite E in Hq. specialize (Hq ltac:(done)). lia. }
    split; [done|]. rewrite Hf, Hqe.
    destruct (inflight f w); [by rewrite !app_nil_r|]. simpl in Hlen. lia. }
  split; [|split; [|split; [|split; [|split]]]].
  - intros th cb k ch v body Hth Hval Hbody.
    unfold value_of in Hval. destruct (tasks w !! f) as [T|] eqn:HT; [|done].
    simpl in Hval.
    assert (Hlt : th < length (threads w)) by (by eapply lookup_lt_Some).
    assert (Hflt : f < length (tasks w)) by (by eapply lookup_lt_Some).
    unfold exec. simpl. rewrite Hth. simpl.
    unfold InvokeOnValueAvailable, get_future, get_task,
      InvokeOnValueAvailable_locked, IsReadyInternal.
    rewrite HT. simpl. rewrite Hval. simpl.
    unfold set_future. rewrite HT. simpl.
    do 2 eexists. split; [reflexivity|]. simpl.
    rewrite list_lookup_insert_eq by done.
    split; [done|]. unfold queue_of. simpl.
    rewrite list_lookup_insert_eq by done. rewrite HT. simpl.
    split; [done|]. split; [done|]. intros ch'.
    unfold call, get_future, get_task, GetValueInternal, IsReadyInternal.
    simpl. rewrite list_lookup_insert_eq by done. simpl. rewrite Hval. simpl.
    rewrite Hbody. simpl. split; [reflexivity|]. simpl.
    rewrite list_lookup_insert_eq; [done|]. by rewrite length_insert.
  - intros th cb k ch T Hth HT Hval.
    assert (Hlt : th < length (threads w)) by (by eapply lookup_lt_Some).
    assert (Hflt : f < length (tasks w)) by (by eapply lookup_lt_Some).
    unfold exec. simpl. rewrite Hth. simpl.
    unfold InvokeOnValueAvailable, get_future, get_task,
      InvokeOnValueAvailable_locked, IsReadyInternal.
    rewrite HT. simpl. rewrite Hval. simpl.
    unfold set_future. rewrite HT. simpl.
    eexists. split; [reflexivity|]. simpl.
    rewrite list_lookup_insert_eq by done.
    split; [done|]. unfold queue_of. simpl.
    rewrite list_lookup_insert_eq by done. rewrite HT. done.
  - intros th v k ch T Hth HT Hval.
    assert (Hlt : th < length (threads w)) by (by eapply lookup_lt_Some).
    assert (Hflt : f < length (tasks w)) by (by eapply lookup_lt_Some).
    unfold exec. simpl. rewrite Hth. simpl.
    unfold SetValue, get_future, get_task, SetValue_locked, IsReadyInternal.
    rewrite HT. simpl. rewrite Hval. simpl.
    unfold set_future. rewrite HT. simpl.
    eexists. split; [reflexivity|]. simpl.
    rewrite list_lookup_insert_eq by done.
    split; [done|]. unfold value_of, queue_of. simpl.
    rewrite list_lookup_insert_eq by done. rewrite HT. done.
  - intros th k ch Hth.
    assert (Hlt : th < length (threads w)) by (by eapply lookup_lt_Some).
    unfold exec. simpl. rewrite Hth. simpl.
    unfold CallAllValueListener, get_future, get_task,
      CallAllValueListener_locked, queue_of, value_of.
    destruct (tasks w !! f) as [T|] eqn:HT; simpl.
    + assert (Hflt : f < length (tasks w)) by (by eapply lookup_lt_Some).
      destruct (onValueAvailable_ (future_ T)) as [|cb q] eqn:Eq; simpl;
        [done|].
      unfold set_future. rewrite HT. simpl.
      eexists. split; [reflexivity|]. simpl.
      rewrite !list_lookup_insert_eq by done. done.
    + exfalso. destruct (He f) as [Hd0 _]; [unfold value_of; by rewrite HT|].
      pose proof (total_lookup (total (drain_cmd f)) _ _ _ Hth) as Hle'.
      simpl in Hle'. rewrite decide_True in Hle' by done.
      unfold in_threads in Hd0. lia.
  - intros th cb k ch Hth.
    assert (Hlt : th < length (threads w)) by (by eapply lookup_lt_Some).
    destruct (value_of f w) as [v|] eqn:Hval.
    2:{ exfalso. destruct (He f Hval) as [Hd0 _].
        pose proof (total_lookup (total (drain_cmd f)) _ _ _ Hth) as Hle'.
        simpl in Hle'. rewrite decide_True in Hle' by done.
        unfold in_threads in Hd0. lia. }
    exists v. split; [done|]. intros body Hbody.
    unfold value_of in Hval. destruct (tasks w !! f) as [T|] eqn:HT; [|done].
    simpl in Hval.
    unfold exec. simpl. rewrite Hth. simpl.
    unfold CallAllValueListener, call, get_future, get_task, GetValueInternal,
      IsReadyInternal.
    rewrite HT. simpl. rewrite Hval. simpl. rewrite Hbody. simpl.
    eexists. split; [reflexivity|]. simpl.
    rewrite list_lookup_insert_eq by done. rewrite <- app_assoc.
    split; [done|]. unfold queue_of. simpl. by rewrite HT.
  - intros th k ids v Hth Hval Hids.
    unfold value_of in Hval. unfold queue_of in Hids.
    destruct (tasks w !! f) as [T|] eqn:HT; [|done]. simpl in Hval.
    by eapply drain_users.
Qed.

(** In the state [listen_world] the worker, thread 1, has stored the value
    of the leaf 0 and is at the head of the loop; the listener 9 is in the
    queue. *)
Lemma listeners_once_witness :
  enqueued 0 (log listen_world)
  = drained 0 (log listen_world) ++ inflight 0 listen_world
    ++ queue_of 0 listen_world /\
  exists w1,
    exec (1, Tick) listen_world = Next w1 /\
    threads w1 !! 1
    = Some [CCallAllValueListener 0 (Some (CbUser 9));
            CFunctorReturned 0 (ClStart 0); CWorkerThreadRoutine 0] /\
    queue_of 0 w1 = [] /\
    value_of 0 w1 = value_of 0 listen_world /\
    log w1 = log listen_world /\
    exists w',
      run (call_all_sched 1 1) listen_world = Next w' /\
      threads w' !! 1
      = Some [CFunctorReturned 0 (ClStart 0); CWorkerThreadRoutine 0] /\
      queue_of 0 w' = [] /\
      value_of 0 w' = Some (VInt 1) /\
      log w' = [EvCall 1 0 (CbUser 9) (VInt 1) true] ++ log listen_world.
Proof.
  destruct (listeners_once listen_world 0)
    as (H1 & _ & _ & _ & _ & _ & _ & _ & _ & H10 & _ & H12).
  { apply (run_reachable listen_sched). vm_compute. reflexivity. }
  split; [exact H1|].
  destruct (H10 1 [CFunctorReturned 0 (ClStart 0); CWorkerThreadRoutine 0]
              Tick eq_refl) as (w1 & Hex & Hth & Hqu & Hva & Hl).
  exists w1. repeat (split; [assumption|]).
  exact (H12 1 [CFunctorReturned 0 (ClStart 0); CWorkerThreadRoutine 0]
           [9] (VInt 1) eq_refl eq_refl eq_refl).
Defined.

(** In that run the listener 9 and the listener of the constructor were
    pushed on node 2 and called in that order by the loop; the listener 10
    came when node 2 was Ready and was called at once by thread 0. *)
Example fanin_listeners :
  enqueued 2 (log fanin_world) = [CbUser 9; CbKeepDeps 2] /\
  drained 2 (log fanin_world) = [CbUser 9; CbKeepDeps 2] /\
  In (EvCall 0 2 (CbUser 10) (VInt 7) false) (log fanin_world).
Proof. vm_compute. tauto. Qed.

(** ** Starting a node, on runs *)

(** One step, as a step of the first command of a thread followed by the
    update of the threads. *)
Lemma exec_inv_abs a w w' :
  exec a w = Next w' ->
  exists c k w1 cmds ths,
    threads w !! a.1 = Some (c :: k) /\
    step_cmd a.1 c a.2 w = Next (w1, cmds) /\
    w' = set_threads ths w1 /\
    forall g, g (CUser KMain) = 0 -> (forall s, g (CWorkerThreadRoutine s) = 0) ->
      total (total g) ths + g c = in_threads g w + total g cmds /\
      g c <= in_threads g w.
Proof.
  intros H.
  apply exec_inv_total in H
    as (c & k & w1 & cmds & sp & Hth & H & Hsp & Hfresh & -> & Htot).
  exists c, k, w1, cmds, (<[a.1:=cmds ++ k]> (threads w1)).
  repeat split; try done.
  - destruct (Htot g) as [Hg _]. unfold in_threads in Hg at 1. simpl in Hg.
    rewrite Hg, (total_fresh _ sp); auto.
  - by destruct (Htot g).
Qed.

Ltac use_total Htot g :=
  let H1 := fresh "Ht" in let H2 := fresh "Hle" in
  destruct (Htot g) as [H1 H2]; [done|done|].

Lemma total_insert_same {A} (g : A -> nat) l i x y :
  l !! i = Some x -> g y = g x -> total g (<[i := y]> l) = total g l.
Proof. intros H Hg. pose proof (total_insert g _ _ _ y H). lia. Qed.

Lemma in_threads_set g ths w :
  in_threads g (set_threads ths w) = total (total g) ths.
Proof. done. Qed.

Ltac norm_flags :=
  repeat match goal with
  | t : TaskImpl |- _ =>
      lazymatch goal with
      | _ : isStarted_ t = _ |- _ => fail
      | _ => destruct (isStarted_ t) eqn:?; simpl in *
      end
  end;
  simplify_eq/=.

(** Sums over a store that was extended or updated. *)
Ltac norm_totals :=
  unfold in_queues, in_pools in *; simpl in *;
  rewrite ?total_app in *; simpl in *;
  repeat match goal with
  | E : ?l !! ?i = Some ?x |- context [total ?g (<[?i := ?y]> ?l)] =>
      let H := fresh "Hins" in
      pose proof (total_insert g l i x y E) as H; simpl in H;
      let n := fresh "n" in
      set (n := total g (<[i := y]> l)) in *; clearbody n
  end;
  repeat match goal with
  | E : ?x = _ :: _, H : context [?x] |- _ =>
      progress (rewrite E in H; simpl in H)
  | E : ?x = [], H : context [?x] |- _ =>
      progress (rewrite E in H; simpl in H)
  end;
  rewrite ?total_app in *; simpl in *.

Lemma total_subscriptions (g : Cmd -> nat) t i ps :
  (forall f cb, g (CInvokeOnValueAvailable f (Some cb)) = 0) ->
  total g (subscriptions t i ps) = 0.
Proof.
  intros Hg. revert i. induction ps as [|p ps IH]; intros i; simpl; [done|].
  by rewrite Hg, IH.
Qed.

(** Splits on the listener that is called, on where user code returns to,
    on the callable a worker runs. *)
Ltac split_bodies :=
  repeat match goal with
  | E : Callback_body ?cb ?v = Next _ |- _ =>
      destruct cb; simpl in E; step_split E; simplify_eq/=
  | H : context [User_return ?k _] |- _ => destruct k; simpl in *
  | H : context [Closure_body ?c] |- _ => destruct c; simpl in *
  | H : context [ClUser <$> ?o] |- _ => destruct o; simpl in *
  | H : context [CbUser <$> ?o] |- _ => destruct o; simpl in *
  | cl : option Closure |- _ => destruct cl as [[|]|]; simpl in *
  end.

Ltac bounds :=
  repeat match goal with
  | E : ?l !! ?i = Some _ |- _ =>
      lazymatch goal with
      | _ : i < length l |- _ => fail
      | _ => pose proof (lookup_lt_Some _ _ _ E)
      end
  end.

Ltac crush_with tac :=
  split_bodies;
  norm_store; tac; norm_totals; simpl in *;
  rewrite ?length_app, ?length_insert in *; simpl in *;
  bounds;
  rewrite ?total_subscriptions in * by (intros; reflexivity);
  repeat case_decide; subst; try lia.

Ltac crush := crush_with ltac:(norm_values; norm_flags).
Ltac crush0 := crush_with idtac.

Lemma exec_start_inv a w w' :
  exec a w = Next w' -> wf w -> start_inv w -> start_inv w'.
Proof.
  intros H Hwf [Hf Hs Hr Ha].
  apply exec_inv_abs in H as (c & k & w1 & cmds & ths & Hth & H & -> & Htot).
  split; intros t; specialize (Hf t); specialize (Hs t); specialize (Hr t);
    specialize (Ha t); rewrite ?in_threads_set.
  - clear Htot. step_cases H; crush.
  - use_total Htot (sched_cmd t). clear Htot.
    step_cases H; crush.
  - use_total Htot (run_cmd t). clear Htot.
    step_cases H; crush.
  - use_total Htot (start_cmd t). clear Htot.
    intros Hlen. destruct Hwf as [Hwf1 Hwf2].
    step_cases H; crush.
Qed.

Lemma reachable_start_inv ok w : reachable ok w -> start_inv w.
Proof.
  induction 1 as [|w a w' Hw IH _ Hex].
  - split; intros t; done.
  - eapply exec_start_inv; eauto using reachable_wf.
Qed.


Lemma total_subscriptions_parent t t' i ps :
  total (parent_cmd t) (subscriptions t' i ps)
  = if decide (t' = t) then length ps else 0.
Proof.
  revert i. induction ps as [|p ps IH]; intros i; simpl.
  - by case_decide.
  - rewrite IH. by case_decide.
Qed.

Ltac norm_bool :=
  repeat match goal with
  | H : (_ =? _)%Z = true |- _ => apply Z.eqb_eq in H
  | H : (_ =? _)%Z = false |- _ => apply Z.eqb_neq in H
  | H : (_ <? _)%Z = true |- _ => apply Z.ltb_lt in H
  | H : (_ <? _)%Z = false |- _ => apply Z.ltb_ge in H
  | H : (_ <? _) = true |- _ => apply Nat.ltb_lt in H
  | H : (_ <? _) = false |- _ => apply Nat.ltb_ge in H
  end.

Lemma exec_deps_inv a w w' :
  exec a w = Next w' -> wf w -> deps_inv w -> deps_inv w'.
Proof.
  intros H [Hwf1 _] [Hc Hz].
  apply exec_inv_abs in H as (c & k & w1 & cmds & ths & Hth & H & -> & Htot).
  split; intros t; specialize (Hc t); specialize (Hz t);
    unfold pend, count_of in *; rewrite ?in_threads_set.
  - use_total Htot (parent_cmd t). clear Htot.
    step_cases H; crush.
    all: rewrite ?total_subscriptions_parent in *.
    all: repeat case_match; simplify_eq/=; norm_bool; bounds; try lia.
  - use_total Htot (parent_cmd t). clear Htot.
    step_cases H; crush.
    all: rewrite ?total_subscriptions_parent in *.
    all: repeat case_match; simplify_eq/=; norm_bool; bounds; try lia.
Qed.

Lemma reachable_deps_inv ok w : reachable ok w -> deps_inv w.
Proof.
  induction 1 as [|w a w' Hw IH _ Hex].
  - split; intros t; done.
  - eapply exec_deps_inv; eauto using reachable_wf.
Qed.

Lemma has_parents_lt t w : wf w -> has_parents t w = true -> t < length (tasks w).
Proof.
  intros [Hwf _]. unfold has_parents.
  destruct (contexts w !! t) eqn:E; [|done]. intros _.
  apply lookup_lt_Some in E. lia.
Qed.









(** The run of the node with two parents keeps the contract on [Start]: the
    client starts the two leaves only. *)
Lemma fanin_mid_contract : reachable no_manual_start fanin_mid.
Proof.
  apply (run_ok_reachable _ fanin_start World_init); [constructor|].
  vm_compute. reflexivity.
Qed.

Lemma fanin_world_contract : reachable no_manual_start fanin_world.
Proof.
  apply (run_ok_reachable _ fanin_finish fanin_mid);
    [exact fanin_mid_contract|].
  vm_compute. reflexivity.
Qed.

(** In that run each of the three nodes was started once, handed to the
    pool once and its producer called once; the listener on the second
    parent saw the count of node 2 reach zero. *)
Example fanin_starts :
  map (fun t => total (is_Start t) (log fanin_world)) [0; 1; 2] = [1; 1; 1] /\
  map (fun t => total (is_Schedule t) (log fanin_world)) [0; 1; 2]
  = [1; 1; 1] /\
  map (fun t => total (is_Producer t) (log fanin_world)) [0; 1; 2]
  = [1; 1; 1] /\
  In (EvZero 2 1) (log fanin_world) /\
  total (is_Zero 2) (log fanin_world) = 1.
Proof. vm_compute. tauto. Qed.

(** ** Commands in threads *)

Lemma in_thread_pos (g : Cmd -> nat) c w :
  in_thread c w -> 0 < g c -> 0 < in_threads g w.
Proof.
  intros (th & st & Hth & Hin) Hg. unfold in_threads.
  pose proof (total_lookup (total g) _ _ _ Hth) as Hle.
  pose proof (total_pos g _ _ Hin Hg). lia.
Qed.


(** One step, and the commands in the threads before and after it. *)
Lemma exec_inv_In a w w' :
  exec a w = Next w' ->
  exists c k w1 cmds ths,
    threads w !! a.1 = Some (c :: k) /\
    step_cmd a.1 c a.2 w = Next (w1, cmds) /\
    w' = set_threads ths w1 /\
    (forall c0, in_thread c0 w' ->
       In c0 cmds \/ in_thread c0 w \/ fresh_thread [c0]) /\
    (forall c0, in_thread c0 w -> c0 = c \/ in_thread c0 w') /\
    (forall c0, In c0 cmds -> in_thread c0 w').
Proof.
  intros H.
  apply exec_inv_total in H
    as (c & k & w1 & cmds & sp & Hth & H & Hsp & Hfresh & -> & _).
  exists c, k, w1, cmds, (<[a.1:=cmds ++ k]> (threads w1)).
  assert (Hlt : a.1 < length (threads w)) by (by eapply lookup_lt_Some).
  repeat split; try done.
  - intros c0 (th & st & Hst & Hin). simpl in Hst. rewrite Hsp in Hst.
    destruct (decide (th = a.1)) as [->|Hne].
    + rewrite list_lookup_insert_eq in Hst
        by (rewrite length_app; lia).
      injection Hst as <-. apply in_app_or in Hin as [Hin|Hin]; [by left|].
      right. left. exists a.1, (c :: k). split; [done|by right].
    + rewrite list_lookup_insert_ne in Hst by done.
      apply lookup_app_Some in Hst as [Hst|[_ Hst]].
      * right. left. by exists th, st.
      * right. right.
        assert (Hf : fresh_thread st) by (by eapply Forall_lookup_1).
        destruct Hf as [->|[s ->]]; destruct Hin as [<-|[]];
          [by left|right; eauto].
  - intros c0 (th & st & Hst & Hin).
    destruct (decide (th = a.1)) as [->|Hne].
    + rewrite Hth in Hst. injection Hst as <-.
      destruct Hin as [<-|Hin]; [by left|]. right.
      exists a.1, (cmds ++ k). simpl. split; [|apply in_or_app; by right].
      rewrite Hsp. apply list_lookup_insert_eq. rewrite length_app. lia.
    + right. exists th, st. simpl. split; [|done].
      rewrite list_lookup_insert_ne by done. rewrite Hsp.
      by apply lookup_app_l_Some.
  - intros c0 Hin. exists a.1, (cmds ++ k). simpl.
    split; [|apply in_or_app; by left].
    rewrite Hsp. apply list_lookup_insert_eq. rewrite length_app. lia.
Qed.

(** ** What a step does to the log, to the queues and to the arrays *)

Ltac use_lookups :=
  repeat match goal with
  | E : ?x = Some _ |- context [?x] => rewrite E
  | E : ?x = _ :: _ |- context [?x] => rewrite E
  end; simpl.

Lemma step_cmd_log th c ch w w1 cmds :
  step_cmd th c ch w = Next (w1, cmds) -> exists l, log w1 = l ++ log w.
Proof.
  intros H. step_cases H; simpl.
  all: first [by exists [] | by eexists [_] | by eexists [_; _]
             | by eexists [_; _; _]].
Qed.

Lemma step_cmd_log_In th c ch w w1 cmds e :
  step_cmd th c ch w = Next (w1, cmds) -> In e (log w) -> In e (log w1).
Proof.
  intros H Hin. destruct (step_cmd_log _ _ _ _ _ _ H) as [l ->].
  apply in_or_app. by right.
Qed.


Lemma step_cmd_queue_new th c ch w w1 cmds f cb :
  step_cmd th c ch w = Next (w1, cmds) ->
  In cb (queue_of f w1) ->
  In cb (queue_of f w) \/ c = CInvokeOnValueAvailable f (Some cb).
Proof.
  intros H. step_cases H; norm_store; auto.
  all: use_lookups; intros Hin; try (by left).
  all: try (apply in_app_or in Hin as [Hin|[<-|[]]]; by auto).
  auto.
Qed.

(** A listener leaves a queue when the loop of [CallAllValueListener]
    takes it. *)
Lemma step_cmd_queue_pop th c ch w w1 cmds f cb :
  step_cmd th c ch w = Next (w1, cmds) ->
  In cb (queue_of f w) ->
  In cb (queue_of f w1) \/
  (c = CCallAllValueListener f None /\
   cmds = [CCallAllValueListener f (Some cb)]).
Proof.
  intros H. step_cases H; norm_store; auto.
  all: use_lookups; intros Hin; try (by left).
  all: try (left; apply in_or_app; by left).
  destruct Hin as [->|Hin]; auto.
Qed.





Lemma subscriptions_inv t j ps c :
  In c (subscriptions t j ps) ->
  exists i p, ps !! i = Some p /\
    c = CInvokeOnValueAvailable p (Some (CbParent t (j + i) p)).
Proof.
  revert j. induction ps as [|q ps IH]; intros j; simpl; [done|].
  intros [<-|Hin].
  - exists 0, q. by rewrite Nat.add_0_r.
  - destruct (IH _ Hin) as (i & p & Hp & ->). exists (S i), p.
    split; [done|]. by replace (j + S i) with (S j + i) by lia.
Qed.






Lemma in_thread_set c ths w :
  in_thread c (set_threads ths w)
  <-> exists th st, ths !! th = Some st /\ In c st.
Proof. done. Qed.

Lemma stage_set_threads t i p w ths :
  (forall c, in_thread c w -> in_thread c (set_threads ths w)) ->
  stage t i p w -> stage t i p (set_threads ths w).
Proof.
  intros Hin. unfold stage.
  intros [H|[H|[H|[H|[H|H]]]]]; auto 10.
Qed.

Lemma step_cmd_Invoke th f cb ch w w1 cmds :
  step_cmd th (CInvokeOnValueAvailable f (Some cb)) ch w = Next (w1, cmds) ->
  In cb (queue_of f w1) \/ cmds = [CCallback f cb].
Proof.
  intros H. unfold_ops H; step_split H; step_done H.
  all: first [by right | left].
  unfold queue_of. simpl.
  rewrite list_lookup_insert_eq by (by eapply lookup_lt_Some). simpl.
  apply in_or_app. right. by left.
Qed.



(** ** The invariant on parents is kept by every step *)



(** ** The producer of a composite node *)








(** In that run thread 1 is about to call the producer of node 2 in the
    state [fanin_mid], and calls it with the handles of the nodes 0 and 1,
    which hold 1 and 5. *)
Example fanin_producer :
  threads fanin_mid !! 1
  = Some [CInvokeFunctor 2; CFunctorReturned 0 (ClStart 2);
          CWorkerThreadRoutine 0] /\
  InvokeFunctor 2 fanin_mid
  = Next (add_log (EvProducer 2 [Some 0; Some 1]) fanin_mid,
          [CUser (KProducer 2)]) /\
  value_of 0 fanin_mid = Some (VInt 1) /\
  value_of 1 fanin_mid = Some (VInt 5) /\
  In (EvProducer 2 [Some 0; Some 1]) (log fanin_world).
Proof. vm_compute. tauto. Qed.

(** ** The pool, on runs *)

Example idle_world_run :
  run idle_sched World_init = Next idle_world /\
  log idle_world
  = [EvDestroyed 0; EvDestroy 0; EvSchedule 0 (Some (ClUser 1))] /\
  threads idle_world = [[CUser KMain]] /\
  (taskQueue_ <$> schedulers idle_world !! 0) = Some [Some (ClUser 1)].
Proof. vm_compute. tauto. Qed.

Example drain_world_run :
  run drain_sched World_init = Next drain_world /\
  log drain_world
  = [EvDestroyed 0; EvDone 0 (ClUser 1); EvPop 0 (Some (ClUser 1));
     EvDestroy 0; EvSchedule 0 (Some (ClUser 1))] /\
  threads drain_world = [[CUser KMain]; []].
Proof. vm_compute. tauto. Qed.

Lemma Forall_lt_seq a n : Forall (fun th => th < a + n) (seq a n).
Proof. apply Forall_forall. intros x Hx. apply elem_of_seq in Hx. lia. Qed.

Lemma step_cmd_queue_ok th c ch w w1 cmds :
  step_cmd th c ch w = Next (w1, cmds) ->
  (forall s sch, schedulers w !! s = Some sch -> queue_ok w s sch) ->
  (forall s, length (schedulers w) <= s -> none_ok w s) ->
  (forall s sch, schedulers w1 !! s = Some sch -> queue_ok w1 s sch) /\
  (forall s, length (schedulers w1) <= s -> none_ok w1 s).
Proof.
  intros H Hq Hn. unfold queue_ok, none_ok in *.
  step_cases H; simpl in *; try (by split).
  all: split; [intros s0 sch0 Hs0|intros s0 Hs0].
  all: rewrite ?length_app, ?length_insert in *; simpl in *.
  all: lookup_cases; simpl.
  all: try (specialize (Hn s0 ltac:(lia))).
  all: repeat match goal with
       | E : schedulers _ !! ?s = Some ?x |- _ =>
           lazymatch goal with
           | _ : taskCount_ x = _ |- _ => fail
           | _ => let Hx := fresh "Hx" in
                  pose proof (Hq _ _ E) as Hx;
                  destruct Hx as (? & ? & ? & ?)
           end
       end.
  all: repeat case_decide; subst; simpl in *; try done.
  all: rewrite ?app_nil_r, ?length_replicate in *.
  all: repeat match goal with H : _ /\ _ |- _ => destruct H end.
  all: repeat split; try done; try lia.
  all: try (eapply Forall_impl; [eassumption|]; simpl; intros; lia).
  all: try apply Forall_lt_seq.
  all: try (destruct (Hn _ (Nat.le_refl _)) as (Hn1 & Hn2 & Hn3);
            by rewrite ?Hn1, ?Hn2, ?Hn3).
  all: bounds; try lia.
  all: repeat match goal with
       | E : taskQueue_ ?p = _, H : context [taskQueue_ ?p] |- _ =>
           rewrite E in H; simpl in H
       end.
  all: rewrite ?length_app; simpl; try lia.
  all: try (by rewrite <- ?app_assoc; simpl; f_equal).
  rewrite H2. by rewrite <- app_assoc.
Qed.

(** A step makes a pool, or leaves the pools and their workers as they
    are and starts at most a thread of the client. *)
Lemma step_cmd_workers th c ch w w1 cmds :
  step_cmd th c ch w = Next (w1, cmds) ->
  (exists n k, c = CUser k /\ cmds = [CUser k] /\
     w1 = (ParallelTaskScheduler_ctor n w).1) \/
  (length (schedulers w1) = length (schedulers w) /\
   (forall s, workers_of s w1 = workers_of s w) /\
   (threads w1 = threads w \/ threads w1 = threads w ++ [[CUser KMain]])).
Proof.
  intros H. unfold workers_of. step_cases H; simpl.
  all: try (left; do 2 eexists; by repeat split).
  all: right; rewrite ?length_insert; split; [done|]; split; [|by auto].
  all: try done.
  all: intros s0; destruct (decide (s0 = s)) as [->|Hne];
    [ rewrite list_lookup_insert_eq by (by eapply lookup_lt_Some);
      by rewrite E
    | by rewrite list_lookup_insert_ne ].
Qed.

Lemma begun_app s l l0 : begun s l0 = true -> begun s (l ++ l0) = true.
Proof.
  intros H. induction l as [|e l IH]; simpl; [done|].
  destruct e; try done. rewrite IH. apply orb_true_r.
Qed.

Lemma early_app s l l0 : begun s l0 = true -> early s (l ++ l0) = early s l0.
Proof.
  intros H. induction l as [|e l IH]; simpl; [done|].
  rewrite IH. destruct e; rewrite ?app_nil_r; try done.
  case_decide; rewrite ?app_nil_r; try done.
  by rewrite begun_app, app_nil_r.
Qed.

Lemma popped_app s l l0 : exists r, popped s (l ++ l0) = popped s l0 ++ r.
Proof.
  induction l as [|e l [r IH]]; simpl.
  - exists []. by rewrite app_nil_r.
  - rewrite IH. eexists. by rewrite <- app_assoc.
Qed.

(** The callables handed over before the destructor began are the first
    of those handed over, and all of them while the pool is running. *)
Lemma early_submitted s l :
  exists r, submitted s l = early s l ++ r /\ (begun s l = false -> r = []).
Proof.
  induction l as [|e l (r & IH1 & IH2)]; simpl; [by exists []|].
  destruct e; rewrite ?app_nil_r; eauto.
  - case_decide; rewrite ?app_nil_r; eauto.
    destruct (begun s l) eqn:Hb.
    + rewrite app_nil_r, IH1. eexists. split; [by rewrite <- app_assoc|done].
    + rewrite (IH2 eq_refl), app_nil_r in IH1. rewrite IH1.
      exists []. by rewrite app_nil_r.
  - exists r. split; [done|]. intros Hb. apply orb_false_elim in Hb as [_ Hb].
    auto.
Qed.

Lemma exec_pool_running a w w' s f :
  exec a w = Next w' ->
  total (is_pop s f) (log w)
  = total (is_done s f) (log w) + in_threads (running_cmd s f) w ->
  total (is_pop s f) (log w')
  = total (is_done s f) (log w') + in_threads (running_cmd s f) w'.
Proof.
  intros H IH.
  apply exec_inv_abs in H as (c & k & w1 & cmds & ths & Hth & H & -> & Htot).
  rewrite in_threads_set. use_total Htot (running_cmd s f). clear Htot.
  step_cases H; crush0.
Qed.

Lemma workers_of_ctor n w s :
  workers_of s (ParallelTaskScheduler_ctor n w).1
  = if decide (s = length (schedulers w)) then seq (length (threads w)) n
    else workers_of s w.
Proof.
  unfold workers_of. simpl. rewrite lookup_snoc_decide.
  by case_decide.
Qed.

Lemma workers_of_lt s w th :
  In th (workers_of s w) -> s < length (schedulers w).
Proof.
  unfold workers_of. destruct (schedulers w !! s) eqn:E; [|done].
  intros _. by eapply lookup_lt_Some.
Qed.

Lemma step_cmd_workers_pres th c ch w w1 cmds s t :
  step_cmd th c ch w = Next (w1, cmds) ->
  In t (workers_of s w) -> In t (workers_of s w1).
Proof.
  intros H Hin.
  destruct (step_cmd_workers _ _ _ _ _ _ H)
    as [(n & k & -> & -> & ->)|(_ & -> & _)]; [|done].
  rewrite workers_of_ctor. case_decide; [|done].
  apply workers_of_lt in Hin. lia.
Qed.

Lemma step_cmd_workers_new th c ch w w1 cmds s t :
  step_cmd th c ch w = Next (w1, cmds) ->
  In t (workers_of s w1) ->
  In t (workers_of s w) \/
  (s = length (schedulers w) /\ length (threads w) <= t /\
   threads w1 !! t = Some [CWorkerThreadRoutine s]).
Proof.
  intros H Hin.
  destruct (step_cmd_workers _ _ _ _ _ _ H)
    as [(n & k & -> & -> & ->)|(_ & Hw & _)]; [|left; by rewrite <- Hw].
  rewrite workers_of_ctor in Hin. case_decide; [|by left]. right.
  apply in_seq in Hin. split; [done|]. split; [lia|]. simpl.
  rewrite lookup_app_r by lia. apply lookup_replicate. split; [by subst|lia].
Qed.

Lemma step_cmd_spawned th c ch w w1 cmds t st :
  step_cmd th c ch w = Next (w1, cmds) ->
  length (threads w) <= t -> threads w1 !! t = Some st ->
  st = [CUser KMain] \/
  (st = [CWorkerThreadRoutine (length (schedulers w))] /\
   In t (workers_of (length (schedulers w)) w1)).
Proof.
  intros H Hle Hst.
  destruct (step_cmd_workers _ _ _ _ _ _ H)
    as [(n & k & -> & -> & ->)|(_ & _ & [Heq|Heq])].
  - right. simpl in Hst. rewrite lookup_app_r in Hst by lia.
    apply lookup_replicate in Hst as [-> Hlt]. split; [done|].
    rewrite workers_of_ctor, decide_True by done. apply in_seq. lia.
  - rewrite Heq in Hst. apply lookup_lt_Some in Hst. lia.
  - rewrite Heq in Hst. rewrite lookup_app_r in Hst by lia.
    destruct (t - length (threads w)); simplify_eq/=. by left.
Qed.

Lemma step_cmd_schedulers_le th c ch w w1 cmds :
  step_cmd th c ch w = Next (w1, cmds) ->
  length (schedulers w) <= length (schedulers w1).
Proof.
  intros H.
  destruct (step_cmd_workers _ _ _ _ _ _ H)
    as [(n & k & -> & -> & ->)|(-> & _)]; [|done].
  simpl. rewrite length_app. lia.
Qed.

(** The commands of a pool come from commands of that pool. *)
Lemma step_cmd_owner th c ch w w1 cmds c0 s :
  step_cmd th c ch w = Next (w1, cmds) ->
  In c0 cmds -> owner c0 = Some s -> owner c = Some s.
Proof.
  intros H Hin Ho. step_cases H; split_bodies.
  all: repeat match goal with
       | H : In _ (_ ++ _) |- _ => apply in_app_or in H as [H|H]
       | H : In _ (subscriptions _ _ _) |- _ =>
           apply subscriptions_inv in H as (?i & ?p & ?Hp & ->)
       | H : In _ (_ :: _) |- _ => destruct H as [<-|H]
       | H : In _ [] |- _ => destruct H
       | H : _ = ?y \/ _ |- _ => is_var y; destruct H as [<-|H]
       | H : False |- _ => destruct H
       end; simplify_eq/=; done.
Qed.

Lemma step_cmd_routine th s ch w w1 cmds :
  step_cmd th (CWorkerThreadRoutine s) ch w = Next (w1, cmds) ->
  (cmds = [] /\ w1 = w /\
   exists sch, schedulers w !! s = Some sch /\
     isRunning_ sch = false /\ taskCount_ sch = 0%Z) \/
  last cmds = Some (CWorkerThreadRoutine s).
Proof.
  intros H. unfold_ops H; step_split H; step_done H; [|by right].
  left. repeat split. eexists. split; [done|].
  apply andb_true_iff in E1 as [E1 E2]. apply negb_true_iff in E1.
  apply Z.eqb_eq in E2. done.
Qed.

Lemma step_cmd_Join th c ch w w1 cmds s ths :
  step_cmd th c ch w = Next (w1, cmds) ->
  In (CJoin s ths) cmds ->
  (c = CDestroy s /\ ths = workers_of s w /\ s < length (schedulers w)) \/
  (exists t, c = CJoin s (t :: ths) /\
     (threads w !! t = Some [] \/ threads w !! t = None)).
Proof.
  intros H Hin. step_cases H; split_bodies.
  all: repeat match goal with
       | H : In _ (_ ++ _) |- _ => apply in_app_or in H as [H|H]
       | H : In _ (subscriptions _ _ _) |- _ =>
           apply subscriptions_inv in H as (?i & ?p & ?Hp & ?)
       | H : In _ (_ :: _) |- _ => destruct H as [H|H]
       | H : In _ [] |- _ => destruct H
       | H : _ = _ \/ _ |- _ => destruct H as [H|H]
       | H : False |- _ => destruct H
       end; simplify_eq/=.
  - left. unfold workers_of. rewrite E. repeat split.
    by eapply lookup_lt_Some.
  - right. eexists. split; [done|]. by left.
  - right. eexists. split; [done|]. by right.
Qed.

Lemma step_cmd_EvDestroyed th c ch w w1 cmds s :
  step_cmd th c ch w = Next (w1, cmds) ->
  In (EvDestroyed s) (log w1) ->
  In (EvDestroyed s) (log w) \/ c = CJoin s [].
Proof.
  intros H. step_cases H; simpl; auto.
  all: intros Hin;
    repeat match goal with
    | Hin : _ \/ _ |- _ => destruct Hin as [Hin|Hin]
    end; simplify_eq; auto.
Qed.

(** One step, thread by thread. *)
Lemma exec_inv_at a w w' :
  exec a w = Next w' ->
  exists c k w1 cmds ths,
    threads w !! a.1 = Some (c :: k) /\
    step_cmd a.1 c a.2 w = Next (w1, cmds) /\
    w' = set_threads ths w1 /\
    length ths = length (threads w1) /\
    ths !! a.1 = Some (cmds ++ k) /\
    (forall th, th <> a.1 -> ths !! th = threads w1 !! th) /\
    (forall th, th < length (threads w) -> threads w1 !! th = threads w !! th).
Proof.
  intros H.
  apply exec_inv_total in H
    as (c & k & w1 & cmds & sp & Hth & H & Hsp & Hfresh & -> & _).
  exists c, k, w1, cmds, (<[a.1:=cmds ++ k]> (threads w1)).
  assert (Hlt : a.1 < length (threads w)) by (by eapply lookup_lt_Some).
  repeat split; try done.
  - by rewrite length_insert.
  - apply list_lookup_insert_eq. rewrite Hsp, length_app. lia.
  - intros th Hne. by rewrite list_lookup_insert_ne.
  - intros th Hth'. rewrite Hsp. by rewrite lookup_app_l.
Qed.

(** ** The invariant on pools is kept by every step *)

Lemma exec_pool_inv a w w' :
  exec a w = Next w' -> pool_inv w -> pool_inv w'.
Proof.
  intros Hex [Hq Hn Hr Ho Hl Hx Hj Hd].
  pose proof (fun s f => exec_pool_running _ _ _ s f Hex (Hr s f)) as Hr'.
  apply exec_inv_at in Hex
    as (c & k & w1 & cmds & ths & Hth & H & -> & Hlen & Ha & Hne & Hold).
  destruct (step_cmd_queue_ok _ _ _ _ _ _ H Hq Hn) as [Hq1 Hn1].
  destruct (step_cmd_log _ _ _ _ _ _ H) as [l Hlog].
  pose proof (step_cmd_schedulers_le _ _ _ _ _ _ H) as Hsl.
  assert (Hlt : a.1 < length (threads w)) by (by eapply lookup_lt_Some).
  assert (Hwlt : forall s th, In th (workers_of s w) ->
                   th < length (threads w)).
  { intros s th. unfold workers_of.
    destruct (schedulers w !! s) as [sch|] eqn:E; [|done].
    destruct (Hq _ _ E) as (_ & _ & _ & HF). rewrite Forall_forall in HF.
    intros Hin. apply HF. by apply list_elem_of_In. }
  assert (Hex' : forall th, exited th w -> exited th (set_threads ths w1)).
  { intros th Hth'. unfold exited in *. simpl.
    assert (th <> a.1) by (intros ->; congruence).
    rewrite Hne by done. rewrite Hold; [done|]. by eapply lookup_lt_Some. }
  assert (Hcases : forall th st, ths !! th = Some st ->
            (th = a.1 /\ st = cmds ++ k) \/
            (th <> a.1 /\ threads w !! th = Some st) \/
            (length (threads w) <= th /\ threads w1 !! th = Some st)).
  { intros th st Hst.
    destruct (decide (th = a.1)) as [->|Hn'];
      [left; split; [done|congruence]|].
    right. rewrite Hne in Hst by done.
    destruct (decide (th < length (threads w)));
      [left; by rewrite <- Hold|right; split; [lia|done]]. }
  assert (Hcin : forall c0, In c0 (c :: k) -> in_thread c0 w).
  { intros c0 Hin. by exists a.1, (c :: k). }
  split.
  - intros s sch Hs. destruct (Hq1 _ _ Hs) as (? & ? & ? & HF).
    repeat split; try done. simpl. by rewrite Hlen.
  - exact Hn1.
  - exact Hr'.
  - intros th st c0 s Hst Hin Hown. simpl in Hst.
    change (In th (workers_of s w1)).
    destruct (Hcases _ _ Hst) as [[-> ->]|[[Hn' Hst']|[Hle Hst']]].
    + eapply step_cmd_workers_pres; [done|].
      apply in_app_or in Hin as [Hin|Hin].
      * eapply (Ho a.1 _ c); [done|by left|]. by eapply step_cmd_owner.
      * eapply (Ho a.1 _ c0); [done|by right|done].
    + eapply step_cmd_workers_pres; [done|]. by eapply Ho.
    + destruct (step_cmd_spawned _ _ _ _ _ _ _ _ H Hle Hst') as [->|[-> Hin']];
        destruct Hin as [<-|[]]; [done|].
      simpl in Hown. by injection Hown as <-.
  - intros s th st Hin Hst. simpl in Hst.
    change (In th (workers_of s w1)) in Hin.
    destruct (step_cmd_workers_new _ _ _ _ _ _ _ _ H Hin)
      as [Hin'|(-> & Hle & Hnew)].
    + specialize (Hwlt _ _ Hin').
      destruct (Hcases _ _ Hst) as [[-> ->]|[[Hn' Hst']|[Hle Hst']]];
        [|by eapply Hl|lia].
      destruct (Hl _ _ _ Hin' Hth) as [|Hlast]; [done|].
      destruct k as [|c1 k].
      * simpl in Hlast. injection Hlast as ->. rewrite app_nil_r.
        destruct (step_cmd_routine _ _ _ _ _ _ H) as [(-> & _)|]; auto.
      * right. rewrite last_app.
        change (last (c1 :: k) = Some (CWorkerThreadRoutine s)) in Hlast.
        by rewrite Hlast.
    + assert (th <> a.1) by lia. rewrite Hne in Hst by done.
      rewrite Hnew in Hst. injection Hst as <-. by right.
  - intros s th Hin Hexd. unfold exited in Hexd. simpl in Hexd.
    change (In th (workers_of s w1)) in Hin.
    change (log (set_threads ths w1)) with (log w1).
    destruct (step_cmd_workers_new _ _ _ _ _ _ _ _ H Hin)
      as [Hin'|(-> & Hle & Hnew)].
    + destruct (Hcases _ _ Hexd) as [[-> Hnil]|[[Hn' Hst']|[Hle Hst']]].
      * symmetry in Hnil. apply app_eq_nil in Hnil as [-> ->].
        destruct (Hl _ _ _ Hin' Hth) as [|Hlast]; [done|].
        simpl in Hlast. injection Hlast as ->.
        destruct (step_cmd_routine _ _ _ _ _ _ H)
          as [(_ & -> & sch & Hs & Hrun & Hcnt)|Hlast]; [|done].
        destruct (Hq _ _ Hs) as (Hc & Hb & Hf & _).
        split; [rewrite Hrun in Hb; by destruct (begun s (log w))|].
        destruct (taskQueue_ sch) eqn:Eq; [|simpl in Hc; lia].
        rewrite app_nil_r in Hf.
        destruct (early_submitted s (log w)) as (r & Hr1 & _).
        rewrite <- Hf, Hr1, length_app. lia.
      * destruct (Hx _ _ Hin' Hst') as [Hb Hle]. rewrite Hlog.
        split; [by apply begun_app|]. rewrite early_app by done.
        destruct (popped_app s l (log w)) as [r ->]. rewrite length_app. lia.
      * specialize (Hwlt _ _ Hin'). lia.
    + assert (th <> a.1) by lia. rewrite Hne, Hnew in Hexd by done. done.
  - intros s ths0 (th1 & st & Hst & Hin). simpl in Hst.
    change (length (schedulers (set_threads ths w1)))
      with (length (schedulers w1)).
    assert (Hgen : s < length (schedulers w) ->
              (forall th, In th (workers_of s w) ->
                 In th ths0 \/ exited th w) ->
              s < length (schedulers w1) /\
              forall th, In th (workers_of s (set_threads ths w1)) ->
                In th ths0 \/ exited th (set_threads ths w1)).
    { intros Hs Hall. split; [lia|]. intros th Hin2.
      change (In th (workers_of s w1)) in Hin2.
      destruct (step_cmd_workers_new _ _ _ _ _ _ _ _ H Hin2)
        as [Hin'|(-> & _)]; [|lia].
      destruct (Hall _ Hin') as [|He]; [by left|right; by apply Hex']. }
    destruct (Hcases _ _ Hst) as [[-> ->]|[[Hn' Hst']|[Hle Hst']]].
    + apply in_app_or in Hin as [Hin|Hin].
      * destruct (step_cmd_Join _ _ _ _ _ _ _ _ H Hin)
          as [(-> & -> & Hs)|(t & -> & Ht)].
        -- apply Hgen; [done|]. intros; by left.
        -- destruct (Hj s (t :: ths0)) as [Hs Hall];
             [apply Hcin; by left|].
           apply Hgen; [done|]. intros th Hin2.
           destruct (Hall _ Hin2) as [[<-|]|]; auto.
           right. destruct Ht as [Ht|Ht]; [done|].
           apply Hwlt in Hin2. apply lookup_ge_None in Ht. lia.
      * destruct (Hj s ths0) as [Hs Hall]; [apply Hcin; by right|].
        by apply Hgen.
    + destruct (Hj s ths0) as [Hs Hall]; [by exists th1, st|]. by apply Hgen.
    + destruct (step_cmd_spawned _ _ _ _ _ _ _ _ H Hle Hst') as [->|[-> _]];
        by destruct Hin as [|[]].
  - intros s Hin. change (In (EvDestroyed s) (log w1)) in Hin.
    change (length (schedulers (set_threads ths w1)))
      with (length (schedulers w1)).
    assert (Hgen : s < length (schedulers w) ->
              (forall th, In th (workers_of s w) -> exited th w) ->
              s < length (schedulers w1) /\
              forall th, In th (workers_of s (set_threads ths w1)) ->
                exited th (set_threads ths w1)).
    { intros Hs Hall. split; [lia|]. intros th Hin2.
      change (In th (workers_of s w1)) in Hin2.
      destruct (step_cmd_workers_new _ _ _ _ _ _ _ _ H Hin2)
        as [Hin'|(-> & _)]; [|lia].
      by apply Hex', Hall. }
    destruct (step_cmd_EvDestroyed _ _ _ _ _ _ _ H Hin) as [Hin'| ->].
    + destruct (Hd _ Hin') as [Hs Hall]. by apply Hgen.
    + destruct (Hj s []) as [Hs Hall]; [apply Hcin; by left|].
      apply Hgen; [done|]. intros th Hin2. by destruct (Hall _ Hin2) as [[]|].
Qed.

Lemma reachable_pool_inv ok w : reachable ok w -> pool_inv w.
Proof.
  induction 1 as [|w a w' Hw IH _ Hex]; [|by eapply exec_pool_inv].
  split; simpl; try done.
  - intros th st c s Hth Hin.
    destruct th as [|[|]]; simplify_eq/=. by destruct Hin as [<-|[]].
  - intros s ths (th & st & Hth & Hin).
    destruct th as [|[|]]; simplify_eq/=. by destruct Hin as [|[]].
Qed.

Lemma in_threads_zero (g : Cmd -> nat) w :
  (forall th st c, threads w !! th = Some st -> In c st -> g c = 0) ->
  in_threads g w = 0.
Proof.
  intros Hg. unfold in_threads. apply total_zero. intros st Hin.
  apply list_elem_of_In, list_elem_of_lookup_1 in Hin as [th Hth].
  apply total_zero. intros c Hc. eauto.
Qed.

(** X1. Once the destructor of a pool with at least one worker is about to
    return, whatever the client and the workers did: every worker has
    returned from its routine, every callable handed to the pool before the
    destructor began was taken from the queue, in the order of the
    submissions, and every callable taken from the queue has returned. *)
Theorem destructor_drains ok w s :
  reachable ok w -> destroyed s w -> workers_of s w <> [] ->
  (forall th, In th (workers_of s w) -> exited th w) /\
  (exists r, popped s (log w) = early s (log w) ++ r) /\
  (forall f, total (is_pop s f) (log w) = total (is_done s f) (log w)).
Proof.
  intros Hw Hd Hne.
  destruct (reachable_pool_inv _ _ Hw) as [Hq _ Hr Ho _ Hx Hj Hdd].
  assert (Hall : forall th, In th (workers_of s w) -> exited th w).
  { destruct Hd as [Hd|Hd].
    - destruct (Hj _ _ Hd) as [_ Hall]. intros th Hin.
      by destruct (Hall _ Hin) as [[]|].
    - by destruct (Hdd _ Hd). }
  split; [done|]. split.
  - assert (exists th, In th (workers_of s w)) as [th Hin].
    { destruct (workers_of s w) as [|th ?]; [done|]. exists th. by left. }
    destruct (Hx _ _ Hin (Hall _ Hin)) as [_ Hle].
    unfold workers_of in Hin.
    destruct (schedulers w !! s) as [sch|] eqn:Es; [|done].
    destruct (Hq _ _ Es) as (_ & _ & Hf & _).
    destruct (early_submitted s (log w)) as (r & Hr1 & _).
    rewrite Hr1 in Hf. apply app_eq_app in Hf as [l [[He Hq']|[Hp Hr']]].
    + rewrite He, length_app in Hle. destruct l; [|simpl in Hle; lia].
      rewrite app_nil_r in He. exists []. by rewrite He, app_nil_r.
    + by exists l.
  - intros f. rewrite Hr. rewrite in_threads_zero; [lia|].
    intros th st c Hth Hin.
    destruct (owner c) as [s'|] eqn:Eo; [|by destruct c].
    destruct (decide (s' = s)) as [->|Hs'].
    + specialize (Hall _ (Ho _ _ _ _ Hth Hin Eo)). unfold exited in Hall.
      rewrite Hth in Hall. injection Hall as ->. done.
    + destruct c; simplify_eq/=; try done; case_decide as Hc; try done;
        by destruct Hc.
Qed.

Lemma drain_world_reachable : reachable any_step drain_world.
Proof.
  apply (run_reachable drain_sched). vm_compute. reflexivity.
Qed.

Lemma destructor_drains_witness :
  (forall th, In th (workers_of 0 drain_world) -> exited th drain_world) /\
  (exists r, popped 0 (log drain_world) = early 0 (log drain_world) ++ r) /\
  (forall f, total (is_pop 0 f) (log drain_world)
             = total (is_done 0 f) (log drain_world)).
Proof.
  apply (destructor_drains any_step drain_world 0).
  - exact drain_world_reachable.
  - right. vm_compute. tauto.
  - vm_compute. discriminate.
Defined.

(** A worker returns from its routine only when [isRunning_] is cleared and
    the queue is empty. *)
Lemma worker_exit ok w s th :
  reachable ok w ->
  step_cmd th (CWorkerThreadRoutine s) Tick w = Next (w, []) ->
  exists sch, schedulers w !! s = Some sch /\
    isRunning_ sch = false /\ taskQueue_ sch = [].
Proof.
  intros Hw H. destruct (reachable_pool_inv _ _ Hw) as [Hq _ _ _ _ _ _ _].
  destruct (step_cmd_routine _ _ _ _ _ _ H)
    as [(_ & _ & sch & Hs & Hrun & Hcnt)|Hlast]; [|done].
  exists sch. repeat split; try done.
  destruct (Hq _ _ Hs) as (Hc & _).
  destruct (taskQueue_ sch); [done|simpl in Hc; lia].
Qed.

(** C6. The default constructor takes the number of workers from
    [std::thread::hardware_concurrency()] and, unlike the constructor that
    takes the number, does not check that it is positive. Where it is 0 the
    pool has no worker: a callable handed to it before the destructor began
    is still in the queue when the destructor has returned; it was not
    taken from the queue and has not run. *)
Theorem default_pool_drops :
  run idle_sched World_init = Next idle_world /\
  workers_of 0 idle_world = [] /\
  early 0 (log idle_world) = [Some (ClUser 1)] /\
  In (EvDestroyed 0) (log idle_world) /\
  popped 0 (log idle_world) = [] /\
  total (is_done 0 (Some (ClUser 1))) (log idle_world) = 0 /\
  (taskQueue_ <$> schedulers idle_world !! 0) = Some [Some (ClUser 1)] /\
  call_api 0 (ApiParallelTaskScheduler 0) World_init
  = Fail (AssertionFailed A_numThreads).
Proof. vm_compute. tauto. Qed.

(** ** The proxy of Unwrap *)

Example unwrap_world_run :
  run unwrap_sched World_init = Next unwrap_world /\
  value_of 0 unwrap_world = Some (VTask (Some 2)) /\
  value_of 2 unwrap_world = Some (VInt 42) /\
  value_of 1 unwrap_world = Some (VInt 42) /\
  In (EvUnwrap 0 1) (log unwrap_world) /\
  total (is_Schedule 1) (log unwrap_world) = 0.
Proof. vm_compute. tauto. Qed.

Ltac rewrite_lookups :=
  repeat match goal with
  | E : ?x = Some _, H : context [?x] |- _ => rewrite E in H; simpl in H
  end.

(** A proxy that a step makes is new, its future is empty, its producer is
    null, it is marked as started, and its outer listener is what the thread
    registers next. *)
Lemma step_cmd_EvUnwrap th c ch w w1 cmds X P :
  step_cmd th c ch w = Next (w1, cmds) ->
  In (EvUnwrap X P) (log w1) ->
  In (EvUnwrap X P) (log w) \/
  (P = length (tasks w) /\
   In (CInvokeOnValueAvailable X (Some (CbUnwrapOuter P))) cmds /\
   value_of P w1 = None /\
   total (is_Start P) (log w1) = total (is_Start P) (log w) /\
   (exists T, tasks w1 !! P = Some T /\
      functor_ T = FNull /\ isStarted_ T = true) /\
   forall X', In (EvUnwrap X' P) (log w1) ->
     In (EvUnwrap X' P) (log w) \/ X' = X).
Proof.
  intros H. step_cases H; simpl; auto.
  all: intros Hin;
    repeat match goal with
    | Hin : _ \/ _ |- _ => destruct Hin as [Hin|Hin]
    end; simplify_eq; auto.
  all: right; split; [done|].
  all: split; [by left|].
  all: unfold value_of; simpl.
  all: rewrite ?lookup_snoc_length; simpl.
  all: split; [done|]; split; [done|].
  all: split; [eexists; split; [reflexivity|done]|].
  all: intros X' Hin;
    repeat match goal with
    | Hin : _ \/ _ |- _ => destruct Hin as [Hin|Hin]
    end; simplify_eq; auto.
Qed.

(** [Start()] on a node that is marked as started does not return. *)
Lemma step_cmd_Start_started th c ch w w1 cmds P :
  step_cmd th c ch w = Next (w1, cmds) ->
  started P w = true ->
  total (is_Start P) (log w1) = total (is_Start P) (log w).
Proof.
  intros H. step_cases H; norm_store; try done.
  all: intros; simplify_eq/=; norm_flags; try done.
  all: rewrite_lookups; congruence.
Qed.

(** A future of a node that exists is set by [SetValue] only. *)
Lemma step_cmd_set th c ch w w1 cmds f v :
  step_cmd th c ch w = Next (w1, cmds) ->
  value_of f w = None -> value_of f w1 = Some v ->
  c = CSetValue f v \/ length (tasks w) <= f.
Proof.
  intros H. step_cases H; norm_store; try congruence.
  all: intros; simplify_eq/=; auto; try congruence.
  all: rewrite_lookups; congruence.
Qed.

Lemma step_cmd_SetValue th f v ch w w1 cmds :
  step_cmd th (CSetValue f v) ch w = Next (w1, cmds) ->
  value_of f w1 = Some v.
Proof.
  intros H. unfold_ops H; step_split H; step_done H.
  unfold value_of. simpl.
  by rewrite list_lookup_insert_eq by (by eapply lookup_lt_Some).
Qed.

(** A call of a listener reads the value of the future and leaves the body
    of the listener to run. *)
Lemma step_cmd_call th c ch w w1 cmds f cb :
  c = CCallAllValueListener f (Some cb) \/ c = CCallback f cb ->
  step_cmd th c ch w = Next (w1, cmds) ->
  exists v body,
    value_of f w = Some v /\ Callback_body cb v = Next body /\
    (forall c0, In c0 body -> In c0 cmds) /\
    tasks w1 = tasks w /\ exists e, log w1 = e :: log w /\
      forall X P, e <> EvUnwrap X P.
Proof.
  intros [->| ->] H; unfold_ops H; step_split H; step_done H.
  all: exists v; eexists; unfold value_of; rewrite E; simpl.
  all: repeat split; [done|eassumption|..].
  all: try (intros c0 Hin; apply in_or_app; by left).
  all: try done.
  all: eexists; split; [reflexivity|done].
Qed.

Lemma step_cmd_tasks_le th c ch w w1 cmds :
  step_cmd th c ch w = Next (w1, cmds) ->
  length (tasks w) <= length (tasks w1).
Proof.
  intros H. step_cases H; simpl;
    rewrite ?length_app, ?length_insert; simpl; lia.
Qed.

Lemma step_cmd_value th c ch w w1 cmds f v :
  step_cmd th c ch w = Next (w1, cmds) ->
  value_of f w = Some v -> value_of f w1 = Some v.
Proof.
  intros H Hv.
  destruct (step_cmd_values _ _ _ _ _ _ H)
    as [(H1 & _)|(f0 & v0 & Hn & H1 & _)]; rewrite H1; [done|].
  case_decide; [|done]. subst. congruence.
Qed.

Lemma ucb_ok_mono th c ch w w1 cmds f cb :
  step_cmd th c ch w = Next (w1, cmds) ->
  ucb_ok w f cb -> ucb_ok w1 f cb.
Proof.
  intros H.
  pose proof (step_cmd_tasks_le _ _ _ _ _ _ H) as Hle.
  destruct cb; simpl; auto.
  - by eapply step_cmd_log_In.
  - intros [Hlt Hok]. split; [lia|]. intros X HX.
    destruct (step_cmd_EvUnwrap _ _ _ _ _ _ _ _ H HX) as [HX'|(-> & _)];
      [|lia].
    eapply step_cmd_value; eauto.
Qed.

Lemma ucmd_ok_mono th c ch w w1 cmds c0 :
  step_cmd th c ch w = Next (w1, cmds) ->
  ucmd_ok w c0 -> ucmd_ok w1 c0.
Proof.
  intros H.
  pose proof (step_cmd_tasks_le _ _ _ _ _ _ H) as Hle.
  destruct c0 as [[]| | f [cb|] | f [cb|] | | | | | | | | | | | | |];
    simpl; eauto using ucb_ok_mono.
  - intros [Hlt Hok]. split; [lia|]. intros X HX.
    destruct (step_cmd_EvUnwrap _ _ _ _ _ _ _ _ H HX) as [HX'|(-> & _)];
      [|lia].
    by eapply Hok.
  - intros [Hlt Hok]. split; [lia|]. intros X HX.
    destruct (step_cmd_EvUnwrap _ _ _ _ _ _ _ _ H HX) as [HX'|(-> & _)];
      [|lia].
    destruct (Hok _ HX') as (Y & HY1 & HY2).
    exists Y. eauto using step_cmd_value.
Qed.

(** The commands a step leaves to run are in order, if the command it ran
    and the queues were. *)
Lemma step_cmd_uok th c ch w w1 cmds :
  step_cmd th c ch w = Next (w1, cmds) ->
  ucmd_ok w c ->
  (forall f cb, In cb (queue_of f w) -> ucb_ok w f cb) ->
  (forall X P, In (EvUnwrap X P) (log w) ->
     (forall X', In (EvUnwrap X' P) (log w) -> X' = X) /\
     exists T, tasks w !! P = Some T /\ functor_ T = FNull) ->
  forall c0, In c0 cmds -> ucmd_ok w1 c0.
Proof.
  intros H Hc Hq Hp c0 Hin.
  pose proof (ucmd_ok_mono _ _ _ _ _ _ c H Hc) as Hc1.
  pose proof (fun f cb => ucb_ok_mono _ _ _ _ _ _ f cb H) as Hmono.
  step_cases H.
  all: split_bodies.
  all: repeat match goal with
       | H : In _ (_ ++ _) |- _ => apply in_app_or in H as [H|H]
       | H : In _ (subscriptions _ _ _) |- _ =>
           apply subscriptions_inv in H as (?i & ?p & ?Hp & ->)
       | H : In _ (_ :: _) |- _ => destruct H as [<-|H]
       | H : In _ [] |- _ => destruct H
       | H : _ = ?y \/ _ |- _ => is_var y; destruct H as [<-|H]
       | H : False |- _ => destruct H
       end.
  all: try done.
  all: try (simpl; by left).
  all: simpl in Hc; simpl.
  all: repeat match goal with
       | E : deref ?o = Next _ |- _ => destruct o; simplify_eq/=
       end.
  - destruct Hc as [Hlt Hno]. split; [done|]. intros X HX.
    by destruct (Hno X).
  - destruct (Hp _ _ Hc) as (Hu & T & HT & _).
    split; [by eapply lookup_lt_Some|]. intros X [HX|HX]; [done|].
    rewrite (Hu _ HX). unfold value_of. simpl. rewrite E. simpl. congruence.
  - destruct Hc as [Hlt Hok]. split; [done|]. intros X [HX|HX]; [done|].
    exists f. split; [by apply Hok|]. unfold value_of. simpl.
    rewrite E. simpl. congruence.
  - apply Hmono, Hq. unfold queue_of. rewrite E, E0. by left.
  - destruct (Hp _ _ Hc) as (Hu & T & HT & _).
    split; [by eapply lookup_lt_Some|]. intros X [HX|HX]; [done|].
    rewrite (Hu _ HX). unfold value_of. simpl. rewrite E. simpl. congruence.
  - destruct Hc as [Hlt Hok]. split; [done|]. intros X [HX|HX]; [done|].
    exists f. split; [by apply Hok|]. unfold value_of. simpl.
    rewrite E. simpl. congruence.
  - split; [by eapply lookup_lt_Some|]. intros X [HX|HX]; [done|].
    destruct (Hp _ _ HX) as (_ & T & HT & HF). congruence.
  - split; [by eapply lookup_lt_Some|]. intros X [HX|HX]; [done|].
    destruct (Hp _ _ HX) as (_ & T & HT & HF). congruence.
Qed.

(** ** The invariant on proxies is kept by every step *)

Lemma exec_unwrap_inv a w w' :
  exec a w = Next w' -> start_inv w -> unwrap_inv w -> unwrap_inv w'.
Proof.
  intros H [Hsf _ _ _] [Hq Hc Hp Hv Hs].
  apply exec_inv_In in H
    as (c & k & w1 & cmds & ths & Hth & H & -> & Hnew & Hold & Hcmds).
  assert (Hcin : in_thread c w).
  { exists a.1, (c :: k). split; [done|by left]. }
  pose proof (fun e => step_cmd_log_In _ _ _ _ _ _ e H) as Hlog.
  pose proof (fun f v => step_cmd_value _ _ _ _ _ _ f v H) as Hval.
  assert (Hplt : forall X P, In (EvUnwrap X P) (log w) ->
                   P < length (tasks w)).
  { intros X P HX. destruct (Hp _ _ HX) as (_ & _ & T & HT & _).
    by eapply lookup_lt_Some. }
  assert (Hp' : forall X P, In (EvUnwrap X P) (log w) ->
            (forall X', In (EvUnwrap X' P) (log w) -> X' = X) /\
            exists T, tasks w !! P = Some T /\ functor_ T = FNull).
  { intros X P HX. destruct (Hp _ _ HX) as (Hu & _ & T & HT & HF & _).
    eauto. }
  split.
  - intros f cb Hin. change (In cb (queue_of f w1)) in Hin.
    change (ucb_ok w1 f cb).
    destruct (step_cmd_queue_new _ _ _ _ _ _ _ _ H Hin) as [Hin'| ->].
    + eauto using ucb_ok_mono.
    + apply Hc in Hcin. simpl in Hcin. eauto using ucb_ok_mono.
  - intros c0 Hin.
    assert (Hok : ucmd_ok w1 c0).
    { destruct (Hnew _ Hin) as [Hin'|[Hin'|Hfr]].
      - eapply step_cmd_uok; eauto.
      - eapply ucmd_ok_mono; eauto.
      - by destruct Hfr as [[= ->]|[s [= ->]]]. }
    by destruct c0 as [[]| | f [cb|] | f [cb|] | | | | | | | | | | | | |].
  - intros X P HX. change (In (EvUnwrap X P) (log w1)) in HX.
    change (log (set_threads ths w1)) with (log w1).
    change (tasks (set_threads ths w1)) with (tasks w1).
    destruct (step_cmd_EvUnwrap _ _ _ _ _ _ _ _ H HX)
      as [HX'|(-> & _ & _ & Hst & HT & Hu)].
    + destruct (Hp _ _ HX') as (Hu & Hst & T & HT & HF & HS).
      split; [|split].
      * intros X' HX2.
        destruct (step_cmd_EvUnwrap _ _ _ _ _ _ _ _ H HX2)
          as [HX2'|(-> & _)]; [by apply Hu|].
        apply lookup_lt_Some in HT. lia.
      * rewrite <- Hst. eapply step_cmd_Start_started; [done|].
        unfold started. by rewrite HT.
      * destruct (step_cmd_task _ _ _ _ _ _ _ _ H HT)
          as (T1 & HT1 & HF1 & _ & HS1 & _).
        exists T1. split; [done|]. split; [congruence|auto].
    + split; [|split; [|done]].
      * intros X' HX2. destruct (Hu _ HX2) as [HX2'|]; [|done].
        apply Hplt in HX2'. lia.
      * rewrite Hst. specialize (Hsf (length (tasks w))).
        unfold started in Hsf. rewrite lookup_length_None in Hsf.
        simpl in Hsf. lia.
  - intros X P v HX HP. change (In (EvUnwrap X P) (log w1)) in HX.
    change (value_of P w1 = Some v) in HP.
    assert (Hgoal : (exists Y, value_of X w = Some (VTask (Some Y)) /\
                               value_of Y w = Some v) ->
              exists Y, value_of X (set_threads ths w1)
                        = Some (VTask (Some Y)) /\
                        value_of Y (set_threads ths w1) = Some v).
    { intros (Y & HY1 & HY2). exists Y. split; by apply Hval. }
    destruct (step_cmd_EvUnwrap _ _ _ _ _ _ _ _ H HX)
      as [HX'|(-> & _ & Hnone & _)]; [|congruence].
    apply Hgoal.
    destruct (value_of P w) as [v'|] eqn:HPw.
    + rewrite (Hval _ _ HPw) in HP. injection HP as ->. by eapply Hv.
    + destruct (step_cmd_set _ _ _ _ _ _ _ _ H HPw HP) as [->|Hle].
      * apply Hc in Hcin. destruct Hcin as [_ Hok]. by apply Hok.
      * apply Hplt in HX'. lia.
  - intros X P HX. change (In (EvUnwrap X P) (log w1)) in HX.
    destruct (step_cmd_EvUnwrap _ _ _ _ _ _ _ _ H HX)
      as [HX'|(-> & Hin & _)];
      [|left; left; by apply Hcmds].
    assert (Hpend : forall f cb, pending_listener f cb w ->
              pending_listener f cb (set_threads ths w1) \/
              exists v body, value_of f w = Some v /\
                Callback_body cb v = Next body /\
                forall c0, In c0 body -> in_thread c0 (set_threads ths w1)).
    { intros f cb [Hx|[Hx|[Hx|Hx]]].
      - destruct (Hold _ Hx) as [<-|Hx']; [|left; by left].
        left. destruct (step_cmd_Invoke _ _ _ _ _ _ _ H) as [Hin| ->].
        + right; by left.
        + right; right; right. apply Hcmds. by left.
      - left.
        destruct (step_cmd_queue_pop _ _ _ _ _ _ _ _ H Hx) as [Hin|[-> ->]].
        + right; by left.
        + right; right; left. apply Hcmds. by left.
      - destruct (Hold _ Hx) as [<-|Hx']; [|left; right; right; by left].
        right. destruct (step_cmd_call _ _ _ _ _ _ f cb (or_introl eq_refl) H)
          as (v & body & Hv1 & Hb & Hin & _).
        exists v, body. eauto.
      - destruct (Hold _ Hx) as [<-|Hx']; [|left; right; right; by right].
        right. destruct (step_cmd_call _ _ _ _ _ _ f cb (or_intror eq_refl) H)
          as (v & body & Hv1 & Hb & Hin & _).
        exists v, body. eauto. }
    unfold unwrap_stage.
    destruct (Hs _ _ HX') as [Hx|(Y & HY & [Hx|(v & HYv & [Hx|Hx])])].
    + destruct (Hpend _ _ Hx) as [|(v & body & Hv1 & Hb & Hin)]; [by left|].
      right. simpl in Hb. destruct v as [| |[Y|]]; simplify_eq/=.
      exists Y. split; [by apply Hval|]. left. left. apply Hin. by left.
    + right. exists Y. split; [by apply Hval|].
      destruct (Hpend _ _ Hx) as [|(v & body & Hv1 & Hb & Hin)]; [by left|].
      right. simpl in Hb. simplify_eq/=. exists v. split; [by apply Hval|].
      left. apply Hin. by left.
    + right. exists Y. split; [by apply Hval|]. right. exists v.
      split; [by apply Hval|].
      destruct (Hold _ Hx) as [<-|Hx']; [|by left].
      right. exact (step_cmd_SetValue _ _ _ _ _ _ _ H).
    + right. exists Y. split; [by apply Hval|]. right. exists v.
      split; [by apply Hval|]. right. by apply Hval.
Qed.

Lemma reachable_unwrap_inv ok w : reachable ok w -> unwrap_inv w.
Proof.
  induction 1 as [|w a w' Hw IH _ Hex];
    [|eapply exec_unwrap_inv; eauto using reachable_start_inv].
  split; simpl; try done.
  intros c (th & st & Hth & Hin).
  destruct th as [|[|]]; simplify_eq/=. by destruct Hin as [<-|[]].
Qed.

Lemma GetValue_value_of th t v w :
  value_of t w = Some v ->
  GetValue th t w = Next (add_log (EvGetValue th t v) w, []).
Proof.
  unfold value_of. destruct (tasks w !! t) as [T|] eqn:HT; [|done].
  simpl. by apply GetValue_ready.
Qed.

(** C5. In every reachable state, for the proxy [P] that [X.Unwrap()]
    returned: the producer of [P] is null and [P] is marked as started, so
    [Start()] on it fails its assertion; [P] was never started, never handed
    to a scheduler, is in no queue of a pool, and its producer was never
    called; when the future of [P] is Ready, [X] holds an inner task [Y]
    whose future is Ready with the same value, which is what [GetValue()]
    returns on both; and the value is on its way through the two listeners:
    the outer listener waits for [X], or the inner listener waits for [Y],
    or [SetValue] with the value of [Y] is about to run on [P], or has
    run. *)
Theorem Unwrap_identity (ok : World -> ThreadId * Choice -> bool)
    (w : World) (X P : TaskId) :
  reachable ok w -> In (EvUnwrap X P) (log w) ->
  (exists T, tasks w !! P = Some T /\
     functor_ T = FNull /\ isStarted_ T = true) /\
  Start P w = Fail (AssertionFailed A_not_started) /\
  total (is_Start P) (log w) = 0 /\
  total (is_Schedule P) (log w) = 0 /\
  in_pools (run_cl P) w = 0 /\
  total (is_Producer P) (log w) = 0 /\
  (forall v, value_of P w = Some v ->
     exists Y, value_of X w = Some (VTask (Some Y)) /\
       value_of Y w = Some v /\
       forall th,
         GetValue th P w = Next (add_log (EvGetValue th P v) w, []) /\
         GetValue th Y w = Next (add_log (EvGetValue th Y v) w, [])) /\
  unwrap_stage X P w.
Proof.
  intros Hw HX.
  destruct (reachable_unwrap_inv _ _ Hw) as [_ _ Hp Hv Hs].
  destruct (reachable_start_inv _ _ Hw) as [_ Hss Hsr _].
  destruct (Hp _ _ HX) as (_ & Hst & T & HT & HF & HS).
  specialize (Hss P). specialize (Hsr P).
  split; [by eauto|]. split; [by eapply Start_started|].
  split; [done|]. split; [lia|]. split; [lia|]. split; [lia|].
  split; [|by apply Hs].
  intros v HP. destruct (Hv _ _ _ HX HP) as (Y & HY1 & HY2).
  exists Y. split; [done|]. split; [done|].
  intros th. split; by apply GetValue_value_of.
Qed.

Lemma unwrap_world_reachable : reachable any_step unwrap_world.
Proof. apply (run_reachable unwrap_sched). vm_compute. reflexivity. Qed.

Lemma Unwrap_identity_witness :
  value_of 1 unwrap_world = Some (VInt 42) /\
  total (is_Schedule 1) (log unwrap_world) = 0 /\
  exists Y, value_of 0 unwrap_world = Some (VTask (Some Y)) /\
    value_of Y unwrap_world = Some (VInt 42).
Proof.
  destruct (Unwrap_identity any_step unwrap_world 0 1)
    as (_ & _ & _ & Hsch & _ & _ & Hval & _).
  - exact unwrap_world_reachable.
  - vm_compute. tauto.
  - split; [reflexivity|]. split; [exact Hsch|].
    destruct (Hval (VInt 42) eq_refl) as (Y & HY1 & HY2 & _).
    exists Y. by split.
Defined.

(** ** More on the pool *)

(** X2. The queue of a pool is first in, first out, and its count is the length
    of the queue: in every reachable state the callables handed to the pool
    are, in the order of the submissions, the callables the workers took
    followed by the queue; and every callable a worker took has returned or
    is held by a worker. *)
Theorem pool_fifo ok w s sch :
  reachable ok w -> schedulers w !! s = Some sch ->
  submitted s (log w) = popped s (log w) ++ taskQueue_ sch /\
  taskCount_ sch = Z.of_nat (length (taskQueue_ sch)) /\
  isRunning_ sch = negb (begun s (log w)) /\
  forall f, total (is_pop s f) (log w)
            = total (is_done s f) (log w) + in_threads (running_cmd s f) w.
Proof.
  intros Hw Hs. destruct (reachable_pool_inv _ _ Hw) as [Hq _ Hr _ _ _ _ _].
  destruct (Hq _ _ Hs) as (Hc & Hb & Hf & _). auto.
Qed.

Lemma pool_fifo_witness :
  submitted 0 (log drain_world) = popped 0 (log drain_world) ++ [] /\
  (0 = Z.of_nat (length (@nil (option Closure))))%Z /\
  false = negb (begun 0 (log drain_world)) /\
  forall f, total (is_pop 0 f) (log drain_world)
            = total (is_done 0 f) (log drain_world)
              + in_threads (running_cmd 0 f) drain_world.
Proof.
  apply (pool_fifo any_step drain_world 0 (mkSched [1] [] 0 false)).
  - exact drain_world_reachable.
  - vm_compute. reflexivity.
Defined.

(** X3. What a worker does at the head of its loop, in every reachable state:
    it waits exactly when the queue is empty and the pool is running; it
    leaves the loop exactly when the queue is empty and the destructor has
    begun; otherwise it takes the first callable of the queue.  It never
    reads the front of an empty queue. *)
Theorem worker_step ok w s th k ch :
  reachable ok w ->
  threads w !! th = Some (CWorkerThreadRoutine s :: k) ->
  exists sch, schedulers w !! s = Some sch /\
    match taskQueue_ sch with
    | [] =>
        if isRunning_ sch then exec (th, ch) w = Blocked
        else exec (th, ch) w = Next (set_threads (<[th := k]> (threads w)) w)
    | f :: q =>
        exec (th, ch) w
        = Next (set_threads
                  (<[th := CFunctor s f :: CWorkerThreadRoutine s :: k]>
                     (threads w))
                  (add_log (EvPop s f)
                     (set_scheduler s
                        (mkSched (workerThreads_ sch) q
                           (taskCount_ sch - 1) (isRunning_ sch)) w)))
    end.
Proof.
  intros Hw Hth. destruct (reachable_pool_inv _ _ Hw) as [Hq _ _ Ho _ _ _ _].
  assert (Hin : In th (workers_of s w)).
  { eapply (Ho th _ (CWorkerThreadRoutine s)); [done|by left|done]. }
  unfold workers_of in Hin.
  destruct (schedulers w !! s) as [sch|] eqn:Hs; [|done].
  exists sch. split; [done|]. destruct (Hq _ _ Hs) as (Hc & _).
  unfold exec. simpl. rewrite Hth. simpl.
  unfold WorkerThreadRoutine, get_scheduler. rewrite Hs. simpl.
  destruct (taskQueue_ sch) as [|f q] eqn:Eq; simpl in Hc.
  - rewrite Hc. simpl. destruct (isRunning_ sch); simpl; done.
  - replace (0 <? taskCount_ sch)%Z with true
      by (symmetry; apply Z.ltb_lt; lia).
    replace (taskCount_ sch =? 0)%Z with false
      by (symmetry; apply Z.eqb_neq; lia).
    simpl. rewrite andb_false_r. done.
Qed.

Lemma worker_step_witness :
  exists sch, schedulers demo_world !! 0 = Some sch /\
    match taskQueue_ sch with
    | [] =>
        if isRunning_ sch then exec (1, Tick) demo_world = Blocked
        else exec (1, Tick) demo_world
             = Next (set_threads (<[1 := []]> (threads demo_world))
                       demo_world)
    | f :: q =>
        exec (1, Tick) demo_world
        = Next (set_threads
                  (<[1 := CFunctor 0 f :: CWorkerThreadRoutine 0 :: []]>
                     (threads demo_world))
                  (add_log (EvPop 0 f)
                     (set_scheduler 0
                        (mkSched (workerThreads_ sch) q
                           (taskCount_ sch - 1) (isRunning_ sch))
                        demo_world)))
    end.
Proof.
  apply (worker_step any_step demo_world 0 1 [] Tick).
  - exact demo_world_reachable.
  - vm_compute. reflexivity.
Defined.

(** In that state the queue is empty and the pool is running: the worker
    waits. *)
Example worker_waits : exec (1, Tick) demo_world = Blocked.
Proof. vm_compute. reflexivity. Qed.

Lemma total_pos_inv {A} (g : A -> nat) l :
  0 < total g l -> exists x, In x l /\ 0 < g x.
Proof.
  induction l as [|y l IH]; simpl; [lia|]. intros H.
  destruct (g y) eqn:Hy.
  - destruct IH as (x & Hin & Hx); [lia|]. exists x. auto.
  - exists y. split; [by left|lia].
Qed.

Lemma reachable_value_set ok w f v :
  reachable ok w -> value_of f w = Some v -> In (EvSetValue f v) (log w).
Proof.
  intros Hw Hv. destruct (reachable_SetValue ok w f Hw) as [Ht Hin].
  rewrite Hv in Ht.
  destruct (total_pos_inv (is_SetValue f) (log w)) as (e & He & Hpos); [lia|].
  destruct e; simpl in Hpos; try lia.
  case_decide; [subst|lia]. specialize (Hin _ He). congruence.
Qed.

Lemma step_cmd_after_set th c ch w w1 cmds :
  step_cmd th c ch w = Next (w1, cmds) ->
  (forall f v, value_of f w = Some v -> In (EvSetValue f v) (log w)) ->
  after_set (log w) -> after_set (log w1).
Proof.
  intros H Hval IH. step_cases H; simpl; auto.
  all: repeat split; auto.
  all: try (right; apply Hval).
  all: try apply Hval.
  all: unfold value_of; rewrite ?E; simpl; try done.
  unfold IsReadyInternal in E0.
  destruct (value_ (future_ t)) as [v|] eqn:Ev; [|done].
  exists v. apply Hval. unfold value_of. by rewrite E.
Qed.

(** X5. In every reachable state the history is in order: what [GetValue]
    returned on a future, and what a listener of the future was called
    with, is the value an earlier [SetValue] gave the future, and
    [WaitFor] answered [kReady] only after a [SetValue]. *)
Theorem history_after_set ok w :
  reachable ok w -> after_set (log w).
Proof.
  induction 1 as [|w a w' Hw IH _ Hex]; [done|].
  apply exec_inv in Hex as (c & k & w1 & cmds & _ & H & ->). simpl.
  eapply step_cmd_after_set; eauto using reachable_value_set.
Qed.

Lemma history_after_set_witness : after_set (log fanin_world).
Proof. exact (history_after_set any_step fanin_world fanin_world_reachable). Defined.

(** [GetValue] returns what [SetValue] stored: a pair of events in the
    history of a reachable state. *)
Lemma after_set_In l th f v :
  after_set l -> In (EvGetValue th f v) l -> In (EvSetValue f v) l.
Proof.
  induction l as [|e l IH]; simpl; [done|]. intros [He Hl] [->|Hin].
  - by right.
  - right. by apply IH.
Qed.

(** ** Producers and values *)











(** ** The scheduler of a node *)

Lemma bound_mono th c ch w w1 cmds t s :
  step_cmd th c ch w = Next (w1, cmds) -> bound t s w -> bound t s w1.
Proof.
  intros H (T & HT & HS).
  destruct (step_cmd_task _ _ _ _ _ _ _ _ H HT) as (T1 & HT1 & _ & HS1 & _).
  exists T1. split; [done|congruence].
Qed.

(** The lambda of [Start()] goes to the scheduler of the node. *)
Lemma step_cmd_CSchedule th c ch w w1 cmds s t :
  step_cmd th c ch w = Next (w1, cmds) ->
  In (CSchedule s (Some (ClStart t))) cmds -> bound t s w1.
Proof.
  intros H Hin. unfold bound. step_cases H; split_bodies.
  all: repeat match goal with
       | H : In _ (_ ++ _) |- _ => apply in_app_or in H as [H|H]
       | H : In _ (subscriptions _ _ _) |- _ =>
           apply subscriptions_inv in H as (?i & ?p & ?Hp & ?)
       | H : In _ (_ :: _) |- _ => destruct H as [H|H]
       | H : In _ [] |- _ => destruct H
       | H : _ = _ \/ _ |- _ => destruct H as [H|H]
       | H : False |- _ => destruct H
       end; simplify_eq/=.
  all: eauto.
Qed.

Lemma step_cmd_EvSchedule th c ch w w1 cmds s f :
  step_cmd th c ch w = Next (w1, cmds) ->
  In (EvSchedule s f) (log w1) ->
  In (EvSchedule s f) (log w) \/ c = CSchedule s f.
Proof.
  intros H. step_cases H; simpl; auto.
  all: intros Hin;
    repeat match goal with
    | Hin : _ \/ _ |- _ => destruct Hin as [Hin|Hin]
    end; simplify_eq; auto.
Qed.

Lemma exec_bound_inv a w w' :
  exec a w = Next w' -> bound_inv w -> bound_inv w'.
Proof.
  intros H [Hc Hl].
  apply exec_inv_In in H
    as (c & k & w1 & cmds & ths & Hth & H & -> & Hnew & Hold & Hcmds).
  assert (Hcin : in_thread c w).
  { exists a.1, (c :: k). split; [done|by left]. }
  split.
  - intros s t Hin. change (bound t s w1).
    destruct (Hnew _ Hin) as [Hin'|[Hin'|Hfr]].
    + by eapply step_cmd_CSchedule.
    + eapply bound_mono; eauto.
    + by destruct Hfr as [[=]|[s' [=]]].
  - intros s t Hin. change (In (EvSchedule s (Some (ClStart t))) (log w1)) in Hin.
    change (bound t s w1).
    destruct (step_cmd_EvSchedule _ _ _ _ _ _ _ _ H Hin) as [Hin'| ->];
      eapply bound_mono; eauto.
Qed.

Lemma reachable_bound_inv ok w : reachable ok w -> bound_inv w.
Proof.
  induction 1 as [|w a w' Hw IH _ Hex]; [|by eapply exec_bound_inv].
  split; simpl; try done.
  intros s t (th & st & Hth & Hin).
  destruct th as [|[|]]; simplify_eq/=. by destruct Hin as [|[]].
Qed.

Lemma In_popped s f l : In (EvPop s f) l -> In f (popped s l).
Proof.
  induction l as [|e l IH]; simpl; [done|]. intros [->|Hin].
  - apply in_or_app. right. rewrite decide_True by done. by left.
  - apply in_or_app. left. auto.
Qed.

Lemma In_submitted s f l : In f (submitted s l) -> In (EvSchedule s f) l.
Proof.
  induction l as [|e l IH]; simpl; [done|]. intros Hin.
  apply in_app_or in Hin as [Hin|Hin]; [right; auto|].
  destruct e; try done. case_decide; [|done]. subst.
  destruct Hin as [->|[]]. by left.
Qed.

(** X8. A node runs on the scheduler it was bound to when it was made: in every
    reachable state, the lambda of [Start()] on node [t] was handed to, and
    taken from the queue of, the scheduler of [t] only, and the thread
    that runs it is a worker of that pool. *)
Theorem node_on_own_scheduler ok w s t :
  reachable ok w ->
  (In (EvSchedule s (Some (ClStart t))) (log w) ->
     GetScheduler t w = Next (Some s)) /\
  (In (EvPop s (Some (ClStart t))) (log w) ->
     GetScheduler t w = Next (Some s)) /\
  (forall th st, threads w !! th = Some st ->
     In (CFunctor s (Some (ClStart t))) st \/
     In (CFunctorReturned s (ClStart t)) st ->
     GetScheduler t w = Next (Some s) /\ In th (workers_of s w)).
Proof.
  intros Hw. destruct (reachable_bound_inv _ _ Hw) as [_ Hl].
  destruct (reachable_pool_inv _ _ Hw) as [Hq Hn Hr Ho _ _ _ _].
  assert (Hb : forall s t, bound t s w -> GetScheduler t w = Next (Some s)).
  { intros s' t' (T & HT & HS). unfold GetScheduler, get_task.
    rewrite HT. simpl. by rewrite HS. }
  assert (Hpop : In (EvPop s (Some (ClStart t))) (log w) ->
                 In (EvSchedule s (Some (ClStart t))) (log w)).
  { intros Hin. apply In_submitted. apply In_popped in Hin.
    destruct (schedulers w !! s) as [sch|] eqn:Hs.
    - destruct (Hq _ _ Hs) as (_ & _ & -> & _). apply in_or_app. by left.
    - destruct (Hn s) as (_ & Hp & _);
        [by apply lookup_ge_None|by rewrite Hp in Hin]. }
  split; [by auto|]. split; [by auto|].
  intros th st Hth Hin. split.
  - apply Hb, Hl, Hpop.
    assert (Hpos : 0 < in_threads (running_cmd s (Some (ClStart t))) w).
    { destruct Hin as [Hin|Hin];
        (eapply in_thread_pos; [by exists th, st|]); simpl;
        rewrite decide_True by done; lia. }
    specialize (Hr s (Some (ClStart t))).
    destruct (total_pos_inv (is_pop s (Some (ClStart t))) (log w))
      as (e & He & Hpe); [lia|].
    destruct e; simpl in Hpe; try lia.
    case_decide as Hd; [|lia]. by destruct Hd as [-> ->].
  - destruct Hin as [Hin|Hin]; by eapply Ho.
Qed.

Lemma node_on_own_scheduler_witness :
  GetScheduler 2 fanin_world = Next (Some 0).
Proof.
  destruct (node_on_own_scheduler any_step fanin_world 0 2
              fanin_world_reachable) as (H & _).
  apply H. vm_compute. tauto.
Defined.

(** ** The count of a dependency context *)

Lemma step_cmd_count_le th c ch w w1 cmds :
  step_cmd th c ch w = Next (w1, cmds) -> count_le w -> count_le w1.
Proof.
  intros H IH t D HD. step_cases H; simpl in *; eauto.
  all: repeat match goal with
       | H : (_ ++ [_]) !! _ = Some _ |- _ =>
           apply lookup_snoc_Some in H as [H|[? ?]]
       | H : <[_ := _]> _ !! _ = Some _ |- _ =>
           apply list_lookup_insert_Some in H as [(? & ? & ?)|[? H]]
       end; simplify_eq/=; eauto.
  all: rewrite ?length_replicate, ?length_insert; try lia.
  all: try (specialize (IH _ _ E); simpl in IH; lia).
Qed.

Lemma reachable_count_le ok w : reachable ok w -> count_le w.
Proof.
  induction 1 as [|w a w' Hw IH _ Hex]; [by intros [|t] D HD|].
  apply exec_inv in Hex as (c & k & w1 & cmds & _ & H & ->).
  exact (step_cmd_count_le _ _ _ _ _ _ H IH).
Qed.

(** X9. [pendingDependencyCount] never leaves the range from 0 to the number of
    parents, whatever the client does: it is the number of listeners on
    parents that have not decremented it yet. *)
Theorem pending_count_range ok w t D :
  reachable ok w -> contexts w !! t = Some (Some D) ->
  (0 <= pendingDependencyCount D <= Z.of_nat (length (dependencies D)))%Z /\
  pendingDependencyCount D = Z.of_nat (pend t w).
Proof.
  intros Hw HD. destruct (reachable_deps_inv _ _ Hw) as [Hc _].
  specialize (Hc t). unfold count_of in Hc. rewrite HD in Hc.
  pose proof (reachable_count_le _ _ Hw _ _ HD). lia.
Qed.

Lemma pending_count_range_witness :
  (0 <= 2 <= Z.of_nat (length [@None TaskId; None]))%Z /\
  2%Z = Z.of_nat (pend 2 demo_world).
Proof.
  apply (pending_count_range any_step demo_world 2 (mkDeps 2 [None; None])).
  - exact demo_world_reachable.
  - vm_compute. reflexivity.
Defined.

(** ** The default scheduler *)

Lemma step_cmd_default th c ch w w1 cmds :
  step_cmd th c ch w = Next (w1, cmds) ->
  (forall s, ch <> UCall (ApiSetDefaultTaskScheduler s)) ->
  gDefaultTaskScheduler w1 = gDefaultTaskScheduler w /\
  length (schedulers w) <= length (schedulers w1).
Proof.
  intros H Hch. split; [|by eapply step_cmd_schedulers_le].
  step_cases H; simpl; try done.
  by destruct (Hch s).
Qed.

Lemma run_default sched w w' :
  run sched w = Next w' ->
  (forall a s, In a sched -> a.2 <> UCall (ApiSetDefaultTaskScheduler s)) ->
  gDefaultTaskScheduler w' = gDefaultTaskScheduler w /\
  length (schedulers w) <= length (schedulers w').
Proof.
  revert w. induction sched as [|a sched IH]; simpl; intros w H Hs.
  - injection H as <-. auto.
  - apply bind_Next in H as (w1 & H1 & H2).
    destruct (IH _ H2) as [Hd Hl]; [by eauto|].
    apply exec_inv in H1 as (c & k & w0 & cmds & _ & H & ->).
    destruct (step_cmd_default _ _ _ _ _ _ H) as [Hd1 Hl1].
    { intros s. apply (Hs a). by left. }
    simpl in *. split; [congruence|lia].
Qed.

(** X10. Only [SetDefaultTaskScheduler] changes the default scheduler: once it is
    set to a pool [d], and as long as the client does not set it again,
    [MakeTask], [MakeTaskAndStart] and [Unwrap] called with a null scheduler
    bind the node they make to [d]. *)
Theorem default_scheduler_used sched w w' d functor ps :
  gDefaultTaskScheduler w = Some d -> d < length (schedulers w) ->
  run sched w = Next w' ->
  (forall a s, In a sched -> a.2 <> UCall (ApiSetDefaultTaskScheduler s)) ->
  (exists w2 cmds,
     MakeTask functor None ps w' = Next (w2, length (tasks w'), cmds) /\
     GetScheduler (length (tasks w')) w2 = Next (Some d)) /\
  (exists w2,
     MakeTaskAndStart functor None w'
     = Next (w2, length (tasks w'), [CStart (length (tasks w'))]) /\
     GetScheduler (length (tasks w')) w2 = Next (Some d)) /\
  (forall x T, tasks w' !! x = Some T ->
     exists w2 cmds,
       Unwrap x None w' = Next (w2, length (tasks w'), cmds) /\
       GetScheduler (length (tasks w')) w2 = Next (Some d)).
Proof.
  intros Hd Hlt Hrun Hs.
  destruct (run_default _ _ _ Hrun Hs) as [Hd' Hl].
  rewrite Hd in Hd'.
  destruct (lookup_lt_is_Some_2 (schedulers w') d) as [sch Hsch]; [lia|].
  assert (Hmk : forall ps0, exists w2 cmds,
            MakeTask functor None ps0 w' = Next (w2, length (tasks w'), cmds) /\
            GetScheduler (length (tasks w')) w2 = Next (Some d) /\
            (ps0 = [] -> cmds = [])).
  { intros ps0. unfold MakeTask, or_default. rewrite Hd'. simpl.
    unfold Task_ctor, scheduler_ref, get_scheduler. rewrite Hsch. simpl.
    destruct ps0 as [|p ps0]; simpl; do 2 eexists;
      (split; [reflexivity|]); unfold GetScheduler, get_task; simpl;
      by rewrite lookup_snoc_length. }
  split; [|split].
  - destruct (Hmk ps) as (w2 & cmds & H1 & H2 & _). eauto.
  - unfold MakeTaskAndStart, or_default. rewrite Hd'. simpl.
    rewrite (MakeTask_Some _ _ _ _ _ Hsch). simpl.
    eexists. split; [reflexivity|].
    unfold GetScheduler, get_task. simpl. by rewrite lookup_snoc_length.
  - intros x T HT. unfold Unwrap, or_default. rewrite Hd'. simpl.
    destruct (Unwrap_Some x d w' sch T Hsch HT) as (w2 & Hu & Ht).
    unfold Unwrap, or_default in Hu. simpl in Hu. rewrite Hu.
    do 2 eexists. split; [reflexivity|].
    unfold GetScheduler, get_task. rewrite Ht, lookup_snoc_length. done.
Qed.

(** The client sets the default scheduler, makes a leaf, and then makes a
    node on the leaf with a null scheduler. *)
Lemma default_scheduler_used_witness :
  exists w',
    run [(0, UCall (ApiMakeTask (Some 6) None []))]
      (set_default (Some 0) demo_world) = Next w' /\
    exists w2 cmds,
      MakeTask (Some 5) None [0] w' = Next (w2, length (tasks w'), cmds) /\
      GetScheduler (length (tasks w')) w2 = Next (Some 0).
Proof.
  eexists. split; [vm_compute; reflexivity|].
  refine (proj1 (default_scheduler_used
    [(0, UCall (ApiMakeTask (Some 6) None []))]
    (set_default (Some 0) demo_world) _ 0 (Some 5) [0] _ _ _ _)).
  - reflexivity.
  - vm_compute. lia.
  - vm_compute. reflexivity.
  - intros a s [<-|[]]. discriminate.
Defined.



(** * Reference counting *)

Module RefCntFacts.
Import RefCnt.

Example handles_of_one_object :
  run_ops [New; CtorRaw (Some 0); CtorCopy 0; Dtor 0] Store_init
  = Ok (mkStore [Some 1%Z] [None; Some (Some 0)]) /\
  run_ops [New; CtorRaw (Some 0); CtorCopy 0; Dtor 0; Dtor 1] Store_init
  = Ok (mkStore [None] [None; None]) /\
  run_ops [New; CtorRaw (Some 0); Dtor 0; CtorRaw (Some 0)] Store_init
  = Err Dangling.
Proof. vm_compute. tauto. Qed.

Lemma rbind_Ok {A B} (m : Res A) (k : A -> Res B) b :
  rbind m k = Ok b -> exists a, m = Ok a /\ k a = Ok b.
Proof. destruct m; simpl; [eauto|done]. Qed.

Lemma int_wrap_id z :
  (- 2 ^ 31 <= z < 2 ^ 31)%Z -> int_wrap z = z.
Proof.
  intros Hz. unfold int_wrap. rewrite Z.mod_small; lia.
Qed.

(** X16. The count is an [int]: [AddRef()] on an object whose count is
    [INT_MAX] returns and leaves the count at [INT_MIN], and the assertions
    of [AddRef()] and of [Release()] on the object fail from then on. *)
Theorem AddRef_wraps o h :
  h !! o = Some (Some INT_MAX) ->
  exists h', RefCounted_AddRef o h = Ok h' /\
    h' !! o = Some (Some (- 2 ^ 31)%Z) /\
    RefCounted_AddRef o h' = Err AssertAddRef /\
    RefCounted_Release o h' = Err AssertRelease.
Proof.
  intros Ho. exists (<[o := Some (- 2 ^ 31)%Z]> h).
  unfold RefCounted_AddRef, RefCounted_Release. rewrite Ho.
  rewrite list_lookup_insert_eq by (by eapply lookup_lt_Some).
  repeat split.
Qed.

Lemma AddRef_wraps_witness :
  exists h', RefCounted_AddRef 0 [Some INT_MAX] = Ok h' /\
    h' !! 0 = Some (Some (- 2 ^ 31)%Z) /\
    RefCounted_AddRef 0 h' = Err AssertAddRef /\
    RefCounted_Release 0 h' = Err AssertRelease.
Proof. apply (AddRef_wraps 0 [Some INT_MAX]). reflexivity. Defined.

Lemma AddRef_inv ref h h' :
  AddRef ref h = Ok h' ->
  match ref with
  | Some o => exists refCount,
      h !! o = Some (Some refCount) /\ (0 <= refCount)%Z /\
      h' = <[o := Some (int_wrap (refCount + 1))]> h
  | None => h' = h
  end.
Proof.
  destruct ref as [o|]; simpl; [|by intros [= <-]].
  unfold RefCounted_AddRef. destruct (h !! o) as [[rc|]|] eqn:E; try done.
  destruct (0 <=? rc)%Z eqn:Hle; [|done]. intros [= <-].
  exists rc. repeat split. by apply Z.leb_le.
Qed.

Lemma Release_inv ref h h' :
  Release ref h = Ok h' ->
  match ref with
  | Some o => exists refCount,
      h !! o = Some (Some refCount) /\ (0 < refCount)%Z /\
      h' = <[o := if (int_wrap (refCount - 1) =? 0)%Z then None
                  else Some (int_wrap (refCount - 1))]> h
  | None => h' = h
  end.
Proof.
  destruct ref as [o|]; simpl; [|by intros [= <-]].
  unfold RefCounted_Release. destruct (h !! o) as [[rc|]|] eqn:E; try done.
  destruct (0 <? rc)%Z eqn:Hlt; [|done].
  exists rc. split; [done|]. split; [by apply Z.ltb_lt|].
  destruct (int_wrap (rc - 1) =? 0)%Z; by injection H as <-.
Qed.

Lemma holders_snoc o s h p :
  holders o (mkStore h (ptrs s ++ [p])) = holders o s + holds o p.
Proof. unfold holders. simpl. rewrite total_app. simpl. lia. Qed.

Lemma holders_insert o s h i p q :
  ptrs s !! i = Some p ->
  holders o (mkStore h (<[i := q]> (ptrs s))) + holds o p
  = holders o s + holds o q.
Proof. intros Hi. unfold holders. simpl. by apply total_insert. Qed.

Lemma holds_le o s i p :
  ptrs s !! i = Some p -> holds o p <= holders o s.
Proof. intros Hi. unfold holders. by eapply total_lookup. Qed.

Lemma get_ref_inv i s ref_ :
  get_ref i s = Ok ref_ -> ptrs s !! i = Some (Some ref_).
Proof.
  unfold get_ref. destruct (ptrs s !! i) as [[r|]|]; try done.
  by intros [= ->].
Qed.

Ltac rc_inv :=
  repeat match goal with
  | H : rbind _ _ = Ok _ |- _ =>
      let x := fresh "x" in let E := fresh "E" in
      apply rbind_Ok in H as (x & E & H)
  | H : get_ref _ _ = Ok _ |- _ => apply get_ref_inv in H
  | H : AddRef (Some _) _ = Ok _ |- _ =>
      let rc := fresh "rc" in
      apply AddRef_inv in H as (rc & ? & ? & ->)
  | H : AddRef None _ = Ok _ |- _ => apply AddRef_inv in H as ->
  | H : Release (Some _) _ = Ok _ |- _ =>
      let rc := fresh "rc" in
      apply Release_inv in H as (rc & ? & ? & ->)
  | H : RefCounted_Release _ _ = Ok _ |- _ =>
      let rc := fresh "rc" in
      apply (Release_inv (Some _)) in H as (rc & ? & ? & ->)
  | H : Release None _ = Ok _ |- _ => apply Release_inv in H as ->
  | H : Ok _ = Ok _ |- _ => injection H as <-
  | H : context [decide ?P] |- _ => destruct (decide P)
  end.

(** The goal [counted s'] for the object [o'], with what is known of each
    object and of each handle that the operation touched. *)
Ltac rc_facts Hc Hs o' :=
  pose proof (Hc o'); pose proof (Hs o');
  repeat match goal with
  | H : objs _ !! ?o = Some _ |- _ =>
      lazymatch goal with
      | _ : counted_at o |- _ => fail
      | _ => pose proof (Hc o); pose proof (Hs o);
             assert (counted_at o) by exact I
      end
  end;
  unfold holders in *; simpl in *; rewrite ?total_app; simpl;
  repeat match goal with
  | H : ?l !! ?i = Some ?p |- context [total ?g (<[?i := ?q]> ?l)] =>
      lazymatch goal with
      | _ : total g (<[i := q]> l) + g p = _ |- _ => fail
      | _ => pose proof (total_insert g l i p q H)
      end
  | H : ?l !! ?i = Some ?p, _ : context [total ?g (<[?i := ?q]> ?l)] |- _ =>
      lazymatch goal with
      | _ : total g (<[i := q]> l) + g p = _ |- _ => fail
      | _ => pose proof (total_insert g l i p q H)
      end
  end.

Ltac rc_ne :=
  repeat match goal with
  | H : context [<[_ := _]> _ !! _] |- _ =>
      rewrite list_lookup_insert_ne in H by congruence
  end.

Ltac rc_lookup o' :=
  repeat match goal with
  | |- context [<[?o := _]> _ !! o'] =>
      destruct (decide (o' = o)) as [->|?];
      [ rewrite list_lookup_insert_eq
          by (rewrite ?length_insert; eapply lookup_lt_Some; eassumption)
      | rewrite list_lookup_insert_ne by done ]
  end.

Ltac rc_arith :=
  unfold holds, INT_MAX in *;
  repeat match goal with
  | H : objs _ !! ?o = Some _, H' : context [objs _ !! ?o] |- _ =>
      rewrite H in H'
  | |- context [int_wrap ?z] => rewrite (int_wrap_id z) by (repeat case_decide; simplify_eq; lia)
  | |- context [(?z =? 0)%Z] => destruct (Z.eqb_spec z 0)
  end;
  repeat case_decide; simplify_eq;
  repeat match goal with
  | H : context [match ?x with _ => _ end] |- _ =>
      destruct x as [[?|]|] eqn:?; simplify_eq
  end;
  try done; try lia.

(** An operation that returns keeps the counts right. *)
Lemma run_op_counted op s s' :
  counted s -> small s -> run_op op s = Ok s' -> counted s'.
Proof.
  intros Hc Hs H. destruct op; simpl in H; rc_inv; try done.
  - (* New *)
    intros o. specialize (Hc o). simpl. rewrite lookup_snoc_decide.
    case_decide; [|done]. subst. rewrite lookup_length_None in Hc.
    unfold holders in *. simpl. lia.
  - (* CtorDefault *)
    intros o. specialize (Hc o). simpl.
    rewrite (holders_snoc o s). unfold holds. by rewrite Nat.add_0_r.
  - (* CtorRaw *)
    destruct ref as [o|]; rc_inv; intros o'; rc_facts Hc Hs o'; rc_lookup o';
      rc_arith.
  - (* CtorCopy *)
    destruct x as [o|]; rc_inv; intros o'; rc_facts Hc Hs o'; rc_lookup o';
      rc_arith.
  - (* CtorMove *)
    intros o'; rc_facts Hc Hs o'; rc_lookup o'; rc_arith.
  - (* Dtor *)
    destruct x as [o|]; rc_inv; intros o'; rc_facts Hc Hs o'; rc_lookup o';
      rc_arith.
  - (* AssignRaw *)
    destruct x as [o|], ref as [r|]; rc_inv; try done.
    + rc_ne. intros o'; rc_facts Hc Hs o'; rc_lookup o'; rc_arith.
    + intros o'; rc_facts Hc Hs o'; rc_lookup o'; rc_arith.
    + intros o'; rc_facts Hc Hs o'; rc_lookup o'; rc_arith.
  - (* AssignNull *)
    destruct x as [o|]; rc_inv; [|done].
    intros o'; rc_facts Hc Hs o'; rc_lookup o'; rc_arith.
  - (* AssignCopy *)
    destruct x as [o|], x0 as [r|]; rc_inv; try done.
    + rc_ne. intros o'; rc_facts Hc Hs o'; rc_lookup o'; rc_arith.
    + intros o'; rc_facts Hc Hs o'; rc_lookup o'; rc_arith.
    + intros o'; rc_facts Hc Hs o'; rc_lookup o'; rc_arith.
  - (* AssignMove *)
    assert (this <> ref) by congruence.
    assert (<[this := Some x0]> (ptrs s) !! ref = Some (Some x0))
      by (by rewrite list_lookup_insert_ne).
    destruct x as [o|]; rc_inv;
      intros o'; rc_facts Hc Hs o'; rc_lookup o'; rc_arith.
  - (* AssignSwap *)
    destruct (decide (this = ref)) as [->|].
    + simplify_eq. rewrite list_insert_insert_eq, list_insert_id by done.
      by destruct s.
    + assert (<[ref := Some x]> (ptrs s) !! this = Some (Some x))
        by (by rewrite list_lookup_insert_ne).
      intros o'; rc_facts Hc Hs o'; rc_lookup o'; rc_arith.
Qed.

(** A handle that holds an object holds one that is not deleted, whose count
    is positive. *)
Lemma counted_holds s i o :
  counted s -> ptrs s !! i = Some (Some (Some o)) ->
  objs s !! o = Some (Some (Z.of_nat (holders o s))) /\ 0 < holders o s.
Proof.
  intros Hc Hi. specialize (Hc o).
  pose proof (holds_le o _ _ _ Hi) as Hle. unfold holds in Hle.
  rewrite decide_True in Hle by done.
  destruct (objs s !! o) as [[rc|]|]; [|lia..]. split; [by subst|lia].
Qed.

Lemma Release_Ok s i ref_ :
  counted s -> ptrs s !! i = Some (Some ref_) ->
  exists h, Release ref_ (objs s) = Ok h /\
    forall o, Some o <> ref_ -> h !! o = objs s !! o.
Proof.
  intros Hc Hi. destruct ref_ as [o|]; simpl; [|by eexists].
  destruct (counted_holds _ _ _ Hc Hi) as [Ho Hpos].
  unfold RefCounted_Release. rewrite Ho.
  destruct (Z.ltb_spec 0 (Z.of_nat (holders o s))); [|lia].
  destruct (_ =? 0)%Z; eexists; (split; [done|]); intros o' Hne;
    rewrite list_lookup_insert_ne; congruence.
Qed.

Lemma AddRef_Ok s h ref :
  counted s -> live ref s ->
  (forall o, Some o = ref -> h !! o = objs s !! o) ->
  exists h', AddRef ref h = Ok h'.
Proof.
  intros Hc Hl Hh. destruct ref as [o|]; simpl; [|by eexists].
  destruct Hl as [rc Ho]. unfold RefCounted_AddRef.
  rewrite (Hh o eq_refl), Ho. specialize (Hc o). rewrite Ho in Hc.
  destruct (Z.leb_spec 0 rc); [by eexists|lia].
Qed.

Lemma alive_live s i ref_ :
  counted s -> ptrs s !! i = Some (Some ref_) -> live ref_ s.
Proof.
  intros Hc Hi. destruct ref_ as [o|]; [|done].
  destruct (counted_holds _ _ _ Hc Hi) as [Ho _]. by eexists.
Qed.

(** * The operations never fail on handles whose destructor has not run *)

(** X13. Where the counts are right, an operation on handles whose destructor
    has not run and on pointers to objects that are not deleted returns: no
    assertion of [AddRef] or [Release] fails and no deleted object is
    used. *)
Theorem run_op_progress op s :
  counted s -> args_ok op s -> exists s', run_op op s = Ok s'.
Proof.
  intros Hc Ha. destruct op; simpl in *;
    repeat match goal with
    | H : _ /\ _ |- _ => destruct H
    | H : alive _ _ |- _ =>
        let r := fresh "r" in let E := fresh "E" in
        destruct H as [r E]; unfold get_ref; rewrite E; simpl
    end; try by eexists.
  - (* CtorRaw *)
    destruct (AddRef_Ok s (objs s) ref Hc Ha) as [h ->]; [done|by eexists].
  - (* CtorCopy *)
    destruct (AddRef_Ok s (objs s) r Hc) as [h ->];
      [by eapply alive_live|done|by eexists].
  - (* Dtor *)
    destruct (Release_Ok _ _ _ Hc E) as (h & -> & _). by eexists.
  - (* AssignRaw *)
    case_decide; [|by eexists].
    destruct (Release_Ok _ _ _ Hc E) as (h & -> & Hh). simpl.
    destruct (AddRef_Ok s h ref Hc) as [h' ->]; [done| |by eexists].
    intros o <-. apply Hh. congruence.
  - (* AssignNull *)
    destruct r as [o|]; [|by eexists].
    destruct (Release_Ok _ _ _ Hc E) as (h & Hr & _). simpl in Hr.
    rewrite Hr. by eexists.
  - (* AssignCopy *)
    case_decide; [|by eexists].
    destruct (Release_Ok _ _ _ Hc E0) as (h & -> & Hh). simpl.
    destruct (AddRef_Ok s h r Hc) as [h' ->];
      [by eapply alive_live| |by eexists].
    intros o <-. apply Hh. congruence.
  - (* AssignMove *)
    case_decide; [|by eexists].
    destruct (Release_Ok _ _ _ Hc E0) as (h & -> & Hh). by eexists.
Qed.

Lemma run_op_progress_witness :
  exists s', run_op (AssignCopy 0 1)
    (mkStore [Some 1%Z; Some 1%Z] [Some (Some 0); Some (Some 1)]) = Ok s'.
Proof.
  apply run_op_progress.
  - intros [|[|o]]; vm_compute; done.
  - split; eexists; reflexivity.
Defined.

(** * Runs from the empty state *)

Lemma holders_le o s : holders o s <= length (ptrs s).
Proof.
  unfold holders. induction (ptrs s) as [|p l IH]; simpl; [done|].
  unfold holds at 1. case_decide; lia.
Qed.

Lemma run_op_handles op s s' :
  run_op op s = Ok s' -> length (ptrs s') <= length (ptrs s) + 1.
Proof.
  intros H. destruct op; simpl in H; rc_inv;
    try (destruct x; rc_inv); simpl;
    rewrite ?length_app, ?length_insert; simpl; lia.
Qed.

Lemma run_ops_counted_from ops s s' :
  counted s ->
  (Z.of_nat (length (ptrs s) + length ops) < INT_MAX)%Z ->
  run_ops ops s = Ok s' -> counted s'.
Proof.
  revert s. induction ops as [|op ops IH]; intros s Hc Hn H; simpl in *.
  - by injection H as <-.
  - apply rbind_Ok in H as (s1 & H1 & H).
    pose proof (run_op_handles _ _ _ H1).
    apply (IH s1); [|lia|done].
    apply (run_op_counted op s); [done| |done].
    intros o. pose proof (holders_le o s). lia.
Qed.

(** X12. After fewer than [INT_MAX] operations from the empty state that all
    returned, the count of every object that is not deleted is the number of
    the handles that hold it, and a handle holds no deleted object: what it
    holds has a positive count. *)
Theorem run_ops_counted ops s :
  (Z.of_nat (length ops) < INT_MAX)%Z ->
  run_ops ops Store_init = Ok s ->
  counted s /\
  forall i o, ptrs s !! i = Some (Some (Some o)) ->
    exists refCount,
      objs s !! o = Some (Some refCount) /\ (0 < refCount)%Z /\
      refCount = Z.of_nat (holders o s).
Proof.
  intros Hn H.
  assert (counted s) as Hc.
  { apply (run_ops_counted_from ops Store_init); [|done..].
    by intros [|o]. }
  split; [done|]. intros i o Hi.
  destruct (counted_holds _ _ _ Hc Hi) as [Ho Hpos].
  eexists. split; [done|]. split; [lia|done].
Qed.

Lemma run_ops_counted_witness :
  counted (mkStore [Some 1%Z] [None; Some (Some 0)]) /\
  forall i o,
    ptrs (mkStore [Some 1%Z] [None; Some (Some 0)]) !! i
    = Some (Some (Some o)) ->
    exists refCount,
      objs (mkStore [Some 1%Z] [None; Some (Some 0)]) !! o
      = Some (Some refCount) /\ (0 < refCount)%Z /\
      refCount
      = Z.of_nat (holders o (mkStore [Some 1%Z] [None; Some (Some 0)])).
Proof.
  apply (run_ops_counted [New; CtorRaw (Some 0); CtorCopy 0; Dtor 0]).
  - vm_compute. reflexivity.
  - vm_compute. reflexivity.
Defined.

(** * The last handle deletes the object *)

(** X14. The destructor of a handle and the assignment of [nullptr] to it
    delete the object that the handle holds when no other handle holds it,
    and take one from its count when another does; no other object
    changes. *)
Theorem last_handle_deletes this o s :
  counted s -> small s -> ptrs s !! this = Some (Some (Some o)) ->
  let h := <[o := if decide (holders o s = 1) then None
                  else Some (Z.of_nat (holders o s) - 1)%Z]> (objs s) in
  run_op (Dtor this) s = Ok (mkStore h (<[this := None]> (ptrs s))) /\
  run_op (AssignNull this) s
  = Ok (mkStore h (<[this := Some None]> (ptrs s))).
Proof.
  intros Hc Hs Hi. destruct (counted_holds _ _ _ Hc Hi) as [Ho Hpos].
  specialize (Hs o). unfold INT_MAX in Hs.
  assert (RefCounted_Release o (objs s)
          = Ok (<[o := if decide (holders o s = 1) then None
                       else Some (Z.of_nat (holders o s) - 1)%Z]> (objs s)))
    as Hr.
  { unfold RefCounted_Release. rewrite Ho.
    destruct (Z.ltb_spec 0 (Z.of_nat (holders o s))); [|lia].
    rewrite int_wrap_id by lia.
    destruct (Z.eqb_spec (Z.of_nat (holders o s) - 1) 0); case_decide;
      try done; lia. }
  simpl. unfold get_ref. rewrite Hi. simpl. by rewrite Hr.
Qed.

Lemma last_handle_deletes_witness :
  run_op (Dtor 1) (mkStore [Some 1%Z] [None; Some (Some 0)])
  = Ok (mkStore [None] [None; None]) /\
  run_op (AssignNull 1) (mkStore [Some 1%Z] [None; Some (Some 0)])
  = Ok (mkStore [None] [None; Some None]).
Proof.
  apply (last_handle_deletes 1 0 (mkStore [Some 1%Z] [None; Some (Some 0)])).
  - intros [|o]; vm_compute; done.
  - intros [|o]; vm_compute; done.
  - reflexivity.
Defined.

(** * The move assignment, old and new *)

(** X15. The move assignment of [RefCntAutoPtr], which releases what the
    handle held, and the older one of [RefCountGuard], which swaps the two
    pointers, come to the same once the source handle is destroyed: the same
    heap, the same handles or the same failure. *)
Theorem move_then_destroy this ref s :
  run_ops [AssignMove this ref; Dtor ref] s
  = run_ops [AssignSwap this ref; Dtor ref] s.
Proof.
  destruct (ptrs s !! this) as [[x|]|] eqn:E;
    destruct (ptrs s !! ref) as [[x0|]|] eqn:E0;
    simpl; unfold get_ref; rewrite ?E, ?E0; simpl; try done.
  pose proof (lookup_lt_Some _ _ _ E). pose proof (lookup_lt_Some _ _ _ E0).
  case_decide as Hne.
  - assert (this <> ref) by congruence.
    rewrite list_lookup_insert_ne, list_lookup_insert_eq by done. simpl.
    destruct (Release x (objs s)) as [h|e]; simpl; [|done].
    rewrite list_lookup_insert_eq by (by rewrite length_insert). simpl.
    rewrite list_insert_insert_eq.
    rewrite (list_insert_insert_ne _ this ref) by done.
    by rewrite list_insert_insert_eq.
  - subst x0.
    rewrite (list_insert_id _ ref), (list_insert_id _ this) by done.
    simpl. by destruct s.
Qed.

End RefCntFacts.

(** * The loop scheduler of the example *)

Module CustomFacts.
Import Custom.

Lemma stopped_in_loop_cons e l :
  stopped_in_loop l -> stopped_in_loop (e :: l).
Proof. intros (l2 & l1 & -> & H). by exists (e :: l2), l1. Qed.

Ltac loop_fields :=
  split; simpl; rewrite ?app_nil_r in *;
  auto using stopped_in_loop_cons; try done.

Lemma step_loop_inv l st st' :
  step l st = Next st' -> loop_inv st -> loop_inv st'.
Proof.
  intros H [Hq Hc He Hi Hs Hx]. destruct l; simpl in H.
  - (* Schedule *)
    injection H as <-. loop_fields.
    + by rewrite Hq, app_assoc.
    + intros Hp. destruct (Hx Hp) as (l2 & l1 & -> & H).
      by exists (EvSchedule functor :: l2), l1.
  - (* Stop *)
    injection H as <-. loop_fields.
    + intros Hp _. exists [], (history st). auto.
    + intros Hp. destruct (Hx Hp) as (l2 & l1 & -> & H).
      by exists (EvStop :: l2), l1.
  - (* Loop *)
    unfold Loop in H. destruct (pc st) eqn:Hpc; simpl in *.
    + injection H as <-. loop_fields.
    + destruct (taskQueue_ (sched st)) as [|f q] eqn:Eq;
        destruct (isRunning_ (sched st)) eqn:Er; simpl in H; try done;
        injection H as <-; loop_fields.
      * by rewrite Eq, app_nil_r.
      * intros _. exists [], (history st). split; [done|].
        split; [congruence|auto].
      * by rewrite Hq, <- app_assoc.
      * by rewrite Hc.
      * by rewrite Hq, <- app_assoc.
      * by rewrite Hc.
    + destruct functor as [f|]; [|done]. injection H as <-. loop_fields.
    + injection H as <-. loop_fields.
    + done.
Qed.

Lemma steps_loop_inv ls st st' :
  steps ls st = Next st' -> loop_inv st -> loop_inv st'.
Proof.
  revert st. induction ls as [|l ls IH]; intros st H Hinv; simpl in H.
  - by injection H as <-.
  - apply bind_Next in H as (st1 & H1 & H). eauto using step_loop_inv.
Qed.

Lemma init_loop_inv : loop_inv State_init.
Proof. split; simpl; try done. Qed.

(** X17. The functors are called in the order they were scheduled, one at
    a time and each one once: the functors scheduled are the ones returned
    from, then the one that is being called, then the queue. *)
Theorem loop_fifo ls st :
  steps ls State_init = Next st ->
  scheduled (history st)
  = returned (history st) ++ current (pc st) ++ taskQueue_ (sched st).
Proof.
  intros H. destruct (steps_loop_inv _ _ _ H init_loop_inv) as [Hq Hc _ _ _ _].
  by rewrite Hq, Hc, <- app_assoc.
Qed.

Lemma loop_fifo_witness :
  scheduled [EvCall 7; EvPop (Some 7); EvSchedule (Some 8); EvLoop;
             EvSchedule (Some 7)]
  = returned [EvCall 7; EvPop (Some 7); EvSchedule (Some 8); EvLoop;
              EvSchedule (Some 7)]
    ++ current (PRun 7) ++ [Some 8].
Proof.
  apply (loop_fifo
    [LSchedule (Some 7); LLoop; LSchedule (Some 8); LLoop; LLoop]
    (mkState (mkCustom [Some 8] true) (PRun 7)
       [EvCall 7; EvPop (Some 7); EvSchedule (Some 8); EvLoop;
        EvSchedule (Some 7)])).
  reflexivity.
Defined.

(** X18. [Loop()] returns only once [Stop()] was called after [Loop()] was
    entered, and when it returns every functor scheduled until then has been
    called and has returned.  A [Stop()] that comes before [Loop()] is
    entered is lost: [Loop()] sets [isRunning_] again. *)
Theorem loop_returns ls st :
  steps ls State_init = Next st -> pc st = PExit ->
  exists l2 l1, history st = l2 ++ EvBreak :: l1 /\
    scheduled l1 = returned l1 /\ stopped_in_loop l1.
Proof.
  intros H Hp.
  destruct (steps_loop_inv _ _ _ H init_loop_inv) as [_ _ _ _ _ Hx]. auto.
Qed.

Lemma loop_returns_witness :
  exists l2 l1,
    [EvBreak; EvReturn 7; EvStop; EvCall 7; EvPop (Some 7); EvLoop;
     EvSchedule (Some 7)] = l2 ++ EvBreak :: l1 /\
    scheduled l1 = returned l1 /\ stopped_in_loop l1.
Proof.
  apply (loop_returns
    [LSchedule (Some 7); LLoop; LLoop; LLoop; LStop; LLoop; LLoop]
    (mkState (mkCustom [] false) PExit
       [EvBreak; EvReturn 7; EvStop; EvCall 7; EvPop (Some 7); EvLoop;
        EvSchedule (Some 7)]));
    reflexivity.
Defined.

(** A [Stop()] before [Loop()]: the thread of [Loop()] waits, and does so
    until another thread calls [Schedule] or [Stop]. *)
Example stop_before_loop :
  steps [LStop; LLoop; LLoop] State_init = Blocked /\
  steps [LStop; LLoop; LStop; LLoop] State_init
  = Next (mkState (mkCustom [] false) PExit [EvBreak; EvStop; EvLoop; EvStop]).
Proof. split; reflexivity. Qed.

End CustomFacts.

(** * Future<void> *)

(** X19. [Future<void>] is [Future<T>] at the value [VVoid]: each guarded
    block of the one does on [hasValue_] and the queue what the block of
    the other does on [value_] and the queue, with the same assertion, the
    same result and the same wait; and where a listener is called, the
    assertion of [GetValueInternal], which [Future<void>] does not make,
    holds. *)
Theorem Future_void_refines (f : FutureVoid.Future_void) (cb : Callback)
    (expired : bool) :
  IsReadyInternal (FutureVoid.as_Future f) = FutureVoid.IsReadyInternal f /\
  SetValue_locked VVoid (FutureVoid.as_Future f)
  = (let* f' := FutureVoid.SetValue_locked f in
     Next (FutureVoid.as_Future f')) /\
  InvokeOnValueAvailable_locked cb (FutureVoid.as_Future f)
  = FutureVoid.as_result (FutureVoid.InvokeOnValueAvailable_locked cb f) /\
  CallAllValueListener_locked (FutureVoid.as_Future f)
  = FutureVoid.as_result (FutureVoid.CallAllValueListener_locked f) /\
  Wait_locked (FutureVoid.as_Future f) = FutureVoid.Wait_locked f /\
  WaitFor_locked expired (FutureVoid.as_Future f)
  = FutureVoid.WaitFor_locked expired f /\
  (FutureVoid.IsReadyInternal f = true ->
   GetValueInternal (FutureVoid.as_Future f) = Next VVoid).
Proof.
  destruct f as [[|] q]; repeat split; try done; by destruct q.
Qed.

Lemma Future_void_refines_witness :
  GetValueInternal (FutureVoid.as_Future (FutureVoid.mkFutureVoid true []))
  = Next VVoid.
Proof.
  apply (Future_void_refines (FutureVoid.mkFutureVoid true []) (CbUser 0)
           false).
  reflexivity.
Defined.

(** * The machine with reference counts, against the machine above *)




Lemma on_store_inv r m m1 ins :
  on_store r m = Next (m1, ins) ->
  exists w' cmds, r = Next (w', cmds) /\ m1 = set_store w' m /\
    ins = IRun <$> cmds.
Proof.
  unfold on_store. intros H. apply bind_Next in H as ([w' cmds] & -> & H).
  injection H as <- <-. eauto.
Qed.




















Lemma Process_init_synced : synced Process_init.
Proof. done. Qed.










Lemma prun_ok_reachable ok sched m m' :
  preachable ok m -> prun_ok ok sched m = Next m' -> preachable ok m'.
Proof.
  revert m. induction sched as [|a sched IH]; simpl; intros m Hm H.
  - by injection H as <-.
  - destruct (ok (store m) a) eqn:Hok; [|done].
    apply bind_Next in H as (m1 & H1 & H2).
    eapply IH; [|done]. by eapply preachable_step.
Qed.

Lemma prun_reachable sched m m' :
  preachable any_step m -> prun sched m = Next m' -> preachable any_step m'.
Proof.
  revert m. induction sched as [|a sched IH]; simpl; intros m Hm H.
  - by injection H as <-.
  - apply bind_Next in H as (m1 & H1 & H2).
    eapply IH; [|done]. by eapply preachable_step.
Qed.

(** ** Counts and marks *)




Lemma on_store_counts r m m1 ins w :
  on_store r m = Next (m1, ins) ->
  (forall w' cmds, r = Next (w', cmds) ->
     length (tasks w') = length (tasks w)) ->
  length (tasks (store m1)) = length (tasks w) /\
  refCount m1 = refCount m /\ hasHandle m1 = hasHandle m.
Proof.
  intros H Hr. apply on_store_inv in H as (w' & cmds & H & -> & ->).
  simpl. split; [by eapply Hr|done].
Qed.




(** ** The claims on starting and on parents, with the counts *)







(** In that run thread 1 is about to call the producer of node 2 in the
    state [fanin_proc_mid]; the node has its handle and is held by the
    closure of the worker; the call is made with the handles of the nodes
    0 and 1. *)
Example fanin_proc_producer :
  code fanin_proc_mid !! 1
  = Some [IRun (CInvokeFunctor 2); IRun (CFunctorReturned 0 (ClStart 2));
          IRun (CWorkerThreadRoutine 0)] /\
  refCount fanin_proc_mid = [Some 1%Z; Some 1%Z; Some 2%Z] /\
  hasHandle fanin_proc_mid = [true; true; true] /\
  In (EvProducer 2 [Some 0; Some 1]) (log (store fanin_proc)).
Proof. vm_compute. tauto. Qed.



(** Two calls of [Start()] on a leaf that overlap: the client starts no
    node with parents, both calls pass the assertion, the node is handed
    to the scheduler twice and its producer is called twice. *)
Lemma Start_twice :
  prun_ok no_manual_start race_sched Process_init = Next race_proc /\
  preachable no_manual_start race_proc /\
  has_parents 0 (store race_proc) = false /\
  total (is_Start 0) (log (store race_proc)) = 2 /\
  total (is_Schedule 0) (log (store race_proc)) = 2 /\
  total (is_Producer 0) (log (store race_proc)) = 2.
Proof.
  assert (H : prun_ok no_manual_start race_sched Process_init
              = Next race_proc) by (vm_compute; reflexivity).
  split; [done|]. split.
  - eapply prun_ok_reachable; [constructor|exact H].
  - vm_compute. tauto.
Qed.

(** When the producer returns a second time, [SetValue] finds the future
    Ready: the run ends there. *)
Example Start_twice_SetValue :
  prun [(1, UReturn (VInt 1)); (1, Tick)] race_proc
  = Fail (AssertionFailed A_value_empty).
Proof. vm_compute. reflexivity. Qed.

(** ** Then *)








Lemma null_proc_reachable : preachable any_step null_proc.
Proof.
  apply (prun_reachable null_proc_sched Process_init); [constructor|].
  vm_compute. reflexivity.
Qed.

(** [Then] without a scheduler on a node that [MakeTaskFromValue] made with
    a null pointer: the new node is bound to the default scheduler, and
    [GetScheduler()] of the receiver is null. *)
Lemma Then_null_scheduler :
  preachable any_step null_proc /\
  hasHandle null_proc !! 0 = Some true /\
  GetScheduler 0 (store null_proc) = Next None /\
  gDefaultTaskScheduler (store null_proc) = Some 0 /\
  exists m1 m2,
    pexec (0, UCall (ApiThen 0 (Some 5) None)) null_proc = Next m1 /\
    GetScheduler 1 (store m1) = Next (Some 0) /\
    prun (ticks 0 10) m1 = Next m2 /\
    code m2 !! 0 = Some [IRun (CUser KMain)] /\
    hasHandle m2 !! 1 = Some true /\ live m2 1 = true /\
    GetScheduler 1 (store m2) = Next (Some 0) /\
    GetScheduler 0 (store m2) = Next None /\
    GetScheduler 1 (store m2) <> GetScheduler 0 (store m2).
Proof.
  split; [exact null_proc_reachable|].
  split; [by vm_compute|]. split; [by vm_compute|]. split; [by vm_compute|].
  eexists _, _. split; [vm_compute; reflexivity|].
  split; [vm_compute; reflexivity|].
  split; [vm_compute; reflexivity|].
  vm_compute. repeat split; congruence.
Qed.

(** ** Producers and values, with the counts *)





(** ** A node deleted under the hands of its constructor *)

(** X20. A node made with two parents that are Ready: the constructor calls
    the listener on the first parent at once, and destroys it; that
    listener held the only reference, so the node is deleted, and the
    constructor fails when it makes the listener on the second parent. *)
Theorem ctor_ready_parents :
  prun ready_parents_sched Process_init = Next ready_parents_proc /\
  code ready_parents_proc !! 0
  = Some [IRun (CInvokeOnValueAvailable 1 (Some (CbParent 2 1 1)));
          IWrap 2; IRun (CUser KMain)] /\
  refCount ready_parents_proc = [Some 1%Z; Some 1%Z; None] /\
  pexec (0, Tick) ready_parents_proc = Fail NullPointer.
Proof. vm_compute. tauto. Qed.

(** X21. [Then] on a node that is Ready: the listener starts the new node
    from inside its constructor.  Where the worker runs the node to its end
    before the constructor has returned, the node is deleted when the
    listener is destroyed, and [MakeTaskImpl] fails when it makes the
    handle; where the constructor returns first, the handle is made. *)
Theorem Then_ready_receiver :
  (exists m, prun then_fast_sched null_proc = Next m /\
     code m !! 0 = Some [IWrap 1; IRun (CUser KMain)] /\
     refCount m = [Some 1%Z; None] /\
     In (EvSetValue 1 (VInt 4)) (log (store m)) /\
     pexec (0, Tick) m = Fail NullPointer) /\
  (exists m, prun then_sched null_proc = Next m /\
     code m !! 0 = Some [IRun (CUser KMain)] /\
     refCount m = [Some 1%Z; Some 2%Z] /\
     hasHandle m = [true; true]).
Proof.
  split; eexists; (split; [vm_compute; reflexivity|]); vm_compute; tauto.
Qed.
